(** * The external scanner of the Nix grammar (src/scanner.c)

    A shallow embedding of the hand-written lexical state machine that the
    grammar-driven parser calls for strings, indented strings, escape
    sequences, interpolation boundaries and comments, together with the
    properties its specification states about it.

    Conventions of the embedding.
    - Characters are code points, as [TSLexer.lookahead] (an [int32_t]) has
      them: values of [Z].  The end of the input reads as code point 0.
    - The [int] counters of [Scanner] are values of [Z] with the arithmetic
      of a 32-bit [int] written out: an increment at [INT_MAX] and a
      decrement at [INT_MIN] wrap around ([int_wrap]), which is what the
      compiled scanner does where C leaves the overflow undefined.  A
      theorem that states the value of a counter after a call carries the
      premise that keeps the counter away from the overflow, so it holds
      however the overflow is read.  The truncation to one byte that
      serialization performs is written out as well.  The local counters
      of the helpers stay unbounded: [quote_count] never passes 2, and
      [depth] counts the block-comment openers read, two characters each,
      so it stays below [INT_MAX] on every input of fewer than 2^32
      characters.
    - The scanner mutates [Scanner] and [TSLexer] in place and leaves a
      function from many places; here a step is a function from the two
      records to a [flow], which either returns or falls through to the
      next statement. *)

From Stdlib Require Import String Ascii ZArith List Bool Lia.
From Stdlib.Strings Require Import Byte.
Import ListNotations.
Open Scope Z_scope.

(** ** Token kinds and the persistent state *)

Inductive TokenType : Type :=
| STRING_START
| STRING_CONTENT
| STRING_END
| INDENTED_STRING_START
| INDENTED_STRING_CONTENT
| INDENTED_STRING_END
| INTERPOLATION_START
| INTERPOLATION_END
| ESCAPE_SEQUENCE
| COMMENT.

Definition TokenType_eqb (a b : TokenType) : bool :=
  match a, b with
  | STRING_START, STRING_START
  | STRING_CONTENT, STRING_CONTENT
  | STRING_END, STRING_END
  | INDENTED_STRING_START, INDENTED_STRING_START
  | INDENTED_STRING_CONTENT, INDENTED_STRING_CONTENT
  | INDENTED_STRING_END, INDENTED_STRING_END
  | INTERPOLATION_START, INTERPOLATION_START
  | INTERPOLATION_END, INTERPOLATION_END
  | ESCAPE_SEQUENCE, ESCAPE_SEQUENCE
  | COMMENT, COMMENT => true
  | _, _ => false
  end.

Record Scanner : Type := mkScanner {
  in_string : bool;
  in_indented_string : bool;
  interpolation_depth : Z;
  paren_depth : Z;
  brace_depth : Z
}.

(** [calloc(1, sizeof(Scanner))]: every field zero. *)
Definition tree_sitter_nix_external_scanner_create : Scanner :=
  mkScanner false false 0 0 0.

(** The range and the wrap-around of the 32-bit [int] of the counters. *)
Definition INT_MIN : Z := -2147483648.
Definition INT_MAX : Z := 2147483647.

Definition int_range (x : Z) : Prop := INT_MIN <= x <= INT_MAX.

Definition int_wrap (x : Z) : Z :=
  (x + 2147483648) mod 4294967296 - 2147483648.

Definition set_in_string (s : Scanner) (b : bool) : Scanner :=
  mkScanner b (in_indented_string s) (interpolation_depth s) (paren_depth s)
            (brace_depth s).

Definition set_in_indented_string (s : Scanner) (b : bool) : Scanner :=
  mkScanner (in_string s) b (interpolation_depth s) (paren_depth s)
            (brace_depth s).

Definition set_interpolation_depth (s : Scanner) (n : Z) : Scanner :=
  mkScanner (in_string s) (in_indented_string s) n (paren_depth s)
            (brace_depth s).

Definition set_brace_depth (s : Scanner) (n : Z) : Scanner :=
  mkScanner (in_string s) (in_indented_string s) (interpolation_depth s)
            (paren_depth s) n.

(** The admissible kinds of one call: [valid_symbols], indexed by kind. *)
Definition valid_symbols : Type := TokenType -> bool.

Definition all_valid : valid_symbols := fun _ => true.

Definition only (ks : list TokenType) : valid_symbols :=
  fun k => existsb (TokenType_eqb k) ks.

(** ** Character codes *)

Abbreviation CH_TAB := 9 (only parsing).
Abbreviation CH_NEWLINE := 10 (only parsing).
Abbreviation CH_RETURN := 13 (only parsing).
Abbreviation CH_SPACE := 32 (only parsing).
Abbreviation CH_DQUOTE := 34 (only parsing).
Abbreviation CH_HASH := 35 (only parsing).
Abbreviation CH_DOLLAR := 36 (only parsing).
Abbreviation CH_QUOTE := 39 (only parsing).
Abbreviation CH_STAR := 42 (only parsing).
Abbreviation CH_SLASH := 47 (only parsing).
Abbreviation CH_BACKSLASH := 92 (only parsing).
Abbreviation CH_LBRACE := 123 (only parsing).
Abbreviation CH_RBRACE := 125 (only parsing).

(** The code points of a string literal, for writing inputs down. *)
Fixpoint chars (s : string) : list Z :=
  match s with
  | EmptyString => []
  | String c s' => Z.of_N (N_of_ascii c) :: chars s'
  end.

(** ** The character source *)

(** Modelled from the spec: the [TSLexer] record is declared in
    tree_sitter/parser.h, which is not among the sources.  The character
    source exposes the next unconsumed character (an end-of-input sentinel
    when exhausted), an operation to consume one character and mark it as
    belonging to the current token, and an operation to mark the current
    input position as the token's end without consuming further.  Here it
    is the whole input, the offset of the next unread character, the offset
    at which the token starts, the marked end if one was marked, and the
    kind the scanner reports. *)
Record TSLexer : Type := mkLexer {
  input : list Z;
  position : nat;
  token_start : nat;
  token_end : option nat;
  result_symbol : TokenType
}.

(** Modelled from the spec: [lexer->lookahead], the next unconsumed
    character, 0 when the input is exhausted. *)
Definition lookahead (lx : TSLexer) : Z := nth (position lx) (input lx) 0.

Definition remaining (lx : TSLexer) : nat :=
  (length (input lx) - position lx)%nat.

(** Modelled from the spec: [lexer->advance(lexer, skip)] consumes one
    character; with the skip flag the character is no part of the token,
    whose start moves past it.  At the end of the input nothing moves. *)
Definition lexer_advance (lx : TSLexer) (skip_it : bool) : TSLexer :=
  if (position lx <? length (input lx))%nat then
    mkLexer (input lx) (S (position lx))
            (if skip_it then S (position lx) else token_start lx)
            (token_end lx) (result_symbol lx)
  else lx.

(** Modelled from the spec: [lexer->mark_end(lexer)] marks the current
    position as the end of the token. *)
Definition mark_end (lx : TSLexer) : TSLexer :=
  mkLexer (input lx) (position lx) (token_start lx) (Some (position lx))
          (result_symbol lx).

Definition set_result_symbol (lx : TSLexer) (k : TokenType) : TSLexer :=
  mkLexer (input lx) (position lx) (token_start lx) (token_end lx) k.

(** The lexer as the parser hands it to a scan call at offset [pos]. *)
Definition lexer_start (inp : list Z) (pos : nat) : TSLexer :=
  mkLexer inp pos pos None STRING_START.

(** Modelled from the spec: the token ends at the last marked position,
    or where the lexer stands on return when none was marked. *)
Definition token_end_position (lx : TSLexer) : nat :=
  match token_end lx with
  | Some e => e
  | None => position lx
  end.

(** The characters of the token a successful call hands back. *)
Definition token_text (lx : TSLexer) : list Z :=
  firstn (token_end_position lx - token_start lx)
         (skipn (token_start lx) (input lx)).

(** ** The scanner's helpers *)

Definition advance (lx : TSLexer) : TSLexer := lexer_advance lx false.

Definition skip (lx : TSLexer) : TSLexer := lexer_advance lx true.

(** The [while] loop of [scan_string_content].  Every iteration consumes a
    character, so [S (remaining lx)] iterations are never used up. *)
Fixpoint scan_string_content_loop (fuel : nat) (lx : TSLexer)
    (has_content : bool) : bool * TSLexer :=
  match fuel with
  | O => (has_content, lx)
  | S fuel' =>
      if lookahead lx =? 0 then (has_content, lx)
      else if lookahead lx =? CH_DQUOTE then (has_content, lx)
      else if lookahead lx =? CH_BACKSLASH then (has_content, lx)
      else if lookahead lx =? CH_DOLLAR then
        let lx1 := advance lx in
        if lookahead lx1 =? CH_LBRACE then (has_content, lx1)
        else scan_string_content_loop fuel' (mark_end lx1) true
      else scan_string_content_loop fuel' (mark_end (advance lx)) true
  end.

Definition scan_string_content (lx : TSLexer) : bool * TSLexer :=
  scan_string_content_loop (S (remaining lx)) (mark_end lx) false.

Fixpoint scan_indented_string_content_loop (fuel : nat) (lx : TSLexer)
    (has_content : bool) (quote_count : Z) : bool * TSLexer :=
  match fuel with
  | O => (has_content, lx)
  | S fuel' =>
      if lookahead lx =? 0 then (has_content, lx)
      else if lookahead lx =? CH_QUOTE then
        let quote_count1 := quote_count + 1 in
        let lx1 := advance lx in
        if quote_count1 =? 2 then (has_content, lx1)
        else scan_indented_string_content_loop fuel' (mark_end lx1) true
               quote_count1
      else if lookahead lx =? CH_DOLLAR then
        let lx1 := advance lx in
        if lookahead lx1 =? CH_LBRACE then (has_content, lx1)
        else scan_indented_string_content_loop fuel' (mark_end lx1) true 0
      else
        scan_indented_string_content_loop fuel' (mark_end (advance lx)) true 0
  end.

Definition scan_indented_string_content (lx : TSLexer) : bool * TSLexer :=
  scan_indented_string_content_loop (S (remaining lx)) (mark_end lx) false 0.

Definition is_simple_escape (c : Z) : bool :=
  (c =? 110) || (c =? 114) || (c =? 116) || (c =? CH_BACKSLASH)
  || (c =? CH_DQUOTE) || (c =? CH_QUOTE) || (c =? CH_DOLLAR).

Definition is_hex_digit (c : Z) : bool :=
  ((48 <=? c) && (c <=? 57)) || ((97 <=? c) && (c <=? 102))
  || ((65 <=? c) && (c <=? 70)).

Definition scan_escape_sequence (lx : TSLexer) : bool * TSLexer :=
  if negb (lookahead lx =? CH_BACKSLASH) then (false, lx)
  else
    let lx1 := advance lx in
    if is_simple_escape (lookahead lx1) then (true, advance lx1)
    else if lookahead lx1 =? 120 then
      let lx2 := advance lx1 in
      if is_hex_digit (lookahead lx2) then
        let lx3 := advance lx2 in
        if is_hex_digit (lookahead lx3) then (true, advance lx3)
        else (false, lx3)
      else (false, lx2)
    else (false, lx1).

Fixpoint line_comment_loop (fuel : nat) (lx : TSLexer) : TSLexer :=
  match fuel with
  | O => lx
  | S fuel' =>
      if negb (lookahead lx =? 0) && negb (lookahead lx =? CH_NEWLINE)
      then line_comment_loop fuel' (advance lx)
      else lx
  end.

Fixpoint block_comment_loop (fuel : nat) (lx : TSLexer) (depth : Z)
    : Z * TSLexer :=
  match fuel with
  | O => (depth, lx)
  | S fuel' =>
      if (0 <? depth) && negb (lookahead lx =? 0) then
        if lookahead lx =? CH_SLASH then
          let lx1 := advance lx in
          if lookahead lx1 =? CH_STAR
          then block_comment_loop fuel' (advance lx1) (depth + 1)
          else block_comment_loop fuel' lx1 depth
        else if lookahead lx =? CH_STAR then
          let lx1 := advance lx in
          if lookahead lx1 =? CH_SLASH
          then block_comment_loop fuel' (advance lx1) (depth - 1)
          else block_comment_loop fuel' lx1 depth
        else block_comment_loop fuel' (advance lx) depth
      else (depth, lx)
  end.

Definition scan_comment (lx : TSLexer) : bool * TSLexer :=
  if lookahead lx =? CH_HASH then
    let lx1 := advance lx in
    (true, line_comment_loop (S (remaining lx1)) lx1)
  else if lookahead lx =? CH_SLASH then
    let lx1 := advance lx in
    if lookahead lx1 =? CH_STAR then
      let lx2 := advance lx1 in
      let '(depth, lx3) := block_comment_loop (S (remaining lx2)) lx2 1 in
      (depth =? 0, lx3)
    else (false, lx1)
  else (false, lx).

(** ** The scan entry point

    A statement of the C function either returns (the result, the state
    and the lexer as they stand) or falls through to the next statement. *)

Inductive flow : Type :=
| Return (produced : bool) (s : Scanner) (lx : TSLexer)
| Continue (s : Scanner) (lx : TSLexer).

Definition stage : Type := Scanner -> TSLexer -> flow.

Definition seq (a b : stage) : stage :=
  fun s lx =>
    match a s lx with
    | Return r s' lx' => Return r s' lx'
    | Continue s' lx' => b s' lx'
    end.

Notation "a ;; b" := (seq a b) (at level 61, right associativity).

Definition is_whitespace (c : Z) : bool :=
  (c =? CH_SPACE) || (c =? CH_TAB) || (c =? CH_NEWLINE) || (c =? CH_RETURN).

Fixpoint skip_whitespace_loop (fuel : nat) (lx : TSLexer) : TSLexer :=
  match fuel with
  | O => lx
  | S fuel' =>
      if is_whitespace (lookahead lx)
      then skip_whitespace_loop fuel' (skip lx)
      else lx
  end.

(** Lines 206-211: whitespace is skipped outside strings only. *)
Definition skip_whitespace : stage :=
  fun s lx =>
    if negb (in_string s) && negb (in_indented_string s)
    then Continue s (skip_whitespace_loop (S (remaining lx)) lx)
    else Continue s lx.

(** Lines 214-217. *)
Definition handle_comment (valid : valid_symbols) : stage :=
  fun s lx =>
    if valid COMMENT then
      let '(found, lx1) := scan_comment lx in
      if found then Return true s (set_result_symbol lx1 COMMENT)
      else Continue s lx1
    else Continue s lx.

(** Lines 222-227. *)
Definition string_start (valid : valid_symbols) : stage :=
  fun s lx =>
    if valid STRING_START && (lookahead lx =? CH_DQUOTE) then
      Return true (set_in_string s true)
             (set_result_symbol (advance lx) STRING_START)
    else Continue s lx.

(** Lines 230-238. *)
Definition indented_string_start (valid : valid_symbols) : stage :=
  fun s lx =>
    if valid INDENTED_STRING_START && (lookahead lx =? CH_QUOTE) then
      let lx1 := advance lx in
      if lookahead lx1 =? CH_QUOTE then
        Return true (set_in_indented_string s true)
               (set_result_symbol (advance lx1) INDENTED_STRING_START)
      else Continue s lx1
    else Continue s lx.

(** Lines 220-239. *)
Definition handle_string_entry (valid : valid_symbols) : stage :=
  fun s lx =>
    if negb (in_string s) && negb (in_indented_string s)
    then (string_start valid ;; indented_string_start valid) s lx
    else Continue s lx.

(** Lines 244-249. *)
Definition string_end (valid : valid_symbols) : stage :=
  fun s lx =>
    if valid STRING_END && (lookahead lx =? CH_DQUOTE) then
      Return true (set_in_string s false)
             (set_result_symbol (advance lx) STRING_END)
    else Continue s lx.

(** Lines 252-261 and 290-299: the same statement in both string modes. *)
Definition interpolation_start (valid : valid_symbols) : stage :=
  fun s lx =>
    if valid INTERPOLATION_START && (lookahead lx =? CH_DOLLAR) then
      let lx1 := advance lx in
      if lookahead lx1 =? CH_LBRACE then
        Return true
               (set_brace_depth
                  (set_interpolation_depth s
                     (int_wrap (interpolation_depth s + 1))) 1)
               (set_result_symbol (advance lx1) INTERPOLATION_START)
      else Continue s lx1
    else Continue s lx.

(** Lines 264-267. *)
Definition escape_sequence (valid : valid_symbols) : stage :=
  fun s lx =>
    if valid ESCAPE_SEQUENCE then
      let '(found, lx1) := scan_escape_sequence lx in
      if found then Return true s (set_result_symbol lx1 ESCAPE_SEQUENCE)
      else Continue s lx1
    else Continue s lx.

(** Lines 270-273. *)
Definition string_content (valid : valid_symbols) : stage :=
  fun s lx =>
    if valid STRING_CONTENT then
      let '(found, lx1) := scan_string_content lx in
      if found then Return true s (set_result_symbol lx1 STRING_CONTENT)
      else Continue s lx1
    else Continue s lx.

(** Lines 242-274. *)
Definition inside_string (valid : valid_symbols) : stage :=
  fun s lx =>
    if in_string s
    then (string_end valid ;; interpolation_start valid ;;
          escape_sequence valid ;; string_content valid) s lx
    else Continue s lx.

(** Lines 279-287. *)
Definition indented_string_end (valid : valid_symbols) : stage :=
  fun s lx =>
    if valid INDENTED_STRING_END && (lookahead lx =? CH_QUOTE) then
      let lx1 := advance lx in
      if lookahead lx1 =? CH_QUOTE then
        Return true (set_in_indented_string s false)
               (set_result_symbol (advance lx1) INDENTED_STRING_END)
      else Continue s lx1
    else Continue s lx.

(** Lines 302-305. *)
Definition indented_string_content (valid : valid_symbols) : stage :=
  fun s lx =>
    if valid INDENTED_STRING_CONTENT then
      let '(found, lx1) := scan_indented_string_content lx in
      if found
      then Return true s (set_result_symbol lx1 INDENTED_STRING_CONTENT)
      else Continue s lx1
    else Continue s lx.

(** Lines 277-306. *)
Definition inside_indented_string (valid : valid_symbols) : stage :=
  fun s lx =>
    if in_indented_string s
    then (indented_string_end valid ;; interpolation_start valid ;;
          indented_string_content valid) s lx
    else Continue s lx.

(** Lines 309-328, the closing [return false] included. *)
Definition interpolation_end (valid : valid_symbols) : stage :=
  fun s lx =>
    if (0 <? interpolation_depth s) && valid INTERPOLATION_END then
      if lookahead lx =? CH_LBRACE then
        Return false (set_brace_depth s (int_wrap (brace_depth s + 1)))
               (advance lx)
      else if lookahead lx =? CH_RBRACE then
        let s1 := set_brace_depth s (int_wrap (brace_depth s - 1)) in
        if brace_depth s1 =? 0 then
          Return true
                 (set_interpolation_depth s1
                    (int_wrap (interpolation_depth s1 - 1)))
                 (set_result_symbol (advance lx) INTERPOLATION_END)
        else Return false s1 (advance lx)
      else Return false s lx
    else Return false s lx.

Definition scan_body (valid : valid_symbols) : stage :=
  skip_whitespace ;; handle_comment valid ;; handle_string_entry valid ;;
  inside_string valid ;; inside_indented_string valid ;;
  interpolation_end valid.

Definition tree_sitter_nix_external_scanner_scan (s : Scanner) (lx : TSLexer)
    (valid : valid_symbols) : bool * Scanner * TSLexer :=
  match scan_body valid s lx with
  | Return r s' lx' => (r, s', lx')
  | Continue s' lx' => (false, s', lx')
  end.

Abbreviation scan := tree_sitter_nix_external_scanner_scan.

(** ** Serialization

    A [char] is one byte.  Whether plain [char] is signed is left to the
    implementation by C, so the conversions take it as a parameter: storing
    an [int] keeps its low eight bits, and reading a byte back widens it
    with or without its sign. *)

Definition byte_of_int (x : Z) : byte :=
  match Byte.of_N (Z.to_N (x mod 256)) with
  | Some b => b
  | None => x00
  end.

Definition int_of_byte (char_signed : bool) (b : byte) : Z :=
  let n := Z.of_N (Byte.to_N b) in
  if char_signed && (128 <=? n) then n - 256 else n.

Definition byte_of_bool (b : bool) : byte := if b then x01 else x00.

Definition bool_of_byte (b : byte) : bool :=
  negb (Z.of_N (Byte.to_N b) =? 0).

(** Writes the five bytes and returns their number, 5: the length of the
    list. *)
Definition tree_sitter_nix_external_scanner_serialize (s : Scanner)
    : list byte :=
  [ byte_of_bool (in_string s);
    byte_of_bool (in_indented_string s);
    byte_of_int (interpolation_depth s);
    byte_of_int (paren_depth s);
    byte_of_int (brace_depth s) ].

(** [buffer] holds [length] bytes; a byte that is not there reads as 0 and
    is never read. *)
Definition tree_sitter_nix_external_scanner_deserialize (char_signed : bool)
    (s : Scanner) (buffer : list byte) : Scanner :=
  if (5 <=? length buffer)%nat then
    mkScanner (bool_of_byte (nth 0 buffer x00))
              (bool_of_byte (nth 1 buffer x00))
              (int_of_byte char_signed (nth 2 buffer x00))
              (int_of_byte char_signed (nth 3 buffer x00))
              (int_of_byte char_signed (nth 4 buffer x00))
  else s.

Abbreviation serialize := tree_sitter_nix_external_scanner_serialize.
Abbreviation deserialize := tree_sitter_nix_external_scanner_deserialize.

(** ** What one call may do to the state

    [effect valid s r s' k]: a call entered in state [s] with the admissible
    kinds [valid] may return [r], leave the state [s'] and, when [r] is
    true, hand back the kind [k].  One constructor per [return] of the C
    function. *)

Inductive effect (valid : valid_symbols) (s : Scanner)
    : bool -> Scanner -> TokenType -> Prop :=
| eff_comment :
    valid COMMENT = true ->
    effect valid s true s COMMENT
| eff_string_start :
    in_string s = false -> in_indented_string s = false ->
    valid STRING_START = true ->
    effect valid s true (set_in_string s true) STRING_START
| eff_indented_string_start :
    in_string s = false -> in_indented_string s = false ->
    valid INDENTED_STRING_START = true ->
    effect valid s true (set_in_indented_string s true) INDENTED_STRING_START
| eff_string_end :
    in_string s = true ->
    valid STRING_END = true ->
    effect valid s true (set_in_string s false) STRING_END
| eff_interpolation_start :
    in_string s = true \/ in_indented_string s = true ->
    valid INTERPOLATION_START = true ->
    effect valid s true
           (set_brace_depth
              (set_interpolation_depth s
                 (int_wrap (interpolation_depth s + 1))) 1)
           INTERPOLATION_START
| eff_escape_sequence :
    in_string s = true ->
    valid ESCAPE_SEQUENCE = true ->
    effect valid s true s ESCAPE_SEQUENCE
| eff_string_content :
    in_string s = true ->
    valid STRING_CONTENT = true ->
    effect valid s true s STRING_CONTENT
| eff_indented_string_end :
    in_indented_string s = true ->
    valid INDENTED_STRING_END = true ->
    effect valid s true (set_in_indented_string s false) INDENTED_STRING_END
| eff_indented_string_content :
    in_indented_string s = true ->
    valid INDENTED_STRING_CONTENT = true ->
    effect valid s true s INDENTED_STRING_CONTENT
| eff_interpolation_end :
    0 < interpolation_depth s ->
    valid INTERPOLATION_END = true ->
    int_wrap (brace_depth s - 1) = 0 ->
    effect valid s true
           (set_interpolation_depth
              (set_brace_depth s (int_wrap (brace_depth s - 1)))
              (int_wrap (interpolation_depth s - 1)))
           INTERPOLATION_END
| eff_brace_open : forall k,
    0 < interpolation_depth s ->
    valid INTERPOLATION_END = true ->
    effect valid s false (set_brace_depth s (int_wrap (brace_depth s + 1))) k
| eff_brace_close : forall k,
    0 < interpolation_depth s ->
    valid INTERPOLATION_END = true ->
    int_wrap (brace_depth s - 1) <> 0 ->
    effect valid s false (set_brace_depth s (int_wrap (brace_depth s - 1))) k
| eff_none : forall k,
    effect valid s false s k.

(** A statement is sound for [effect] when each of its returns is one of
    the effects and falling through leaves the state as it was. *)
Definition stage_sound (valid : valid_symbols) (st : stage) : Prop :=
  forall s lx,
    match st s lx with
    | Return r s' lx' => effect valid s r s' (result_symbol lx')
    | Continue s' _ => s' = s
    end.

(** ** Reachable states and the state invariant *)

Inductive reachable : Scanner -> Prop :=
| reachable_create : reachable tree_sitter_nix_external_scanner_create
| reachable_scan : forall s lx valid r s' lx',
    reachable s ->
    scan s lx valid = (r, s', lx') ->
    reachable s'.

(** No increment and no decrement that a call entered in state [s] may
    perform overflows. *)
Definition counters_in_bounds (s : Scanner) : Prop :=
  interpolation_depth s < INT_MAX /\
  INT_MIN < brace_depth s < INT_MAX.

(** The states reached by runs in which no counter overflows. *)
Inductive reachable_in_bounds : Scanner -> Prop :=
| in_bounds_create : reachable_in_bounds tree_sitter_nix_external_scanner_create
| in_bounds_scan : forall s lx valid r s' lx',
    reachable_in_bounds s ->
    counters_in_bounds s ->
    scan s lx valid = (r, s', lx') ->
    reachable_in_bounds s'.

Definition modes_exclusive (s : Scanner) : Prop :=
  ~ (in_string s = true /\ in_indented_string s = true).

(** The invariant as the data model words it. *)
Definition state_invariant (s : Scanner) : Prop :=
  modes_exclusive s /\ 0 <= interpolation_depth s /\ 0 <= brace_depth s.

(** The state after a run of scan calls, one lexer and one admissible set
    per call. *)
Fixpoint scan_run (s : Scanner) (calls : list (TSLexer * valid_symbols))
    : Scanner :=
  match calls with
  | [] => s
  | (lx, valid) :: calls' =>
      let '(_, s', _) := scan s lx valid in scan_run s' calls'
  end.

(** The calls a parser makes on a plain string that opens an interpolation
    inside an interpolation and closes both.  The inner opening resets
    [brace_depth] to 1; closing the inner one leaves the outer one open
    with [brace_depth] 0, and the next closing brace takes it to -1. *)
Definition nested_interpolation_calls : list (TSLexer * valid_symbols) :=
  let inp := [34] ++ chars "${${}}" in
  [ (lexer_start inp 0, only [STRING_START]);
    (lexer_start inp 1, only [INTERPOLATION_START]);
    (lexer_start inp 3, only [INTERPOLATION_START]);
    (lexer_start inp 5, only [INTERPOLATION_END]);
    (lexer_start inp 6, only [INTERPOLATION_END]) ].

(** Repeated calls, as the parser makes them: each call starts where the
    token of the call before ended, and the run stops at the first call
    that produces no token (or after [fuel] tokens).  The tokens are handed
    back as kind and text, with the state and the offset reached. *)
Fixpoint scan_tokens (fuel : nat) (s : Scanner) (inp : list Z) (pos : nat)
    (valid : valid_symbols) : list (TokenType * list Z) * Scanner * nat :=
  match fuel with
  | O => ([], s, pos)
  | S fuel' =>
      let '(produced, s', lx') := scan s (lexer_start inp pos) valid in
      if produced then
        let '(tokens, s'', pos') :=
          scan_tokens fuel' s' inp (token_end_position lx') valid in
        ((result_symbol lx', token_text lx') :: tokens, s'', pos')
      else ([], s, pos)
  end.

(** The content rules that come before the brace tracking do not apply:
    in neither mode is the mode's content kind admissible. *)
Definition content_rules_silent (s : Scanner) (valid : valid_symbols)
    : Prop :=
  (in_string s = true -> valid STRING_CONTENT = false) /\
  (in_indented_string s = true -> valid INDENTED_STRING_CONTENT = false).

(** The statement [st] never hands back the kind [k]. *)
Definition never_returns (k : TokenType) (st : stage) : Prop :=
  forall s lx s' lx',
    st s lx = Return true s' lx' -> result_symbol lx' <> k.

(** ** The content of a plain string, on lists of characters *)

Definition nonempty (l : list Z) : bool :=
  match l with
  | [] => false
  | _ :: _ => true
  end.

(** The characters [scan_string_content] puts into the token when the
    unread input is [cs]: everything up to the end of the input (which a
    NUL character stands for as well), a double quote, a backslash or a
    dollar sign with an opening brace after it. *)
Fixpoint content_run (cs : list Z) : list Z :=
  match cs with
  | [] => []
  | c :: cs' =>
      if (c =? 0) || (c =? 34) || (c =? 92) then []
      else if (c =? 36) && (hd 0 cs' =? 123) then []
      else c :: content_run cs'
  end.

(** The unread input starts with something that ends string content. *)
Definition at_content_stop (cs : list Z) : bool :=
  match cs with
  | [] => true
  | c :: cs' =>
      (c =? 0) || (c =? 34) || (c =? 92) || ((c =? 36) && (hd 0 cs' =? 123))
  end.

(** Somewhere in [l] a dollar sign is followed by an opening brace. *)
Fixpoint has_interp_open (l : list Z) : bool :=
  match l with
  | [] => false
  | c :: l' => ((c =? 36) && (hd 0 l' =? 123)) || has_interp_open l'
  end.

(** [lx1] is [lx] after the characters [pre] were consumed with [advance]
    and nothing else was done to it. *)
Definition consumed (lx lx1 : TSLexer) (pre : list Z) : Prop :=
  input lx1 = input lx /\
  token_start lx1 = token_start lx /\
  token_end lx1 = token_end lx /\
  result_symbol lx1 = result_symbol lx /\
  position lx1 = (position lx + length pre)%nat /\
  skipn (position lx) (input lx) = pre ++ skipn (position lx1) (input lx).

(** A failed escape attempt has consumed the backslash and, after it, at
    most the letter x and one hexadecimal digit. *)
Definition failed_escape (pre : list Z) : Prop :=
  pre = [92] \/ pre = [92; 120] \/
  exists h, is_hex_digit h = true /\ pre = [92; 120; h].

(** What the rules in front of the content rule of the plain-string block
    leave in the token: nothing, or some of a slash (the comment rule), a
    dollar sign (the interpolation rule) and a failed escape attempt. *)
Definition lookahead_prefix (valid : valid_symbols) (pre : list Z)
    (next : Z) : Prop :=
  ~ In 34 pre /\
  ~ In 123 pre /\
  (last pre 0 = 36 -> next <> 123) /\
  (count_occ Z.eq_dec pre 92%Z <= 1)%nat /\
  (valid ESCAPE_SEQUENCE = false -> ~ In 92 pre).

(** The recognised forms, as lists of characters. *)
Definition escape_form (esc : list Z) : Prop :=
  (exists c, is_simple_escape c = true /\ esc = [92; c]) \/
  (exists h1 h2,
      is_hex_digit h1 = true /\ is_hex_digit h2 = true /\
      esc = [92; 120; h1; h2]).

(** ** The content of an indented string, on lists of characters *)

(** How far [scan_indented_string_content] has marked the token when the
    unread input is [cs] and [quote_count] quotes were just read: the loop
    marks after every character it takes, the first quote of a pair
    included, and stops without marking at the second quote of a pair, at a
    dollar sign followed by an opening brace and at the end of the input
    (or a NUL). *)
Fixpoint indented_marked (quote_count : Z) (cs : list Z) : nat :=
  match cs with
  | [] => 0
  | c :: cs' =>
      if c =? 0 then 0
      else if c =? 39 then
        if quote_count + 1 =? 2 then 0
        else S (indented_marked (quote_count + 1) cs')
      else if (c =? 36) && (hd 0 cs' =? 123) then 0
      else S (indented_marked 0 cs')
  end.

(** Somewhere in [l] a quote is followed by a quote. *)
Fixpoint has_double_quote (l : list Z) : bool :=
  match l with
  | [] => false
  | c :: l' => ((c =? 39) && (hd 0 l' =? 39)) || has_double_quote l'
  end.

(** A body as C1 takes it: no NUL (the lexer reads one as the end of the
    input), no two quotes in a row, no dollar sign followed by an opening
    brace. *)
Definition body_ok (body : list Z) : Prop :=
  ~ In 0 body /\ has_double_quote body = false /\
  has_interp_open body = false.

(** The body's last character, if any, or else the character before it,
    is a quote: the closing pair then follows a quote. *)
Definition closes (quote_count : Z) (body : list Z) : bool :=
  match body with
  | [] => quote_count =? 1
  | _ :: _ => last body 0 =? 39
  end.

(** ** Vocabulary for the remaining rules *)

(** The number of whitespace characters at the front of [cs]. *)
Fixpoint count_whitespace (cs : list Z) : nat :=
  match cs with
  | [] => 0
  | c :: cs' => if is_whitespace c then S (count_whitespace cs') else 0
  end.

(** The range of values a [char] of the given signedness holds. *)
Definition char_range (char_signed : bool) (x : Z) : Prop :=
  if char_signed then -128 <= x < 128 else 0 <= x < 256.

(** The number of characters in front of the first newline (or NUL, or
    the end) of [cs]. *)
Fixpoint line_length (cs : list Z) : nat :=
  match cs with
  | [] => 0
  | c :: cs' => if (c =? 0) || (c =? 10) then 0 else S (line_length cs')
  end.

(** The inside of a block comment that is closed: characters other than
    NUL, a slash that opens nothing, a star that closes nothing (one in
    front of another character, or the last character of the inside), and
    whole block comments. *)
Inductive comment_body : list Z -> Prop :=
| comment_body_nil : comment_body []
| comment_body_char : forall c body,
    c <> 0 -> c <> 47 -> c <> 42 ->
    comment_body body -> comment_body (c :: body)
| comment_body_slash : forall c body,
    c <> 42 ->
    comment_body (c :: body) -> comment_body (47 :: c :: body)
| comment_body_star : forall c body,
    c <> 47 ->
    comment_body (c :: body) -> comment_body (42 :: c :: body)
| comment_body_last_star : comment_body [42]
| comment_body_nested : forall inner body,
    comment_body inner -> comment_body body ->
    comment_body ([47; 42] ++ inner ++ [42; 47] ++ body).

(** The characters between the quotes of a plain string that holds no
    escape and no interpolation: no NUL, no double quote, no backslash,
    and no dollar sign in front of an opening brace. *)
Definition plain_body (body : list Z) : bool :=
  forallb (fun c => negb ((c =? 0) || (c =? 34) || (c =? 92))) body &&
  negb (has_interp_open body).

(** [lx1] is [lx] after some calls of [advance]: the position has not gone
    back and has not passed the end of the input, the rest is as it was. *)
Definition moved (lx lx1 : TSLexer) : Prop :=
  input lx1 = input lx /\
  token_start lx1 = token_start lx /\
  token_end lx1 = token_end lx /\
  (position lx <= position lx1)%nat /\
  (position lx1 <= Nat.max (position lx) (length (input lx)))%nat.

(** The lookahead is one of the characters a content rule gives up at. *)
Definition stale (lx : TSLexer) : Prop :=
  lookahead lx = 0 \/ lookahead lx = 34 \/ lookahead lx = 92 \/
  lookahead lx = 123.

(** The lexer during a call on [inp] that started at offset [pos], before
    any rule has marked the end of the token. *)
Definition fresh_inv (inp : list Z) (pos : nat) (lx : TSLexer) : Prop :=
  input lx = inp /\
  (pos <= token_start lx)%nat /\
  (token_start lx <= position lx)%nat /\
  token_end lx = None.

(** The same, after a content rule may have marked an end and given up. *)
Definition call_inv (inp : list Z) (pos : nat) (lx : TSLexer) : Prop :=
  input lx = inp /\
  (pos <= token_start lx)%nat /\
  (token_start lx <= position lx)%nat /\
  (token_end lx = None \/ stale lx).

(** The token a call hands back lies in the input, at or after the offset
    the call started at, and is not empty. *)
Definition token_good (inp : list Z) (pos : nat) (lx : TSLexer) : Prop :=
  input lx = inp /\
  (pos <= token_start lx)%nat /\
  (token_start lx < token_end_position lx)%nat /\
  (token_end_position lx <= length inp)%nat.

(** A statement of [scan] that, entered with [P], hands back good tokens
    only and falls through with [Q]. *)
Definition stage_keeps (inp : list Z) (pos : nat)
    (P Q : TSLexer -> Prop) (st : stage) : Prop :=
  forall (s : Scanner) (lx : TSLexer),
    P lx ->
    match st s lx with
    | Return true _ lx' => token_good inp pos lx'
    | Return false _ _ => True
    | Continue _ lx' => Q lx'
    end.

(** For every call of [scan_run], whether it produced a token. *)
Fixpoint scan_run_produced (s : Scanner)
    (calls : list (TSLexer * valid_symbols)) : list bool :=
  match calls with
  | [] => []
  | (lx, valid) :: calls' =>
      let '(r, s', _) := scan s lx valid in
      r :: scan_run_produced s' calls'
  end.

(** A call inside an interpolation that sees the character [c], with the
    interpolation-end kind admissible and the content kind of the string
    around the interpolation not admissible. *)
Definition brace_call (s : Scanner) (c : Z)
    (call : TSLexer * valid_symbols) : Prop :=
  lookahead (fst call) = c /\
  snd call INTERPOLATION_END = true /\
  content_rules_silent s (snd call).

(** * Properties *)

(** ** The arithmetic of [int] *)

Lemma int_wrap_id (x : Z) : int_range x -> int_wrap x = x.
Proof.
  unfold int_range, INT_MIN, INT_MAX, int_wrap. intros H.
  rewrite Z.mod_small; lia.
Qed.

Lemma int_wrap_range (x : Z) : int_range (int_wrap x).
Proof.
  unfold int_range, INT_MIN, INT_MAX, int_wrap.
  pose proof (Z.mod_pos_bound (x + 2147483648) 4294967296). lia.
Qed.

Lemma int_wrap_succ (x : Z) : int_wrap (int_wrap x + 1) = int_wrap (x + 1).
Proof.
  unfold int_wrap.
  replace ((x + 2147483648) mod 4294967296 - 2147483648 + 1 + 2147483648)
    with ((x + 2147483648) mod 4294967296 + 1) by lia.
  rewrite Z.add_mod_idemp_l by lia.
  f_equal. f_equal. lia.
Qed.

Ltac int_bounds := unfold int_range, INT_MIN, INT_MAX in *; lia.


(** ** The transition relation covers the scan function *)

Lemma seq_sound (valid : valid_symbols) (a b : stage) :
  stage_sound valid a -> stage_sound valid b -> stage_sound valid (a ;; b).
Proof.
  intros Ha Hb s lx. unfold seq.
  specialize (Ha s lx). destruct (a s lx) as [r s1 lx1 | s1 lx1].
  - exact Ha.
  - subst s1. apply Hb.
Qed.

Ltac stage_cases :=
  repeat match goal with
         | |- context [if ?c then _ else _] => destruct c eqn:?
         | |- context [let '(_, _) := ?p in _] => destruct p eqn:?
         end.

Ltac split_andb :=
  repeat match goal with
         | H : _ && _ = true |- _ => apply andb_prop in H; destruct H
         | H : negb _ = true |- _ => apply negb_true_iff in H
         end.

Lemma skip_whitespace_sound valid : stage_sound valid skip_whitespace.
Proof. intros s lx. unfold skip_whitespace. stage_cases; reflexivity. Qed.

Lemma handle_comment_sound valid : stage_sound valid (handle_comment valid).
Proof.
  intros s lx. unfold handle_comment. stage_cases; try reflexivity.
  now apply eff_comment.
Qed.

Lemma handle_string_entry_sound valid :
  stage_sound valid (handle_string_entry valid).
Proof.
  intros s lx. unfold handle_string_entry, seq, string_start,
    indented_string_start.
  stage_cases; try reflexivity; split_andb; simpl.
  - now apply eff_string_start.
  - now apply eff_indented_string_start.
Qed.

Lemma interpolation_start_sound valid :
  forall s lx,
    in_string s = true \/ in_indented_string s = true ->
    match interpolation_start valid s lx with
    | Return r s' lx' => effect valid s r s' (result_symbol lx')
    | Continue s' _ => s' = s
    end.
Proof.
  intros s lx Hmode. unfold interpolation_start.
  stage_cases; try reflexivity; split_andb; simpl.
  now apply eff_interpolation_start.
Qed.

Lemma inside_string_sound valid : stage_sound valid (inside_string valid).
Proof.
  intros s lx. unfold inside_string.
  destruct (in_string s) eqn:Hin; [| reflexivity].
  unfold seq, string_end.
  destruct (valid STRING_END && (lookahead lx =? 34)) eqn:Hend.
  { split_andb. simpl. now apply eff_string_end. }
  pose proof (interpolation_start_sound valid s lx (or_introl Hin)) as Hi.
  destruct (interpolation_start valid s lx) as [r s1 lx1 | s1 lx1];
    [exact Hi | subst s1].
  unfold escape_sequence, string_content.
  stage_cases; try reflexivity; simpl;
    (now apply eff_escape_sequence) || (now apply eff_string_content).
Qed.

Lemma inside_indented_string_sound valid :
  stage_sound valid (inside_indented_string valid).
Proof.
  intros s lx. unfold inside_indented_string.
  destruct (in_indented_string s) eqn:Hin; [| reflexivity].
  unfold seq, indented_string_end.
  destruct (valid INDENTED_STRING_END && (lookahead lx =? 39)) eqn:Hend.
  - split_andb.
    destruct (lookahead (advance lx) =? 39) eqn:Hq.
    { simpl. now apply eff_indented_string_end. }
    pose proof (interpolation_start_sound valid s (advance lx)
                  (or_intror Hin)) as Hi.
    destruct (interpolation_start valid s (advance lx))
      as [r s1 lx1 | s1 lx1]; [exact Hi | subst s1].
    unfold indented_string_content.
    stage_cases; try reflexivity; simpl.
    now apply eff_indented_string_content.
  - pose proof (interpolation_start_sound valid s lx (or_intror Hin)) as Hi.
    destruct (interpolation_start valid s lx) as [r s1 lx1 | s1 lx1];
      [exact Hi | subst s1].
    unfold indented_string_content.
    stage_cases; try reflexivity; simpl.
    now apply eff_indented_string_content.
Qed.

Lemma interpolation_end_sound valid :
  stage_sound valid (interpolation_end valid).
Proof.
  intros s lx. unfold interpolation_end.
  stage_cases; split_andb; simpl in *;
    try match goal with H : (0 <? _) = true |- _ => apply Z.ltb_lt in H end;
    try match goal with H : (_ =? 0) = true |- _ => apply Z.eqb_eq in H end;
    try match goal with H : (_ =? 0) = false |- _ => apply Z.eqb_neq in H end.
  - now apply eff_brace_open.
  - now apply eff_interpolation_end.
  - now apply eff_brace_close.
  - apply eff_none.
  - apply eff_none.
Qed.

Lemma scan_body_sound valid : stage_sound valid (scan_body valid).
Proof.
  unfold scan_body.
  repeat apply seq_sound;
    auto using skip_whitespace_sound, handle_comment_sound,
      handle_string_entry_sound, inside_string_sound,
      inside_indented_string_sound, interpolation_end_sound.
Qed.

Lemma scan_effect (s : Scanner) (lx : TSLexer) (valid : valid_symbols)
    (r : bool) (s' : Scanner) (lx' : TSLexer) :
  scan s lx valid = (r, s', lx') ->
  effect valid s r s' (result_symbol lx').
Proof.
  unfold tree_sitter_nix_external_scanner_scan. intros H.
  pose proof (scan_body_sound valid s lx) as Hs.
  destruct (scan_body valid s lx) as [r1 s1 lx1 | s1 lx1];
    inversion H; subst.
  - exact Hs.
  - apply eff_none.
Qed.

(** ** Facts about the character source *)

Lemma lookahead_in_range (lx : TSLexer) :
  lookahead lx <> 0 -> (position lx < length (input lx))%nat.
Proof.
  unfold lookahead. intros H.
  destruct (Nat.lt_ge_cases (position lx) (length (input lx))) as [Hlt | Hge];
    [exact Hlt |].
  exfalso. apply H. now apply nth_overflow.
Qed.

Lemma advance_position (lx : TSLexer) :
  lookahead lx <> 0 -> position (advance lx) = S (position lx).
Proof.
  intros H. apply lookahead_in_range in H.
  unfold advance, lexer_advance.
  apply Nat.ltb_lt in H. now rewrite H.
Qed.

Lemma advance_input (lx : TSLexer) : input (advance lx) = input lx.
Proof. unfold advance, lexer_advance. now destruct (_ <? _)%nat. Qed.

Lemma advance_token_start (lx : TSLexer) :
  token_start (advance lx) = token_start lx.
Proof. unfold advance, lexer_advance. now destruct (_ <? _)%nat. Qed.

Lemma advance_token_end (lx : TSLexer) :
  token_end (advance lx) = token_end lx.
Proof. unfold advance, lexer_advance. now destruct (_ <? _)%nat. Qed.

Lemma advance_result_symbol (lx : TSLexer) :
  result_symbol (advance lx) = result_symbol lx.
Proof. unfold advance, lexer_advance. now destruct (_ <? _)%nat. Qed.

Lemma skip_whitespace_loop_stop (fuel : nat) (lx : TSLexer) :
  is_whitespace (lookahead lx) = false -> skip_whitespace_loop fuel lx = lx.
Proof. intros H. destruct fuel; simpl; [reflexivity | now rewrite H]. Qed.

Lemma scan_comment_none (lx : TSLexer) :
  lookahead lx <> 35 -> lookahead lx <> 47 -> scan_comment lx = (false, lx).
Proof.
  intros H1 H2. unfold scan_comment.
  apply Z.eqb_neq in H1, H2. now rewrite H1, H2.
Qed.

Lemma scan_escape_sequence_none (lx : TSLexer) :
  lookahead lx <> 92 -> scan_escape_sequence lx = (false, lx).
Proof.
  intros H. unfold scan_escape_sequence.
  apply Z.eqb_neq in H. now rewrite H.
Qed.

(** ** C9 and C10: what a call hands back *)

(** C9.  Whatever the state, the input and the admissible kinds, the kind
    of a produced token is one of the admissible kinds of that call. *)
Theorem emitted_kind_is_admissible (s : Scanner) (lx : TSLexer)
    (valid : valid_symbols) (s' : Scanner) (lx' : TSLexer) :
  scan s lx valid = (true, s', lx') ->
  valid (result_symbol lx') = true.
Proof.
  intros H. apply scan_effect in H.
  inversion H; subst; assumption.
Qed.

Lemma emitted_kind_is_admissible_witness :
  only [INDENTED_STRING_START; STRING_CONTENT]
       (result_symbol
          (mkLexer (chars "''a''") 2 0 None INDENTED_STRING_START)) = true.
Proof.
  apply (emitted_kind_is_admissible
           tree_sitter_nix_external_scanner_create
           (lexer_start (chars "''a''") 0)
           (only [INDENTED_STRING_START; STRING_CONTENT])
           (mkScanner false true 0 0 0)).
  reflexivity.
Defined.

(** C10.  A call that produces no token leaves both mode flags as they
    were on entry; only the brace counter may have moved. *)
Theorem failed_scan_keeps_mode_flags (s : Scanner) (lx : TSLexer)
    (valid : valid_symbols) (s' : Scanner) (lx' : TSLexer) :
  scan s lx valid = (false, s', lx') ->
  in_string s' = in_string s /\
  in_indented_string s' = in_indented_string s.
Proof.
  intros H. apply scan_effect in H.
  inversion H; subst; simpl; split; reflexivity.
Qed.

Lemma failed_scan_keeps_mode_flags_witness :
  in_string (mkScanner true false 2 0 3) = true /\
  in_indented_string (mkScanner true false 2 0 3) = false.
Proof.
  apply (failed_scan_keeps_mode_flags
           (mkScanner true false 2 0 2)
           (lexer_start (chars "{ a = 1; }") 0)
           (only [INTERPOLATION_END])
           (mkScanner true false 2 0 3)
           (mkLexer (chars "{ a = 1; }") 1 0 None STRING_START)).
  reflexivity.
Defined.

(** ** C4: the state invariant *)

Lemma reachable_scan_run (calls : list (TSLexer * valid_symbols)) :
  forall s, reachable s -> reachable (scan_run s calls).
Proof.
  induction calls as [| [lx valid] calls IH]; intros s Hs; simpl.
  - exact Hs.
  - destruct (scan s lx valid) as [[r s'] lx'] eqn:Hscan.
    apply IH. eapply reachable_scan; eauto.
Qed.

(** C4, as stated, fails: a reachable state has [brace_depth] -1. *)
Lemma state_invariant_counterexample :
  reachable (scan_run tree_sitter_nix_external_scanner_create
               nested_interpolation_calls) /\
  brace_depth (scan_run tree_sitter_nix_external_scanner_create
                 nested_interpolation_calls) = -1 /\
  ~ state_invariant (scan_run tree_sitter_nix_external_scanner_create
                       nested_interpolation_calls).
Proof.
  split; [apply reachable_scan_run, reachable_create |].
  split; [reflexivity |].
  intros (_ & _ & Hb). vm_compute in Hb. now apply Hb.
Qed.

(** ** C2 and C8: the serialized form *)

(** C2, as stated, fails: a buffer shorter than five bytes is not read,
    and a state that was not zero is not zeroed either. *)
Lemma deserialize_short_counterexample :
  (length (@nil byte) < 5)%nat /\
  deserialize true (mkScanner true false 1 0 1) [] <>
  tree_sitter_nix_external_scanner_create.
Proof. split; [simpl; lia | discriminate]. Qed.

(** C2, amended.  Given fewer than five bytes, deserialize leaves every
    field as it was before the call; a state that was zero stays zero. *)
Theorem deserialize_short_keeps_state (char_signed : bool) (s : Scanner)
    (buffer : list byte) :
  (length buffer < 5)%nat ->
  deserialize char_signed s buffer = s /\
  deserialize char_signed tree_sitter_nix_external_scanner_create buffer =
  tree_sitter_nix_external_scanner_create.
Proof.
  intros H. unfold tree_sitter_nix_external_scanner_deserialize.
  apply Nat.leb_gt in H. now rewrite H.
Qed.

Lemma deserialize_short_keeps_state_witness :
  deserialize false (mkScanner false true 2 0 1) [x01; x00; x07] =
  mkScanner false true 2 0 1 /\
  deserialize false tree_sitter_nix_external_scanner_create [x01; x00; x07] =
  tree_sitter_nix_external_scanner_create.
Proof.
  apply (deserialize_short_keeps_state false (mkScanner false true 2 0 1)
           [x01; x00; x07]).
  simpl. lia.
Defined.

Lemma byte_of_int_of_byte (char_signed : bool) (b : byte) :
  byte_of_int (int_of_byte char_signed b) = b.
Proof. destruct char_signed, b; reflexivity. Qed.

Lemma byte_of_bool_of_byte (b : byte) :
  b = x00 \/ b = x01 -> byte_of_bool (bool_of_byte b) = b.
Proof. intros [-> | ->]; reflexivity. Qed.

(** C8.  Deserializing a five-byte buffer whose two flag bytes are 0 or 1
    and serializing the result gives the same five bytes back, in the order
    in_string, in_indented_string, interpolation_depth, paren_depth,
    brace_depth; the counter bytes may hold any value. *)
Theorem serialize_deserialize_roundtrip (char_signed : bool) (s : Scanner)
    (buffer : list byte) :
  length buffer = 5%nat ->
  (nth 0 buffer x00 = x00 \/ nth 0 buffer x00 = x01) ->
  (nth 1 buffer x00 = x00 \/ nth 1 buffer x00 = x01) ->
  let s' := deserialize char_signed s buffer in
  serialize s' = buffer /\
  serialize s' =
  [ byte_of_bool (in_string s'); byte_of_bool (in_indented_string s');
    byte_of_int (interpolation_depth s'); byte_of_int (paren_depth s');
    byte_of_int (brace_depth s') ].
Proof.
  intros Hlen H0 H1.
  destruct buffer as [| b0 [| b1 [| b2 [| b3 [| b4 [| b5 rest]]]]]];
    try discriminate.
  simpl in H0, H1. split; [| reflexivity].
  unfold tree_sitter_nix_external_scanner_serialize,
    tree_sitter_nix_external_scanner_deserialize.
  simpl.
  now rewrite !byte_of_int_of_byte, !byte_of_bool_of_byte.
Qed.

Lemma serialize_deserialize_roundtrip_witness :
  serialize (deserialize true tree_sitter_nix_external_scanner_create
               [x01; x00; x02; x00; xc8]) =
  [x01; x00; x02; x00; xc8].
Proof.
  apply (serialize_deserialize_roundtrip true
           tree_sitter_nix_external_scanner_create
           [x01; x00; x02; x00; xc8]).
  - reflexivity.
  - right; reflexivity.
  - left; reflexivity.
Defined.

(** ** C3 and C7: interpolation boundaries *)

(** C7, as stated, fails: outside a string the two characters are not
    looked at, whatever the admissible kinds. *)
Lemma interpolation_start_counterexample :
  lookahead (lexer_start (chars "${") 0) = 36 /\
  lookahead (advance (lexer_start (chars "${") 0)) = 123 /\
  all_valid INTERPOLATION_START = true /\
  scan tree_sitter_nix_external_scanner_create (lexer_start (chars "${") 0)
       all_valid =
  (false, tree_sitter_nix_external_scanner_create,
   lexer_start (chars "${") 0).
Proof. repeat split. Qed.

(** What the call does at the dollar sign and the brace, with the
    wrap-around of the counter written out. *)
Lemma scan_at_interpolation_open (s : Scanner) (lx : TSLexer)
    (valid : valid_symbols) :
  in_string s = true \/ in_indented_string s = true ->
  valid INTERPOLATION_START = true ->
  lookahead lx = 36 ->
  lookahead (advance lx) = 123 ->
  scan s lx valid =
  (true,
   set_brace_depth
     (set_interpolation_depth s (int_wrap (interpolation_depth s + 1))) 1,
   set_result_symbol (advance (advance lx)) INTERPOLATION_START).
Proof.
  intros Hmode Hvalid H1 H2.
  unfold tree_sitter_nix_external_scanner_scan, scan_body,
    skip_whitespace, handle_comment, handle_string_entry, inside_string,
    inside_indented_string, string_end, indented_string_end,
    interpolation_start, seq.
  assert (Hc : scan_comment lx = (false, lx))
    by (apply scan_comment_none; lia).
  destruct (in_string s) eqn:His, (in_indented_string s) eqn:Hii;
    try (destruct Hmode; discriminate);
    destruct (valid COMMENT) eqn:Hvc;
    repeat (progress (cbn [andb negb Z.eqb Pos.eqb];
                      rewrite ?His, ?Hii, ?Hvc, ?Hc, ?Hvalid, ?H1, ?H2,
                        ?andb_false_r));
    reflexivity.
Qed.

(** C7, amended.  Inside a plain or an indented string, when the next
    unread characters are the dollar sign and the opening brace and the
    interpolation-start kind is admissible, the call consumes exactly these
    two characters, adds 1 to [interpolation_depth], sets [brace_depth] to
    1, leaves the other fields alone and produces interpolation-start.
    [interpolation_depth] is an [int] below [INT_MAX]: at [INT_MAX] the
    increment overflows. *)
Theorem interpolation_start_in_string (s : Scanner) (lx : TSLexer)
    (valid : valid_symbols) :
  in_string s = true \/ in_indented_string s = true ->
  int_range (interpolation_depth s) ->
  interpolation_depth s < INT_MAX ->
  valid INTERPOLATION_START = true ->
  lookahead lx = 36 ->
  lookahead (advance lx) = 123 ->
  exists lx',
    scan s lx valid =
    (true,
     mkScanner (in_string s) (in_indented_string s)
               (interpolation_depth s + 1) (paren_depth s) 1,
     lx') /\
    result_symbol lx' = INTERPOLATION_START /\
    position lx' = (position lx + 2)%nat /\
    token_start lx' = token_start lx /\
    token_end lx' = token_end lx.
Proof.
  intros Hmode Hrange Hmax Hvalid H1 H2.
  assert (Hp1 : position (advance lx) = S (position lx))
    by (apply advance_position; lia).
  assert (Hp2 : position (advance (advance lx)) = S (S (position lx)))
    by (rewrite advance_position, Hp1; [reflexivity | lia]).
  exists (set_result_symbol (advance (advance lx)) INTERPOLATION_START).
  split.
  - rewrite (scan_at_interpolation_open s lx valid Hmode Hvalid H1 H2).
    unfold set_brace_depth, set_interpolation_depth.
    cbn [in_string in_indented_string interpolation_depth paren_depth].
    rewrite int_wrap_id by int_bounds. reflexivity.
  - simpl. rewrite !advance_token_start, !advance_token_end, Hp2.
    repeat split. lia.
Qed.

Lemma interpolation_start_in_string_witness :
  exists lx',
    scan (mkScanner false true 0 0 0) (lexer_start (chars "''a${b}''") 3)
         all_valid =
    (true, mkScanner false true 1 0 1, lx') /\
    result_symbol lx' = INTERPOLATION_START /\
    position lx' = 5%nat /\
    token_start lx' = 3%nat /\
    token_end lx' = None.
Proof.
  apply (interpolation_start_in_string (mkScanner false true 0 0 0)
           (lexer_start (chars "''a${b}''") 3) all_valid).
  - right; reflexivity.
  - unfold int_range, INT_MIN, INT_MAX; simpl; lia.
  - unfold INT_MAX; simpl; lia.
  - reflexivity.
  - reflexivity.
  - reflexivity.
Defined.

(** C3, as stated, fails: the state keeps [in_string] set while an
    interpolation is open, and with string-content admissible the content
    rule, which comes first, takes the brace as content. *)
Lemma brace_tracking_counterexample :
  0 < interpolation_depth (mkScanner true false 1 0 1) /\
  only [STRING_CONTENT; INTERPOLATION_END] INTERPOLATION_END = true /\
  lookahead (lexer_start (chars "{") 0) = 123 /\
  scan (mkScanner true false 1 0 1) (lexer_start (chars "{") 0)
       (only [STRING_CONTENT; INTERPOLATION_END]) =
  (true, mkScanner true false 1 0 1,
   mkLexer (chars "{") 1 0 (Some 1%nat) STRING_CONTENT).
Proof. repeat split. Qed.

Lemma brace_reaches_interpolation_end (s : Scanner) (lx : TSLexer)
    (valid : valid_symbols) :
  content_rules_silent s valid ->
  lookahead lx = 123 \/ lookahead lx = 125 ->
  scan_body valid s lx = interpolation_end valid s lx.
Proof.
  intros [Hs Hi] Hc.
  unfold scan_body, skip_whitespace, handle_comment,
    handle_string_entry, inside_string, inside_indented_string, string_start,
    indented_string_start, string_end, indented_string_end,
    interpolation_start, escape_sequence, string_content,
    indented_string_content, seq.
  assert (Hw : skip_whitespace_loop (S (remaining lx)) lx = lx)
    by (apply skip_whitespace_loop_stop; destruct Hc as [-> | ->];
        reflexivity).
  assert (Hcm : scan_comment lx = (false, lx))
    by (apply scan_comment_none; lia).
  assert (Hes : scan_escape_sequence lx = (false, lx))
    by (apply scan_escape_sequence_none; lia).
  assert (H34 : (lookahead lx =? 34) = false) by (apply Z.eqb_neq; lia).
  assert (H36 : (lookahead lx =? 36) = false) by (apply Z.eqb_neq; lia).
  assert (H39 : (lookahead lx =? 39) = false) by (apply Z.eqb_neq; lia).
  assert (Hsc : in_string s = true -> valid STRING_CONTENT = false)
    by exact Hs.
  assert (Hic : in_indented_string s = true ->
                valid INDENTED_STRING_CONTENT = false) by exact Hi.
  destruct (in_string s) eqn:His;
    [specialize (Hsc eq_refl) | clear Hsc];
    (destruct (in_indented_string s) eqn:Hii;
     [specialize (Hic eq_refl) | clear Hic]);
    destruct (valid COMMENT) eqn:Hvc;
    destruct (valid ESCAPE_SEQUENCE) eqn:Hve;
    repeat (progress (cbn [andb negb];
                      rewrite ?His, ?Hii, ?Hvc, ?Hve, ?Hsc, ?Hic, ?Hw, ?Hcm,
                        ?Hes, ?H34, ?H36, ?H39, ?andb_false_r));
    reflexivity.
Qed.

(** At the limit of [int] the compiled increment wraps around: one more
    interpolation at depth [INT_MAX], and one more opening brace at brace
    depth [INT_MAX], leave the counter at [INT_MIN]. *)
Lemma counter_overflow_wraps :
  scan (mkScanner true false 2147483647 0 1) (lexer_start (chars "${") 0)
       (only [INTERPOLATION_START]) =
  (true, mkScanner true false (-2147483648) 0 1,
   mkLexer (chars "${") 2 0 None INTERPOLATION_START) /\
  scan (mkScanner true false 1 0 2147483647) (lexer_start (chars "{") 0)
       (only [INTERPOLATION_END]) =
  (false, mkScanner true false 1 0 (-2147483648),
   mkLexer (chars "{") 1 0 None STRING_START).
Proof. split; reflexivity. Qed.

(** What a call at a brace does inside an interpolation, with the
    wrap-around of the counters written out. *)
Lemma scan_at_brace (s : Scanner) (lx : TSLexer) (valid : valid_symbols) :
  0 < interpolation_depth s ->
  valid INTERPOLATION_END = true ->
  content_rules_silent s valid ->
  (lookahead lx = 123 ->
   scan s lx valid =
   (false, set_brace_depth s (int_wrap (brace_depth s + 1)), advance lx)) /\
  (lookahead lx = 125 -> int_wrap (brace_depth s - 1) = 0 ->
   scan s lx valid =
   (true,
    mkScanner (in_string s) (in_indented_string s)
              (int_wrap (interpolation_depth s - 1)) (paren_depth s) 0,
    set_result_symbol (advance lx) INTERPOLATION_END)) /\
  (lookahead lx = 125 -> int_wrap (brace_depth s - 1) <> 0 ->
   scan s lx valid =
   (false, set_brace_depth s (int_wrap (brace_depth s - 1)), advance lx)).
Proof.
  intros Hd Hv Hsilent.
  apply Z.ltb_lt in Hd.
  repeat split; intros Hc;
    unfold tree_sitter_nix_external_scanner_scan.
  - rewrite brace_reaches_interpolation_end by auto.
    unfold interpolation_end. now rewrite Hd, Hv, Hc.
  - intros Hz.
    rewrite brace_reaches_interpolation_end by auto.
    unfold interpolation_end. rewrite Hd, Hv, Hc.
    cbn [andb Z.eqb Pos.eqb brace_depth set_brace_depth].
    rewrite Hz. reflexivity.
  - intros Hz.
    rewrite brace_reaches_interpolation_end by auto.
    unfold interpolation_end. rewrite Hd, Hv, Hc.
    cbn [andb Z.eqb Pos.eqb brace_depth set_brace_depth].
    apply Z.eqb_neq in Hz. now rewrite Hz.
Qed.

(** C3, amended.  When an interpolation is open, interpolation-end is
    admissible and no content rule takes the character first, a call that
    sees an opening brace adds 1 to [brace_depth], consumes the brace and
    produces no token; a call that sees a closing brace subtracts 1 from
    [brace_depth] and consumes the brace, and it produces interpolation-end
    and subtracts 1 from [interpolation_depth] exactly when [brace_depth]
    has come to 0.  The counters are [int]s, and [brace_depth] is below
    [INT_MAX] at an opening brace and above [INT_MIN] at a closing one:
    at these limits the increment and the decrement overflow. *)
Theorem brace_tracking (s : Scanner) (lx : TSLexer) (valid : valid_symbols) :
  0 < interpolation_depth s ->
  int_range (interpolation_depth s) ->
  int_range (brace_depth s) ->
  valid INTERPOLATION_END = true ->
  content_rules_silent s valid ->
  (lookahead lx = 123 -> brace_depth s < INT_MAX ->
   scan s lx valid =
   (false, set_brace_depth s (brace_depth s + 1), advance lx)) /\
  (lookahead lx = 125 -> brace_depth s - 1 = 0 ->
   scan s lx valid =
   (true,
    mkScanner (in_string s) (in_indented_string s)
              (interpolation_depth s - 1) (paren_depth s) 0,
    set_result_symbol (advance lx) INTERPOLATION_END)) /\
  (lookahead lx = 125 -> INT_MIN < brace_depth s ->
   brace_depth s - 1 <> 0 ->
   scan s lx valid =
   (false, set_brace_depth s (brace_depth s - 1), advance lx)) /\
  (lookahead lx = 123 \/ lookahead lx = 125 ->
   position (advance lx) = S (position lx)).
Proof.
  intros Hd Hri Hrb Hv Hsilent.
  destruct (scan_at_brace s lx valid Hd Hv Hsilent) as (Ho & Hl & Hc).
  repeat split.
  - intros H123 Hmax. rewrite (Ho H123).
    rewrite int_wrap_id by int_bounds. reflexivity.
  - intros H125 Hz.
    assert (Hw : int_wrap (brace_depth s - 1) = 0)
      by (rewrite int_wrap_id by int_bounds; exact Hz).
    rewrite (Hl H125 Hw).
    rewrite int_wrap_id by int_bounds. reflexivity.
  - intros H125 Hmin Hz.
    assert (Hw : int_wrap (brace_depth s - 1) = brace_depth s - 1)
      by (apply int_wrap_id; int_bounds).
    rewrite (Hc H125) by (rewrite Hw; exact Hz).
    now rewrite Hw.
  - intros Hc'. apply advance_position. lia.
Qed.

Lemma brace_tracking_witness :
  scan (mkScanner true false 1 0 2) (lexer_start (chars "} }") 0)
       (only [INTERPOLATION_END]) =
  (false, mkScanner true false 1 0 1,
   advance (lexer_start (chars "} }") 0)).
Proof.
  apply (brace_tracking (mkScanner true false 1 0 2)
           (lexer_start (chars "} }") 0) (only [INTERPOLATION_END])).
  - reflexivity.
  - unfold int_range, INT_MIN, INT_MAX; simpl; lia.
  - unfold int_range, INT_MIN, INT_MAX; simpl; lia.
  - reflexivity.
  - split; intros _; reflexivity.
  - reflexivity.
  - unfold INT_MIN; simpl; lia.
  - discriminate.
Defined.

(** ** C4: the state invariant, amended *)

(** One more closing brace inside the one open interpolation of a plain
    string. *)
Lemma close_brace_below_zero (b : Z) :
  INT_MIN < b < 0 ->
  scan (mkScanner true false 1 0 b) (lexer_start [125] 0)
       (only [INTERPOLATION_END]) =
  (false, mkScanner true false 1 0 (b - 1), advance (lexer_start [125] 0)).
Proof.
  intros Hb.
  destruct (scan_at_brace (mkScanner true false 1 0 b)
              (lexer_start [125] 0) (only [INTERPOLATION_END]))
    as (_ & _ & Hc);
    [reflexivity | reflexivity | split; intros _; reflexivity |].
  cbn [brace_depth] in Hc.
  assert (Hw : int_wrap (b - 1) = b - 1) by (apply int_wrap_id; int_bounds).
  rewrite Hc by (reflexivity || (rewrite Hw; lia)).
  unfold set_brace_depth. cbn [in_string in_indented_string
    interpolation_depth paren_depth]. now rewrite Hw.
Qed.

Lemma reachable_in_bounds_scan_run
    (calls : list (TSLexer * valid_symbols)) :
  forall s,
    reachable_in_bounds s ->
    (forall k, (k < length calls)%nat ->
               counters_in_bounds (scan_run s (firstn k calls))) ->
    reachable_in_bounds (scan_run s calls).
Proof.
  induction calls as [| [lx valid] calls IH]; intros s Hs Hb;
    [exact Hs |].
  pose proof (Hb 0%nat) as H0. cbn [firstn scan_run length] in H0.
  cbn [scan_run].
  destruct (scan s lx valid) as [[r s'] lx'] eqn:Hscan.
  apply IH.
  - eapply in_bounds_scan; [exact Hs | apply H0; lia | exact Hscan].
  - intros k Hk. specialize (Hb (S k)).
    cbn [firstn scan_run length] in Hb. rewrite Hscan in Hb.
    apply Hb. lia.
Qed.

(** The state that refutes C4 is reached without any overflow. *)
Lemma brace_depth_minus_one_in_bounds :
  reachable_in_bounds (mkScanner true false 1 0 (-1)).
Proof.
  change (mkScanner true false 1 0 (-1))
    with (scan_run tree_sitter_nix_external_scanner_create
            nested_interpolation_calls).
  apply reachable_in_bounds_scan_run; [apply in_bounds_create |].
  intros k Hk.
  do 5 (destruct k as [| k];
        [unfold counters_in_bounds, INT_MIN, INT_MAX; vm_compute;
         repeat split; reflexivity |]).
  simpl in Hk. lia.
Qed.

Lemma brace_depth_below_zero_in_bounds (k : nat) :
  Z.of_nat k < 2147483648 ->
  reachable_in_bounds (mkScanner true false 1 0 (- 1 - Z.of_nat k)).
Proof.
  induction k as [| k IH]; intros Hk.
  - exact brace_depth_minus_one_in_bounds.
  - replace (- 1 - Z.of_nat (S k)) with (- 1 - Z.of_nat k - 1) by lia.
    eapply in_bounds_scan.
    + apply IH. lia.
    + unfold counters_in_bounds, INT_MIN, INT_MAX.
      cbn [interpolation_depth brace_depth]. lia.
    + apply close_brace_below_zero. unfold INT_MIN. lia.
Qed.

Lemma reachable_in_bounds_reachable (s : Scanner) :
  reachable_in_bounds s -> reachable s.
Proof.
  induction 1 as [| s lx valid r s' lx' _ IH _ Hscan];
    [apply reachable_create | exact (reachable_scan _ _ _ _ _ _ IH Hscan)].
Qed.

(** Why the premise on the counters is there: with the wrap-around of the
    compiled increment, [INT_MAX] + 1 interpolations opened inside one
    another leave [interpolation_depth] at [INT_MIN]. *)
Lemma interpolation_start_run (k : nat) :
  reachable (mkScanner true false (int_wrap (Z.of_nat k)) 0
               (if (k =? 0)%nat then 0 else 1)).
Proof.
  induction k as [| k IH].
  - apply (reachable_scan tree_sitter_nix_external_scanner_create
             (lexer_start [34] 0) (only [STRING_START]) true _
             (mkLexer [34] 1 0 None STRING_START));
      [apply reachable_create | reflexivity].
  - pose proof (scan_at_interpolation_open
                  (mkScanner true false (int_wrap (Z.of_nat k)) 0
                     (if (k =? 0)%nat then 0 else 1))
                  (lexer_start [36; 123] 0) (only [INTERPOLATION_START])
                  (or_introl eq_refl) eq_refl eq_refl eq_refl) as E.
    unfold set_brace_depth, set_interpolation_depth in E.
    cbn [in_string in_indented_string interpolation_depth paren_depth] in E.
    rewrite int_wrap_succ in E.
    replace (Z.of_nat k + 1) with (Z.of_nat (S k)) in E by lia.
    exact (reachable_scan _ _ _ _ _ _ IH E).
Qed.

Lemma overflow_reaches_negative_depth :
  exists s, reachable s /\ interpolation_depth s = INT_MIN.
Proof.
  exists (mkScanner true false
            (int_wrap (Z.of_nat (Z.to_nat 2147483648))) 0
            (if (Z.to_nat 2147483648 =? 0)%nat then 0 else 1)).
  split; [apply interpolation_start_run |].
  cbn [interpolation_depth]. rewrite Z2Nat.id by lia. reflexivity.
Qed.

(** C4, amended.  In every state reachable from the zero state by scan
    calls, whatever their inputs and admissible kinds, the two mode flags
    are never both set.  In every state reached by a run in which no
    counter overflows, [interpolation_depth] is not negative.
    [brace_depth] is not kept at or above 0: every negative value of an
    [int] is the [brace_depth] of a state reached without overflow. *)
Theorem reachable_modes_exclusive_depth_nonneg :
  (forall s, reachable s -> modes_exclusive s) /\
  (forall s, reachable_in_bounds s -> 0 <= interpolation_depth s) /\
  (forall n, INT_MIN <= n < 0 ->
             exists s, reachable_in_bounds s /\ brace_depth s = n).
Proof.
  split; [| split].
  - unfold modes_exclusive.
    induction 1 as [| s lx valid r s' lx' Hreach IH Hscan].
    + simpl. intros [H _]; discriminate.
    + apply scan_effect in Hscan.
      inversion Hscan; subst; simpl; try assumption;
        intros [Ha Hb]; apply IH; split; congruence.
  - induction 1 as [| s lx valid r s' lx' Hreach IH [Hmax _] Hscan].
    + simpl. lia.
    + apply scan_effect in Hscan.
      assert (Hup : int_wrap (interpolation_depth s + 1) =
                    interpolation_depth s + 1)
        by (apply int_wrap_id; int_bounds).
      inversion Hscan; subst;
        cbn [interpolation_depth set_in_string set_in_indented_string
             set_interpolation_depth set_brace_depth];
        rewrite ?Hup; try lia.
      rewrite int_wrap_id by int_bounds. lia.
  - intros n Hn.
    exists (mkScanner true false 1 0 (- 1 - Z.of_nat (Z.to_nat (- n - 1)))).
    split.
    + apply brace_depth_below_zero_in_bounds.
      rewrite Z2Nat.id by lia. unfold INT_MIN in Hn. lia.
    + cbn [brace_depth]. rewrite Z2Nat.id by lia. lia.
Qed.

Lemma reachable_modes_exclusive_depth_nonneg_witness :
  modes_exclusive (mkScanner true false 1 0 (-1)) /\
  0 <= interpolation_depth (mkScanner true false 1 0 (-1)) /\
  exists s, reachable_in_bounds s /\ brace_depth s = -7.
Proof.
  destruct reachable_modes_exclusive_depth_nonneg as (Hm & Hd & Hb).
  split; [| split].
  - apply Hm, reachable_in_bounds_reachable,
      brace_depth_minus_one_in_bounds.
  - apply Hd, brace_depth_minus_one_in_bounds.
  - apply Hb. unfold INT_MIN. lia.
Defined.

(** ** C6: escape sequences *)

Lemma skipn_nth_cons (l : list Z) (n : nat) :
  (n < length l)%nat -> skipn n l = nth n l 0 :: skipn (S n) l.
Proof.
  revert n. induction l as [| a l IH]; intros n Hn; simpl in Hn.
  - lia.
  - destruct n as [| n]; [reflexivity |].
    change (skipn (S n) (a :: l)) with (skipn n l).
    change (nth (S n) (a :: l) 0) with (nth n l 0).
    rewrite IH by lia. reflexivity.
Qed.

Lemma firstn_S_skipn (l : list Z) (n k : nat) :
  (n < length l)%nat ->
  firstn (S k) (skipn n l) = nth n l 0 :: firstn k (skipn (S n) l).
Proof. intros H. now rewrite (skipn_nth_cons l n H). Qed.

(** The text of a token whose end was never marked. *)
Lemma token_text_unmarked (lx : TSLexer) (k : nat) :
  token_end lx = None ->
  position lx = (token_start lx + k)%nat ->
  token_text lx = firstn k (skipn (token_start lx) (input lx)).
Proof.
  intros He Hp. unfold token_text, token_end_position.
  rewrite He, Hp. f_equal. lia.
Qed.

Lemma lookahead_advance (lx : TSLexer) :
  lookahead lx <> 0 ->
  lookahead (advance lx) = nth (S (position lx)) (input lx) 0.
Proof.
  intros H. unfold lookahead at 1.
  now rewrite advance_position, advance_input.
Qed.

Lemma is_simple_escape_nonzero (c : Z) : is_simple_escape c = true -> c <> 0.
Proof. intros H ->. discriminate. Qed.

Lemma is_hex_digit_nonzero (c : Z) : is_hex_digit c = true -> c <> 0.
Proof. intros H ->. discriminate. Qed.

(** The two ways in which [scan_escape_sequence] returns true. *)
Lemma scan_escape_sequence_true (lx lx1 : TSLexer) :
  scan_escape_sequence lx = (true, lx1) ->
  lookahead lx = 92 /\
  ((is_simple_escape (lookahead (advance lx)) = true /\
    lx1 = advance (advance lx)) \/
   (lookahead (advance lx) = 120 /\
    is_hex_digit (lookahead (advance (advance lx))) = true /\
    is_hex_digit (lookahead (advance (advance (advance lx)))) = true /\
    lx1 = advance (advance (advance (advance lx))))).
Proof.
  unfold scan_escape_sequence.
  destruct (lookahead lx =? 92) eqn:Hb; simpl; [| discriminate].
  apply Z.eqb_eq in Hb. split; [exact Hb |].
  destruct (is_simple_escape (lookahead (advance lx))) eqn:Hs.
  - left. split; [reflexivity | congruence].
  - destruct (lookahead (advance lx) =? 120) eqn:Hx; [| discriminate].
    apply Z.eqb_eq in Hx.
    destruct (is_hex_digit (lookahead (advance (advance lx)))) eqn:H1;
      [| discriminate].
    destruct (is_hex_digit (lookahead (advance (advance (advance lx)))))
      eqn:H2; [| discriminate].
    right. repeat split; congruence.
Qed.

Lemma seq_never_returns (k : TokenType) (a b : stage) :
  never_returns k a -> never_returns k b -> never_returns k (a ;; b).
Proof.
  intros Ha Hb s lx s' lx'. unfold seq.
  destruct (a s lx) as [r s1 lx1 | s1 lx1] eqn:E.
  - intros H. inversion H; subst. eapply Ha; eauto.
  - apply Hb.
Qed.

Ltac never_returns_cases :=
  intros s lx s' lx';
  stage_cases; intros H; inversion H; subst; simpl; discriminate.

Lemma string_content_never_escape valid :
  never_returns ESCAPE_SEQUENCE (string_content valid).
Proof. unfold string_content. never_returns_cases. Qed.

(** After the plain-string block nothing hands back one of its kinds. *)
Lemma after_string_block_never (valid : valid_symbols) (k : TokenType) :
  k = ESCAPE_SEQUENCE \/ k = STRING_CONTENT ->
  never_returns k (inside_indented_string valid ;; interpolation_end valid).
Proof.
  intros Hk. apply seq_never_returns.
  - intros s lx s' lx'. unfold inside_indented_string.
    destruct (in_indented_string s); [| discriminate].
    revert s lx s' lx'.
    repeat apply seq_never_returns;
      [unfold indented_string_end | unfold interpolation_start
       | unfold indented_string_content];
      destruct Hk as [-> | ->]; never_returns_cases.
  - unfold interpolation_end.
    destruct Hk as [-> | ->]; never_returns_cases.
Qed.

(** A call that starts at a backslash runs straight into the escape rule
    of the plain-string block. *)
Lemma scan_body_at_backslash (s : Scanner) (lx : TSLexer)
    (valid : valid_symbols) :
  lookahead lx = 92 ->
  scan_body valid s lx =
  ((fun s0 lx0 =>
      if in_string s0
      then (escape_sequence valid ;; string_content valid) s0 lx0
      else Continue s0 lx0) ;;
   inside_indented_string valid ;; interpolation_end valid) s lx.
Proof.
  intros Hc.
  unfold scan_body, skip_whitespace, handle_comment, handle_string_entry,
    inside_string, string_start, indented_string_start, string_end,
    interpolation_start, seq.
  assert (Hw : skip_whitespace_loop (S (remaining lx)) lx = lx)
    by (apply skip_whitespace_loop_stop; rewrite Hc; reflexivity).
  assert (Hcm : scan_comment lx = (false, lx))
    by (apply scan_comment_none; lia).
  destruct (in_string s) eqn:His; destruct (in_indented_string s) eqn:Hii;
    destruct (valid COMMENT) eqn:Hvc;
    repeat (progress (cbn [andb negb Z.eqb Pos.eqb];
                      rewrite ?His, ?Hii, ?Hvc, ?Hw, ?Hcm, ?Hc,
                        ?andb_false_r));
    reflexivity.
Qed.

(** C6, as stated, fails: in a plain string with every kind admissible the
    interpolation rule looks at a dollar sign, finds no opening brace after
    it and leaves the dollar sign consumed; the escape rule that comes next
    recognises backslash n, and the call hands back an escape-sequence
    token of three characters. *)
Lemma escape_sequence_counterexample :
  scan (mkScanner true false 0 0 0) (lexer_start (chars "$\n") 0) all_valid =
  (true, mkScanner true false 0 0 0,
   mkLexer (chars "$\n") 3 0 None ESCAPE_SEQUENCE) /\
  position (mkLexer (chars "$\n") 3 0 None ESCAPE_SEQUENCE) = 3%nat /\
  token_text (mkLexer (chars "$\n") 3 0 None ESCAPE_SEQUENCE) = chars "$\n".
Proof. repeat split. Qed.

(** C6, amended.  When a call that starts at a backslash produces an
    escape-sequence token, the backslash is followed by one of
    n r t backslash double-quote quote dollar and the call consumed exactly
    these two characters, or it is followed by x and two hexadecimal digits
    and the call consumed exactly these four; so a backslash followed by
    anything else yields no escape-sequence token. *)
Theorem escape_sequence_consumption (s : Scanner) (inp : list Z) (pos : nat)
    (valid : valid_symbols) (s' : Scanner) (lx' : TSLexer) :
  scan s (lexer_start inp pos) valid = (true, s', lx') ->
  result_symbol lx' = ESCAPE_SEQUENCE ->
  lookahead (lexer_start inp pos) = 92 ->
  (is_simple_escape (nth (pos + 1) inp 0) = true /\
   position lx' = (pos + 2)%nat /\
   token_text lx' = [92; nth (pos + 1) inp 0])
  \/
  (nth (pos + 1) inp 0 = 120 /\
   is_hex_digit (nth (pos + 2) inp 0) = true /\
   is_hex_digit (nth (pos + 3) inp 0) = true /\
   position lx' = (pos + 4)%nat /\
   token_text lx' =
   [92; 120; nth (pos + 2) inp 0; nth (pos + 3) inp 0]).
Proof.
  intros Hscan Hkind Hb.
  unfold tree_sitter_nix_external_scanner_scan in Hscan.
  rewrite scan_body_at_backslash in Hscan by exact Hb.
  set (lx := lexer_start inp pos) in *.
  assert (Hrest : never_returns ESCAPE_SEQUENCE
                    (inside_indented_string valid ;; interpolation_end valid))
    by (apply after_string_block_never; now left).
  (* every path but the escape rule's own return contradicts [Hkind] *)
  assert (Hesc : exists lx1,
             scan_escape_sequence lx = (true, lx1) /\
             lx' = set_result_symbol lx1 ESCAPE_SEQUENCE).
  { unfold seq at 1 in Hscan.
    destruct (in_string s).
    - unfold seq at 1 in Hscan. unfold escape_sequence in Hscan.
      destruct (valid ESCAPE_SEQUENCE).
      + destruct (scan_escape_sequence lx) as [found lx1] eqn:He.
        destruct found.
        * inversion Hscan; subst. exists lx1. split; reflexivity.
        * exfalso.
          destruct (string_content valid s lx1) as [r s2 lx2 | s2 lx2] eqn:E.
          -- inversion Hscan; subst.
             eapply string_content_never_escape; eauto.
          -- destruct ((inside_indented_string valid ;;
                        interpolation_end valid) s2 lx2)
               as [r s3 lx3 | s3 lx3] eqn:E2; inversion Hscan; subst.
             eapply Hrest; eauto.
      + exfalso.
        destruct (string_content valid s lx) as [r s2 lx2 | s2 lx2] eqn:E.
        * inversion Hscan; subst.
          eapply string_content_never_escape; eauto.
        * destruct ((inside_indented_string valid ;;
                     interpolation_end valid) s2 lx2)
            as [r s3 lx3 | s3 lx3] eqn:E2; inversion Hscan; subst.
          eapply Hrest; eauto.
    - exfalso.
      destruct ((inside_indented_string valid ;;
                 interpolation_end valid) s lx)
        as [r s3 lx3 | s3 lx3] eqn:E2; inversion Hscan; subst.
      eapply Hrest; eauto. }
  destruct Hesc as (lx1 & He & ->).
  apply scan_escape_sequence_true in He.
  destruct He as (_ & [(Hs & ->) | (Hx & H1 & H2 & ->)]).
  - left.
    assert (Hn0 : lookahead lx <> 0) by lia.
    assert (Hl1 : lookahead (advance lx) = nth (pos + 1) inp 0)
      by (rewrite lookahead_advance by exact Hn0; subst lx; simpl;
          now rewrite Nat.add_1_r).
    rewrite Hl1 in Hs.
    assert (Hn1 : lookahead (advance lx) <> 0)
      by (rewrite Hl1; now apply is_simple_escape_nonzero).
    assert (Hp1 : position (advance lx) = S pos)
      by (now rewrite advance_position).
    assert (Hp2 : position (advance (advance lx)) = S (S pos))
      by (now rewrite advance_position, Hp1).
    split; [exact Hs |]. split; [simpl; rewrite Hp2; lia |].
    pose proof (lookahead_in_range _ Hn0) as R0.
    pose proof (lookahead_in_range _ Hn1) as R1.
    rewrite Hp1, advance_input in R1.
    rewrite (token_text_unmarked _ 2).
    + cbn [input token_start set_result_symbol].
      rewrite !advance_token_start, !advance_input.
      subst lx. cbn [lexer_start input token_start position] in *.
      rewrite firstn_S_skipn, firstn_S_skipn by lia.
      unfold lookahead in Hb. cbn [lexer_start input position] in Hb.
      now rewrite Hb, Nat.add_1_r.
    + cbn [token_end set_result_symbol]. now rewrite !advance_token_end.
    + cbn [token_start position set_result_symbol].
      rewrite !advance_token_start, Hp2. subst lx. simpl. lia.
  - right.
    assert (Hn0 : lookahead lx <> 0) by lia.
    assert (Hp1 : position (advance lx) = S pos)
      by (now rewrite advance_position).
    assert (Hl1 : lookahead (advance lx) = nth (S pos) inp 0)
      by (rewrite lookahead_advance by exact Hn0; subst lx; reflexivity).
    assert (Hn1 : lookahead (advance lx) <> 0) by lia.
    assert (Hp2 : position (advance (advance lx)) = S (S pos))
      by (now rewrite advance_position, Hp1).
    assert (Hl2 : lookahead (advance (advance lx)) = nth (S (S pos)) inp 0)
      by (rewrite lookahead_advance by exact Hn1;
          now rewrite Hp1, advance_input).
    assert (Hn2 : lookahead (advance (advance lx)) <> 0)
      by (now apply is_hex_digit_nonzero).
    assert (Hp3 : position (advance (advance (advance lx))) = S (S (S pos)))
      by (now rewrite advance_position, Hp2).
    assert (Hl3 : lookahead (advance (advance (advance lx))) =
                  nth (S (S (S pos))) inp 0)
      by (rewrite lookahead_advance by exact Hn2;
          now rewrite Hp2, !advance_input).
    assert (Hn3 : lookahead (advance (advance (advance lx))) <> 0)
      by (now apply is_hex_digit_nonzero).
    assert (Hp4 : position (advance (advance (advance (advance lx)))) =
                  S (S (S (S pos))))
      by (now rewrite advance_position, Hp3).
    pose proof (lookahead_in_range _ Hn0) as R0.
    pose proof (lookahead_in_range _ Hn1) as R1.
    pose proof (lookahead_in_range _ Hn2) as R2.
    pose proof (lookahead_in_range _ Hn3) as R3.
    rewrite Hp1, advance_input in R1.
    rewrite Hp2, !advance_input in R2.
    rewrite Hp3, !advance_input in R3.
    subst lx. simpl in R0, R1, R2, R3.
    rewrite Hl1 in Hx. rewrite Hl2 in H1. rewrite Hl3 in H2.
    replace (pos + 1)%nat with (S pos) by lia.
    replace (pos + 2)%nat with (S (S pos)) by lia.
    replace (pos + 3)%nat with (S (S (S pos))) by lia.
    replace (pos + 4)%nat with (S (S (S (S pos)))) by lia.
    repeat split; try assumption.
    rewrite (token_text_unmarked _ 4).
    + cbn [input token_start set_result_symbol].
      rewrite !advance_token_start, !advance_input.
      cbn [lexer_start input token_start].
      rewrite 4 firstn_S_skipn by lia.
      unfold lookahead in Hb. cbn [lexer_start input position] in Hb.
      now rewrite Hb, Hx.
    + cbn [token_end set_result_symbol]. now rewrite !advance_token_end.
    + cbn [token_start position set_result_symbol].
      rewrite !advance_token_start, Hp4. simpl. lia.
Qed.

Lemma escape_sequence_consumption_witness :
  (is_simple_escape (nth (3 + 1) (chars "abc\nd") 0) = true /\
   position (mkLexer (chars "abc\nd") 5 3 None ESCAPE_SEQUENCE) =
   (3 + 2)%nat /\
   token_text (mkLexer (chars "abc\nd") 5 3 None ESCAPE_SEQUENCE) =
   [92; nth (3 + 1) (chars "abc\nd") 0])
  \/
  (nth (3 + 1) (chars "abc\nd") 0 = 120 /\
   is_hex_digit (nth (3 + 2) (chars "abc\nd") 0) = true /\
   is_hex_digit (nth (3 + 3) (chars "abc\nd") 0) = true /\
   position (mkLexer (chars "abc\nd") 5 3 None ESCAPE_SEQUENCE) =
   (3 + 4)%nat /\
   token_text (mkLexer (chars "abc\nd") 5 3 None ESCAPE_SEQUENCE) =
   [92; 120; nth (3 + 2) (chars "abc\nd") 0;
    nth (3 + 3) (chars "abc\nd") 0]).
Proof.
  apply (escape_sequence_consumption (mkScanner true false 0 0 0)
           (chars "abc\nd") 3 all_valid (mkScanner true false 0 0 0)).
  - reflexivity.
  - reflexivity.
  - reflexivity.
Defined.

(** ** The content loop of a plain string *)

Lemma nth_hd_skipn (l : list Z) (n : nat) : nth n l 0 = hd 0 (skipn n l).
Proof.
  revert n. induction l as [| a l IH]; intros [| n]; simpl; auto.
Qed.

Lemma lookahead_hd (lx : TSLexer) :
  lookahead lx = hd 0 (skipn (position lx) (input lx)).
Proof. apply nth_hd_skipn. Qed.

Lemma skipn_advance (lx : TSLexer) :
  lookahead lx <> 0 ->
  skipn (position lx) (input lx) =
  lookahead lx :: skipn (position (advance lx)) (input lx).
Proof.
  intros H. rewrite advance_position by exact H.
  apply skipn_nth_cons. now apply lookahead_in_range.
Qed.

Lemma remaining_advance (lx : TSLexer) :
  lookahead lx <> 0 -> S (remaining (advance lx)) = remaining lx.
Proof.
  intros H. pose proof (lookahead_in_range lx H) as R.
  unfold remaining. rewrite advance_position, advance_input by exact H. lia.
Qed.

Lemma remaining_advance_le (lx : TSLexer) :
  (remaining (advance lx) <= remaining lx)%nat.
Proof.
  unfold remaining, advance, lexer_advance.
  destruct (_ <? _)%nat; simpl; lia.
Qed.

Lemma consumed_refl (lx : TSLexer) : consumed lx lx [].
Proof. unfold consumed. simpl. rewrite Nat.add_0_r. intuition. Qed.

Lemma consumed_advance (lx : TSLexer) :
  lookahead lx <> 0 -> consumed lx (advance lx) [lookahead lx].
Proof.
  intros H. unfold consumed.
  rewrite advance_input, advance_token_start, advance_token_end,
    advance_position by exact H.
  repeat split.
  - apply advance_result_symbol.
  - simpl. lia.
  - rewrite <- (advance_position lx H). now apply skipn_advance.
Qed.

Lemma consumed_trans (lx lx1 lx2 : TSLexer) (p q : list Z) :
  consumed lx lx1 p -> consumed lx1 lx2 q -> consumed lx lx2 (p ++ q).
Proof.
  intros (Hi & Hs & He & Hr & Hp & Hk) (Hi' & Hs' & He' & Hr' & Hp' & Hk').
  unfold consumed. rewrite Hi in *.
  repeat split; try congruence.
  - rewrite length_app. lia.
  - rewrite Hk, Hk', app_assoc. reflexivity.
Qed.

(** *** The content loop computes [content_run] *)

Lemma content_run_stop_hd (cs : list Z) :
  hd 0 cs = 0 \/ hd 0 cs = 34 \/ hd 0 cs = 92 -> content_run cs = [].
Proof.
  destruct cs as [| c cs]; simpl; [reflexivity |].
  intros [-> | [-> | ->]]; reflexivity.
Qed.

Lemma scan_string_content_loop_spec (fuel : nat) :
  forall (lx : TSLexer) (h : bool),
    (remaining lx < fuel)%nat ->
    token_end lx = Some (position lx) ->
    exists lx',
      scan_string_content_loop fuel lx h =
      (h || nonempty (content_run (skipn (position lx) (input lx))), lx') /\
      input lx' = input lx /\
      token_start lx' = token_start lx /\
      result_symbol lx' = result_symbol lx /\
      token_end lx' =
      Some (position lx +
            length (content_run (skipn (position lx) (input lx))))%nat.
Proof.
  induction fuel as [| fuel IH]; intros lx h Hfuel Hmark; [lia |].
  simpl.
  destruct (lookahead lx =? 0) eqn:H0.
  { apply Z.eqb_eq in H0. rewrite lookahead_hd in H0.
    rewrite content_run_stop_hd by auto. simpl.
    rewrite orb_false_r, Nat.add_0_r. exists lx. auto. }
  destruct (lookahead lx =? 34) eqn:H34.
  { apply Z.eqb_eq in H34. rewrite lookahead_hd in H34.
    rewrite content_run_stop_hd by auto. simpl.
    rewrite orb_false_r, Nat.add_0_r. exists lx. auto. }
  destruct (lookahead lx =? 92) eqn:H92.
  { apply Z.eqb_eq in H92. rewrite lookahead_hd in H92.
    rewrite content_run_stop_hd by auto. simpl.
    rewrite orb_false_r, Nat.add_0_r. exists lx. auto. }
  assert (N0 : lookahead lx <> 0) by (now apply Z.eqb_neq).
  pose proof (skipn_advance lx N0) as Hrest.
  pose proof (advance_position lx N0) as Hpos.
  pose proof (remaining_advance lx N0) as Hrem.
  assert (Hnext : lookahead (advance lx) =
                  hd 0 (skipn (position (advance lx)) (input lx)))
    by (rewrite lookahead_hd, advance_input; reflexivity).
  assert (Hcont :
            exists lx',
              scan_string_content_loop fuel (mark_end (advance lx)) true =
              (true, lx') /\
              input lx' = input lx /\
              token_start lx' = token_start lx /\
              result_symbol lx' = result_symbol lx /\
              token_end lx' =
              Some (position lx +
                    S (length (content_run
                                 (skipn (position (advance lx))
                                    (input lx)))))%nat).
  { destruct (IH (mark_end (advance lx)) true) as (lx' & E & Hi & Hs & Hr & He).
    - unfold remaining in *. simpl. lia.
    - reflexivity.
    - exists lx'. cbn [mark_end position input token_start result_symbol]
        in *.
      rewrite advance_input in *. rewrite advance_token_start in Hs.
      rewrite advance_result_symbol in Hr.
      repeat split; try assumption.
      rewrite He, Hpos. f_equal. lia. }
  rewrite Hrest. cbn [content_run]. rewrite H0, H34, H92. cbn [orb].
  destruct (lookahead lx =? 36) eqn:H36; cbn [andb].
  - rewrite <- Hnext.
    destruct (lookahead (advance lx) =? 123) eqn:H123.
    + cbn [nonempty length]. rewrite orb_false_r, Nat.add_0_r.
      exists (advance lx).
      rewrite advance_input, advance_token_start, advance_token_end,
        advance_result_symbol.
      auto.
    + cbn [nonempty length]. rewrite orb_true_r. exact Hcont.
  - cbn [nonempty length]. rewrite orb_true_r. exact Hcont.
Qed.

Lemma scan_string_content_spec (lx : TSLexer) :
  exists lx',
    scan_string_content lx =
    (nonempty (content_run (skipn (position lx) (input lx))), lx') /\
    input lx' = input lx /\
    token_start lx' = token_start lx /\
    result_symbol lx' = result_symbol lx /\
    token_end lx' =
    Some (position lx +
          length (content_run (skipn (position lx) (input lx))))%nat.
Proof.
  unfold scan_string_content.
  destruct (scan_string_content_loop_spec (S (remaining lx)) (mark_end lx)
              false) as (lx' & E & H);
    [unfold remaining; simpl; lia | reflexivity |].
  exists lx'. split; [exact E | exact H].
Qed.

(** *** What [content_run] takes *)

Lemma content_run_prefix (cs : list Z) :
  cs = content_run cs ++ skipn (length (content_run cs)) cs.
Proof.
  induction cs as [| c cs IH]; simpl; [reflexivity |].
  destruct ((c =? 0) || (c =? 34) || (c =? 92)); [reflexivity |].
  destruct ((c =? 36) && (hd 0 cs =? 123)); [reflexivity |].
  simpl. now rewrite <- IH.
Qed.

Lemma content_run_chars (cs : list Z) (c : Z) :
  In c (content_run cs) -> c <> 0 /\ c <> 34 /\ c <> 92.
Proof.
  induction cs as [| a cs IH]; simpl; [intros [] |].
  destruct ((a =? 0) || (a =? 34) || (a =? 92)) eqn:E; [intros [] |].
  destruct ((a =? 36) && (hd 0 cs =? 123)); [intros [] |].
  intros [<- | Hin]; [| now apply IH].
  apply orb_false_elim in E. destruct E as [E E3].
  apply orb_false_elim in E. destruct E as [E1 E2].
  apply Z.eqb_neq in E1, E2, E3. auto.
Qed.

Lemma content_run_hd (cs : list Z) :
  hd 0 (content_run cs) = hd 0 cs \/ hd 0 (content_run cs) = 0.
Proof.
  destruct cs as [| c cs]; simpl; [now left |].
  destruct ((c =? 0) || (c =? 34) || (c =? 92)); [now right |].
  destruct ((c =? 36) && (hd 0 cs =? 123)); [now right | now left].
Qed.

Lemma content_run_no_interp_open (cs : list Z) :
  has_interp_open (content_run cs) = false.
Proof.
  induction cs as [| c cs IH]; simpl; [reflexivity |].
  destruct ((c =? 0) || (c =? 34) || (c =? 92)); [reflexivity |].
  destruct ((c =? 36) && (hd 0 cs =? 123)) eqn:E; [reflexivity |].
  simpl. rewrite IH, orb_false_r.
  destruct (c =? 36); [| reflexivity].
  simpl in *. destruct (content_run_hd cs) as [-> | ->];
    [exact E | reflexivity].
Qed.

Lemma content_run_maximal (cs : list Z) :
  at_content_stop (skipn (length (content_run cs)) cs) = true.
Proof.
  induction cs as [| c cs IH]; simpl; [reflexivity |].
  destruct ((c =? 0) || (c =? 34) || (c =? 92)) eqn:E1.
  { simpl. now rewrite E1. }
  destruct ((c =? 36) && (hd 0 cs =? 123)) eqn:E2.
  { simpl. rewrite E2. apply orb_true_r. }
  simpl. exact IH.
Qed.

(** ** The loops end within the iterations the embedding gives them

    Each loop is given one iteration more than there are unread characters
    and consumes a character per iteration, so it always leaves through its
    own exit condition. *)

Lemma remaining_skip (lx : TSLexer) :
  lookahead lx <> 0 -> S (remaining (skip lx)) = remaining lx.
Proof.
  intros H. pose proof (lookahead_in_range lx H) as R.
  unfold remaining, skip, lexer_advance.
  apply Nat.ltb_lt in R. rewrite R. simpl. apply Nat.ltb_lt in R. lia.
Qed.

Lemma skip_whitespace_loop_exit (fuel : nat) :
  forall lx : TSLexer,
    (remaining lx < fuel)%nat ->
    is_whitespace (lookahead (skip_whitespace_loop fuel lx)) = false.
Proof.
  induction fuel as [| fuel IH]; intros lx Hfuel; [lia |].
  simpl. destruct (is_whitespace (lookahead lx)) eqn:E; [| exact E].
  apply IH.
  assert (lookahead lx <> 0) by (intros H; rewrite H in E; discriminate).
  pose proof (remaining_skip lx H). lia.
Qed.

Lemma line_comment_loop_exit (fuel : nat) :
  forall lx : TSLexer,
    (remaining lx < fuel)%nat ->
    lookahead (line_comment_loop fuel lx) = 0 \/
    lookahead (line_comment_loop fuel lx) = 10.
Proof.
  induction fuel as [| fuel IH]; intros lx Hfuel; [lia |].
  simpl.
  destruct (lookahead lx =? 0) eqn:E0; simpl.
  { left. now apply Z.eqb_eq. }
  destruct (lookahead lx =? 10) eqn:E10; simpl.
  { right. now apply Z.eqb_eq. }
  apply IH. apply Z.eqb_neq in E0.
  pose proof (remaining_advance lx E0). lia.
Qed.

(** ** What the rules before the content rule may have consumed *)

Lemma block_comment_loop_exit (fuel : nat) :
  forall (lx : TSLexer) (depth : Z) (depth' : Z) (lx' : TSLexer),
    (remaining lx < fuel)%nat ->
    0 <= depth ->
    block_comment_loop fuel lx depth = (depth', lx') ->
    depth' = 0 \/ lookahead lx' = 0.
Proof.
  induction fuel as [| fuel IH]; intros lx depth depth' lx' Hfuel Hd;
    [lia |].
  simpl.
  destruct (0 <? depth) eqn:Hpos; simpl.
  2: { intros H. inversion H; subst. apply Z.ltb_ge in Hpos. left. lia. }
  apply Z.ltb_lt in Hpos.
  destruct (lookahead lx =? 0) eqn:H0; simpl.
  { intros H. inversion H; subst. apply Z.eqb_eq in H0. now right. }
  apply Z.eqb_neq in H0.
  pose proof (remaining_advance lx H0) as R1.
  pose proof (remaining_advance_le (advance lx)) as R2.
  destruct (lookahead lx =? 47);
    [| destruct (lookahead lx =? 42)];
    try destruct (lookahead (advance lx) =? 42);
    try destruct (lookahead (advance lx) =? 47);
    apply IH; lia.
Qed.

Lemma handle_comment_continue (valid : valid_symbols) (s s1 : Scanner)
    (lx lx1 : TSLexer) :
  handle_comment valid s lx = Continue s1 lx1 ->
  (exists pre, consumed lx lx1 pre /\ (pre = [] \/ pre = [47])) \/
  lookahead lx1 = 0.
Proof.
  unfold handle_comment.
  destruct (valid COMMENT).
  2: { intros H. inversion H; subst. left. exists []. split; [| now left].
       apply consumed_refl. }
  unfold scan_comment.
  destruct (lookahead lx =? 35); [discriminate |].
  destruct (lookahead lx =? 47) eqn:H47.
  2: { intros H. inversion H; subst. left. exists []. split; [| now left].
       apply consumed_refl. }
  apply Z.eqb_eq in H47.
  destruct (lookahead (advance lx) =? 42).
  - destruct (block_comment_loop (S (remaining (advance (advance lx))))
                (advance (advance lx)) 1) as [depth lx3] eqn:E.
    apply block_comment_loop_exit in E; [| lia | lia].
    destruct (depth =? 0) eqn:Hd; [discriminate |].
    intros H. inversion H; subst. right.
    apply Z.eqb_neq in Hd. destruct E; [contradiction | assumption].
  - intros H. inversion H; subst. left. exists [47]. split; [| now right].
    rewrite <- H47. apply consumed_advance. lia.
Qed.

Lemma interpolation_start_continue (valid : valid_symbols) (s s1 : Scanner)
    (lx lx1 : TSLexer) :
  interpolation_start valid s lx = Continue s1 lx1 ->
  lx1 = lx \/
  (consumed lx lx1 [36] /\ lookahead lx1 <> 123).
Proof.
  unfold interpolation_start.
  destruct (valid INTERPOLATION_START && (lookahead lx =? 36)) eqn:E.
  2: { intros H. inversion H. now left. }
  apply andb_prop in E. destruct E as [_ E]. apply Z.eqb_eq in E.
  destruct (lookahead (advance lx) =? 123) eqn:H123; [discriminate |].
  intros H. inversion H; subst. right.
  apply Z.eqb_neq in H123. split; [| exact H123].
  rewrite <- E. apply consumed_advance. lia.
Qed.

Lemma scan_escape_sequence_false (lx lx1 : TSLexer) :
  scan_escape_sequence lx = (false, lx1) ->
  lx1 = lx \/ exists pre, consumed lx lx1 pre /\ failed_escape pre.
Proof.
  unfold scan_escape_sequence.
  destruct (lookahead lx =? 92) eqn:Hb; simpl.
  2: { intros H. inversion H. now left. }
  apply Z.eqb_eq in Hb.
  assert (C1 : consumed lx (advance lx) [92])
    by (rewrite <- Hb; apply consumed_advance; lia).
  destruct (is_simple_escape (lookahead (advance lx))); [discriminate |].
  destruct (lookahead (advance lx) =? 120) eqn:Hx.
  2: { intros H. inversion H; subst. right. exists [92].
       split; [exact C1 | now left]. }
  apply Z.eqb_eq in Hx.
  assert (C2 : consumed lx (advance (advance lx)) [92; 120]).
  { apply (consumed_trans lx (advance lx) _ [92] [120] C1).
    rewrite <- Hx. apply consumed_advance. lia. }
  destruct (is_hex_digit (lookahead (advance (advance lx)))) eqn:H1.
  2: { intros H. inversion H; subst. right. exists [92; 120].
       split; [exact C2 | right; now left]. }
  destruct (is_hex_digit (lookahead (advance (advance (advance lx)))));
    [discriminate |].
  intros H. inversion H; subst. right.
  exists [92; 120; lookahead (advance (advance lx))]. split.
  - apply (consumed_trans lx (advance (advance lx)) _ [92; 120] [_] C2).
    apply consumed_advance. now apply is_hex_digit_nonzero.
  - right; right. eexists. split; [exact H1 | reflexivity].
Qed.

Lemma escape_sequence_continue (valid : valid_symbols) (s s1 : Scanner)
    (lx lx1 : TSLexer) :
  escape_sequence valid s lx = Continue s1 lx1 ->
  lx1 = lx \/
  (valid ESCAPE_SEQUENCE = true /\
   exists pre, consumed lx lx1 pre /\ failed_escape pre).
Proof.
  unfold escape_sequence.
  destruct (valid ESCAPE_SEQUENCE).
  2: { intros H. inversion H. now left. }
  destruct (scan_escape_sequence lx) as [found lx2] eqn:E.
  destruct found; [discriminate |].
  intros H. inversion H; subst.
  apply scan_escape_sequence_false in E.
  destruct E as [-> | E]; [now left | right; auto].
Qed.

(** ** C5: string content *)

Lemma firstn_two_apps (a b c : list Z) :
  firstn (length a + length b) (a ++ b ++ c) = a ++ b.
Proof.
  rewrite firstn_app_2. f_equal.
  induction b as [| x b IH]; simpl; [reflexivity | now rewrite IH].
Qed.

Lemma has_interp_open_app (pre run : list Z) :
  ~ In 123 pre ->
  (last pre 0 = 36 -> hd 0 run <> 123) ->
  has_interp_open run = false ->
  has_interp_open (pre ++ run) = false.
Proof.
  intros Hno Hlast Hrun.
  induction pre as [| a pre IH]; [exact Hrun |].
  simpl. rewrite IH.
  - rewrite orb_false_r.
    destruct (a =? 36) eqn:Ea; [| reflexivity]. simpl.
    apply Z.eqb_neq.
    destruct pre as [| b pre]; simpl.
    + apply Hlast. simpl. now apply Z.eqb_eq.
    + intros ->. apply Hno. simpl. auto.
  - intros H. apply Hno. now right.
  - intros H. apply Hlast. destruct pre; [| exact H].
    simpl in *. exfalso. clear -H. discriminate.
Qed.

Lemma failed_escape_facts (pre : list Z) :
  failed_escape pre ->
  ~ In 34 pre /\ ~ In 123 pre /\ ~ In 36 pre /\ ~ In 47 pre /\
  last pre 0 <> 36 /\ count_occ Z.eq_dec pre 92 = 1%nat.
Proof.
  intros [-> | [-> | (h & Hh & ->)]].
  - repeat split; simpl; try (intros [H | []]; discriminate);
      try discriminate.
  - repeat split; simpl; try (intros [H | [H | []]]; discriminate);
      try discriminate.
  - assert (h <> 34 /\ h <> 123 /\ h <> 36 /\ h <> 47 /\ h <> 92).
    { unfold is_hex_digit in Hh. lia. }
    repeat split; simpl;
      try (intros [H' | [H' | [H' | []]]]; try discriminate; lia);
      try lia.
    destruct (Z.eq_dec h 92); [lia | reflexivity].
Qed.

(** The plain-string content token comes from the content rule, after the
    rules before it fell through. *)
Lemma string_content_origin (s : Scanner) (lx : TSLexer)
    (valid : valid_symbols) (s' : Scanner) (lx' : TSLexer) :
  scan s lx valid = (true, s', lx') ->
  result_symbol lx' = STRING_CONTENT ->
  in_string s = true /\
  exists lx1 lx2 lx3 lx4,
    handle_comment valid s lx = Continue s lx1 /\
    interpolation_start valid s lx1 = Continue s lx2 /\
    escape_sequence valid s lx2 = Continue s lx3 /\
    scan_string_content lx3 = (true, lx4) /\
    lx' = set_result_symbol lx4 STRING_CONTENT.
Proof.
  intros Hscan Hkind.
  assert (Hin : in_string s = true).
  { apply scan_effect in Hscan. rewrite Hkind in Hscan.
    inversion Hscan; subst; assumption. }
  split; [exact Hin |].
  unfold tree_sitter_nix_external_scanner_scan, scan_body in Hscan.
  unfold seq at 1 in Hscan. unfold skip_whitespace in Hscan.
  rewrite Hin in Hscan. cbn [negb andb] in Hscan.
  unfold seq at 1 in Hscan.
  pose proof (handle_comment_sound valid s lx) as Sc.
  destruct (handle_comment valid s lx) as [r1 s1 lx1 | s1 lx1] eqn:Ec.
  { exfalso. revert Ec. unfold handle_comment. stage_cases; intros H;
      inversion H; subst; inversion Hscan; subst; discriminate. }
  subst s1. exists lx1.
  unfold seq at 1 in Hscan. unfold handle_string_entry in Hscan.
  rewrite Hin in Hscan. cbn [negb andb] in Hscan.
  unfold seq at 1 in Hscan. unfold inside_string in Hscan.
  rewrite Hin in Hscan.
  unfold seq at 1 in Hscan. unfold string_end in Hscan.
  destruct (valid STRING_END && (lookahead lx1 =? 34)).
  { exfalso. inversion Hscan; subst. discriminate. }
  unfold seq at 1 in Hscan.
  pose proof (interpolation_start_sound valid s lx1 (or_introl Hin)) as Si.
  destruct (interpolation_start valid s lx1) as [r2 s2 lx2 | s2 lx2] eqn:Ei.
  { exfalso. revert Ei. unfold interpolation_start. stage_cases; intros H;
      inversion H; subst; inversion Hscan; subst; discriminate. }
  subst s2. exists lx2.
  unfold seq at 1 in Hscan.
  destruct (escape_sequence valid s lx2) as [r3 s3 lx3 | s3 lx3] eqn:Ee.
  { exfalso. revert Ee. unfold escape_sequence. stage_cases; intros H;
      inversion H; subst; inversion Hscan; subst; discriminate. }
  assert (s3 = s).
  { revert Ee. unfold escape_sequence. stage_cases; intros H;
      inversion H; reflexivity. }
  subst s3. exists lx3.
  unfold seq at 1 in Hscan.
  destruct (string_content valid s lx3) as [r4 s4 lx4 | s4 lx4] eqn:Es.
  - revert Es. unfold string_content.
    destruct (valid STRING_CONTENT); [| discriminate].
    destruct (scan_string_content lx3) as [found lx4'] eqn:E4.
    destruct found; [| discriminate].
    intros H. inversion H; subst. inversion Hscan; subst.
    exists lx4'. auto.
  - exfalso.
    pose proof (after_string_block_never valid STRING_CONTENT
                  (or_intror eq_refl) s4 lx4) as Hn.
    unfold seq in Hn, Hscan.
    destruct (inside_indented_string valid s4 lx4) as [r5 s5 lx5 | s5 lx5].
    + inversion Hscan; subst. now apply (Hn s' lx').
    + destruct (interpolation_end valid s5 lx5) as [r6 s6 lx6 | s6 lx6];
        inversion Hscan; subst.
      now apply (Hn s' lx').
Qed.

Lemma consumed_lookahead (lx lx1 : TSLexer) (c : Z) (p : list Z) :
  consumed lx lx1 (c :: p) -> lookahead lx = c.
Proof.
  intros (_ & _ & _ & _ & _ & Hk). rewrite lookahead_hd, Hk. reflexivity.
Qed.

Lemma failed_escape_hd (pre : list Z) :
  failed_escape pre -> exists p, pre = 92 :: p.
Proof. intros [-> | [-> | (h & _ & ->)]]; eexists; reflexivity. Qed.

Ltac solve_lookahead_prefix :=
  unfold lookahead_prefix; simpl;
  repeat match goal with
         | |- context [Z.eq_dec ?h 92] => destruct (Z.eq_dec h 92)
         end;
  repeat split; intros; try lia; try discriminate; try congruence;
  try (intuition (try discriminate; try lia; try congruence)).

(** The characters in front of the content run, when the content rule of
    the plain-string block is reached. *)
Lemma prefix_before_content (valid : valid_symbols) (s : Scanner)
    (lx lx1 lx2 lx3 : TSLexer) :
  handle_comment valid s lx = Continue s lx1 ->
  interpolation_start valid s lx1 = Continue s lx2 ->
  escape_sequence valid s lx2 = Continue s lx3 ->
  (exists pre,
      consumed lx lx3 pre /\ lookahead_prefix valid pre (lookahead lx3)) \/
  lookahead lx3 = 0.
Proof.
  intros Ec Ei Ee.
  apply handle_comment_continue in Ec.
  apply interpolation_start_continue in Ei.
  apply escape_sequence_continue in Ee.
  destruct Ec as [(p1 & C1 & Hp1) | Hz].
  2: { right.
       destruct Ei as [-> | (C2 & _)];
         [| apply consumed_lookahead in C2; lia].
       destruct Ee as [-> | (_ & p3 & C3 & F3)]; [exact Hz |].
       destruct (failed_escape_hd p3 F3) as (p & ->).
       apply consumed_lookahead in C3. lia. }
  left.
  destruct Ei as [-> | (C2 & N2)];
    destruct Ee as [-> | (Hv & p3 & C3 & F3)].
  - exists p1. split; [exact C1 |].
    destruct Hp1 as [-> | ->]; solve_lookahead_prefix.
  - exists (p1 ++ p3). split; [eapply consumed_trans; eauto |].
    destruct F3 as [-> | [-> | (h & Hh & ->)]];
      destruct Hp1 as [-> | ->];
      try (assert (h <> 34 /\ h <> 123 /\ h <> 36 /\ h <> 92)
            by (unfold is_hex_digit in Hh; lia));
      solve_lookahead_prefix.
  - exists (p1 ++ [36]). split; [eapply consumed_trans; eauto |].
    destruct Hp1 as [-> | ->]; solve_lookahead_prefix.
  - exists (p1 ++ [36] ++ p3). split.
    { eapply consumed_trans; [exact C1 |].
      eapply consumed_trans; eauto. }
    destruct F3 as [-> | [-> | (h & Hh & ->)]];
      destruct Hp1 as [-> | ->];
      try (assert (h <> 34 /\ h <> 123 /\ h <> 36 /\ h <> 92)
            by (unfold is_hex_digit in Hh; lia));
      solve_lookahead_prefix.
Qed.

Lemma token_text_marked (lx : TSLexer) (e : nat) :
  token_end lx = Some e ->
  token_text lx =
  firstn (e - token_start lx) (skipn (token_start lx) (input lx)).
Proof. intros H. unfold token_text, token_end_position. now rewrite H. Qed.

(** C5, as stated, fails: with escape-sequence admissible, a backslash
    that starts no recognised escape is consumed by the escape rule, and
    the content rule that follows leaves it in the content token. *)
Lemma string_content_counterexample :
  exists lx',
    scan (mkScanner true false 0 0 0) (lexer_start (chars "\q" ++ [34]) 0)
         all_valid =
    (true, mkScanner true false 0 0 0, lx') /\
    result_symbol lx' = STRING_CONTENT /\
    token_text lx' = chars "\q" /\
    In 92 (token_text lx').
Proof.
  eexists. split; [reflexivity |].
  split; [reflexivity |]. split; [reflexivity |].
  simpl. now left.
Qed.

(** C5, amended.  When a scan call produces a string-content token, the
    scanner is inside a plain string and the token, which starts where the
    call started, is not empty, holds no double quote and no dollar sign
    followed by an opening brace, and ends at the end of the input (or a
    NUL), a double quote, a backslash or a dollar sign followed by an
    opening brace.  It holds no backslash when escape-sequence is not
    admissible, and at most one in any case: the one a failed escape
    attempt consumed before the content rule ran. *)
Theorem string_content_token (s : Scanner) (inp : list Z) (pos : nat)
    (valid : valid_symbols) (s' : Scanner) (lx' : TSLexer) :
  scan s (lexer_start inp pos) valid = (true, s', lx') ->
  result_symbol lx' = STRING_CONTENT ->
  in_string s = true /\
  token_start lx' = pos /\
  token_text lx' <> [] /\
  ~ In 34 (token_text lx') /\
  has_interp_open (token_text lx') = false /\
  at_content_stop (skipn (token_end_position lx') inp) = true /\
  (valid ESCAPE_SEQUENCE = false -> ~ In 92 (token_text lx')) /\
  (count_occ Z.eq_dec (token_text lx') 92%Z <= 1)%nat.
Proof.
  intros Hscan Hkind.
  destruct (string_content_origin _ _ _ _ _ Hscan Hkind)
    as (Hin & lx1 & lx2 & lx3 & lx4 & Ec & Ei & Ee & E4 & ->).
  split; [exact Hin |].
  destruct (scan_string_content_spec lx3)
    as (lx4' & E4' & Hi4 & Hs4 & Hr4 & He4).
  rewrite E4 in E4'. inversion E4' as [[Hne Hlx]]. subst lx4'. clear E4'.
  symmetry in Hne.
  set (run := content_run (skipn (position lx3) (input lx3))) in *.
  destruct (prefix_before_content _ _ _ _ _ _ Ec Ei Ee)
    as [(pre & C & Hpre) | Hz].
  2: { exfalso. rewrite lookahead_hd in Hz.
       unfold run in Hne. rewrite content_run_stop_hd in Hne by auto.
       discriminate. }
  destruct C as (Hi3 & Hs3 & _ & _ & Hp3 & Hk3).
  cbn [lexer_start input position token_start] in Hi3, Hs3, Hp3, Hk3.
  destruct Hpre as (P34 & P123 & Plast & Pcount & Pesc).
  assert (Hrest : skipn (position lx3) inp =
                  run ++ skipn (length run) (skipn (position lx3) inp)).
  { unfold run. rewrite Hi3. apply content_run_prefix. }
  assert (Htext : token_text (set_result_symbol lx4 STRING_CONTENT) =
                  pre ++ run).
  { rewrite (token_text_marked _ _ He4 : token_text lx4 = _)
      || (unfold token_text, token_end_position;
          cbn [set_result_symbol token_end token_start input];
          rewrite He4).
    all: rewrite ?Hs4, ?Hi4, ?Hs3, ?Hi3, ?Hp3.
    all: replace (pos + length pre + length run - pos)%nat
           with (length pre + length run)%nat by lia.
    all: rewrite Hk3, Hrest; apply firstn_two_apps. }
  rewrite Htext.
  assert (Hend : token_end_position (set_result_symbol lx4 STRING_CONTENT) =
                 (length run + position lx3)%nat).
  { unfold token_end_position. cbn [set_result_symbol token_end].
    rewrite He4. lia. }
  rewrite Hend, <- skipn_skipn.
  assert (Hrun_ne : run <> []) by (destruct run; [discriminate | discriminate]).
  repeat split.
  - cbn [set_result_symbol token_start]. now rewrite Hs4, Hs3.
  - intros H. apply app_eq_nil in H. destruct H. contradiction.
  - intros H. apply in_app_or in H. destruct H as [H | H];
      [now apply P34 | apply content_run_chars in H; lia].
  - apply has_interp_open_app; [exact P123 | |
                                apply content_run_no_interp_open].
    intros Hl. specialize (Plast Hl).
    rewrite lookahead_hd in Plast.
    destruct (content_run_hd (skipn (position lx3) (input lx3)))
      as [E | E]; unfold run; rewrite E; [exact Plast | lia].
  - rewrite <- Hi3. apply content_run_maximal.
  - intros Hv H. apply in_app_or in H. destruct H as [H | H];
      [now apply (Pesc Hv) | apply content_run_chars in H; lia].
  - rewrite count_occ_app.
    assert (count_occ Z.eq_dec run 92 = 0%nat).
    { apply count_occ_not_In. intros H. apply content_run_chars in H. lia. }
    lia.
Qed.

Lemma string_content_token_witness :
  in_string (mkScanner true false 0 0 0) = true /\
  token_start (mkLexer (chars "he said $5\n") 10 0 (Some 10%nat)
                 STRING_CONTENT) = 0%nat /\
  token_text (mkLexer (chars "he said $5\n") 10 0 (Some 10%nat)
                STRING_CONTENT) <> [] /\
  ~ In 34 (token_text (mkLexer (chars "he said $5\n") 10 0 (Some 10%nat)
                         STRING_CONTENT)) /\
  has_interp_open (token_text (mkLexer (chars "he said $5\n") 10 0
                                 (Some 10%nat) STRING_CONTENT)) = false /\
  at_content_stop
    (skipn (token_end_position (mkLexer (chars "he said $5\n") 10 0
                                  (Some 10%nat) STRING_CONTENT))
       (chars "he said $5\n")) = true /\
  (all_valid ESCAPE_SEQUENCE = false ->
   ~ In 92 (token_text (mkLexer (chars "he said $5\n") 10 0 (Some 10%nat)
                          STRING_CONTENT))) /\
  (count_occ Z.eq_dec
     (token_text (mkLexer (chars "he said $5\n") 10 0 (Some 10%nat)
                    STRING_CONTENT)) 92%Z <= 1)%nat.
Proof.
  apply (string_content_token (mkScanner true false 0 0 0)
           (chars "he said $5\n") 0 all_valid (mkScanner true false 0 0 0)).
  - reflexivity.
  - reflexivity.
Defined.

(** ** Escape-sequence tokens in general *)

(** The escape-sequence token comes from the escape rule, after the comment
    rule and the interpolation rule fell through. *)
Lemma escape_sequence_origin (s : Scanner) (lx : TSLexer)
    (valid : valid_symbols) (s' : Scanner) (lx' : TSLexer) :
  scan s lx valid = (true, s', lx') ->
  result_symbol lx' = ESCAPE_SEQUENCE ->
  exists lx1 lx2 lx3,
    handle_comment valid s lx = Continue s lx1 /\
    interpolation_start valid s lx1 = Continue s lx2 /\
    scan_escape_sequence lx2 = (true, lx3) /\
    lx' = set_result_symbol lx3 ESCAPE_SEQUENCE.
Proof.
  intros Hscan Hkind.
  assert (Hin : in_string s = true).
  { apply scan_effect in Hscan. rewrite Hkind in Hscan.
    inversion Hscan; subst; assumption. }
  unfold tree_sitter_nix_external_scanner_scan, scan_body in Hscan.
  unfold seq at 1 in Hscan. unfold skip_whitespace in Hscan.
  rewrite Hin in Hscan. cbn [negb andb] in Hscan.
  unfold seq at 1 in Hscan.
  pose proof (handle_comment_sound valid s lx) as Sc.
  destruct (handle_comment valid s lx) as [r1 s1 lx1 | s1 lx1] eqn:Ec.
  { exfalso. revert Ec. unfold handle_comment. stage_cases; intros H;
      inversion H; subst; inversion Hscan; subst; discriminate. }
  subst s1. exists lx1.
  unfold seq at 1 in Hscan. unfold handle_string_entry in Hscan.
  rewrite Hin in Hscan. cbn [negb andb] in Hscan.
  unfold seq at 1 in Hscan. unfold inside_string in Hscan.
  rewrite Hin in Hscan.
  unfold seq at 1 in Hscan. unfold string_end in Hscan.
  destruct (valid STRING_END && (lookahead lx1 =? 34)).
  { exfalso. inversion Hscan; subst. discriminate. }
  unfold seq at 1 in Hscan.
  pose proof (interpolation_start_sound valid s lx1 (or_introl Hin)) as Si.
  destruct (interpolation_start valid s lx1) as [r2 s2 lx2 | s2 lx2] eqn:Ei.
  { exfalso. revert Ei. unfold interpolation_start. stage_cases; intros H;
      inversion H; subst; inversion Hscan; subst; discriminate. }
  subst s2. exists lx2.
  unfold seq at 1 in Hscan.
  destruct (escape_sequence valid s lx2) as [r3 s3 lx3 | s3 lx3] eqn:Ee.
  - revert Ee. unfold escape_sequence.
    destruct (valid ESCAPE_SEQUENCE); [| discriminate].
    destruct (scan_escape_sequence lx2) as [found lx3'] eqn:E3.
    destruct found; [| discriminate].
    intros H. inversion H; subst. inversion Hscan; subst.
    exists lx3'. auto.
  - exfalso.
    pose proof (after_string_block_never valid ESCAPE_SEQUENCE
                  (or_introl eq_refl)) as Hn.
    pose proof (seq_never_returns ESCAPE_SEQUENCE _ _
                  (string_content_never_escape valid) Hn s3 lx3) as Hn'.
    unfold seq in Hn', Hscan.
    destruct (string_content valid s3 lx3) as [r4 s4 lx4 | s4 lx4].
    + inversion Hscan; subst. now apply (Hn' s' lx').
    + destruct (inside_indented_string valid s4 lx4)
        as [r5 s5 lx5 | s5 lx5].
      * inversion Hscan; subst. now apply (Hn' s' lx').
      * destruct (interpolation_end valid s5 lx5) as [r6 s6 lx6 | s6 lx6];
          inversion Hscan; subst.
        now apply (Hn' s' lx').
Qed.

Lemma consumed_nil_lookahead (lx lx1 : TSLexer) :
  consumed lx lx1 [] -> lookahead lx1 = lookahead lx.
Proof.
  intros (Hi & _ & _ & _ & Hp & _). unfold lookahead.
  rewrite Hi, Hp. simpl. now rewrite Nat.add_0_r.
Qed.

Lemma scan_escape_sequence_consumed (lx lx1 : TSLexer) :
  scan_escape_sequence lx = (true, lx1) ->
  exists esc, consumed lx lx1 esc /\ escape_form esc.
Proof.
  intros H. apply scan_escape_sequence_true in H.
  destruct H as (Hb & [(Hs & ->) | (Hx & H1 & H2 & ->)]).
  - exists [92; lookahead (advance lx)]. split.
    + apply (consumed_trans lx (advance lx) _ [92] [_]).
      * rewrite <- Hb. apply consumed_advance. lia.
      * apply consumed_advance. now apply is_simple_escape_nonzero.
    + left. eexists. split; [exact Hs | reflexivity].
  - exists [92; 120; lookahead (advance (advance lx));
            lookahead (advance (advance (advance lx)))].
    split.
    + apply (consumed_trans lx (advance lx) _ [92] [_; _; _]).
      { rewrite <- Hb. apply consumed_advance. lia. }
      apply (consumed_trans _ (advance (advance lx)) _ [120] [_; _]).
      { rewrite <- Hx. apply consumed_advance. lia. }
      apply (consumed_trans _ (advance (advance (advance lx))) _ [_] [_]).
      { apply consumed_advance. now apply is_hex_digit_nonzero. }
      apply consumed_advance. now apply is_hex_digit_nonzero.
    + right. do 2 eexists. split; [exact H1 |]. split; [exact H2 |].
      reflexivity.
Qed.

(** Every escape-sequence token ends with a recognised form, which the
    escape rule consumed character by character; in front of it the token
    holds at most a slash and a dollar sign that the comment rule and the
    interpolation rule looked at, and nothing when the call started at the
    backslash. *)
Theorem escape_sequence_token_shape (s : Scanner) (inp : list Z) (pos : nat)
    (valid : valid_symbols) (s' : Scanner) (lx' : TSLexer) :
  scan s (lexer_start inp pos) valid = (true, s', lx') ->
  result_symbol lx' = ESCAPE_SEQUENCE ->
  exists pre esc,
    token_text lx' = pre ++ esc /\
    position lx' = (pos + length pre + length esc)%nat /\
    (pre = [] \/ pre = [47] \/ pre = [36] \/ pre = [47; 36]) /\
    escape_form esc /\
    (lookahead (lexer_start inp pos) = 92 -> pre = []).
Proof.
  intros Hscan Hkind.
  destruct (escape_sequence_origin _ _ _ _ _ Hscan Hkind)
    as (lx1 & lx2 & lx3 & Ec & Ei & E3 & ->).
  destruct (scan_escape_sequence_consumed _ _ E3) as (esc & C3 & Hesc).
  pose proof (scan_escape_sequence_true _ _ E3) as [Hb2 _].
  apply handle_comment_continue in Ec.
  apply interpolation_start_continue in Ei.
  assert (Hpre : exists pre,
             consumed (lexer_start inp pos) lx2 pre /\
             (pre = [] \/ pre = [47] \/ pre = [36] \/ pre = [47; 36]) /\
             (lookahead (lexer_start inp pos) = 92 -> pre = [])).
  { destruct Ec as [(p1 & C1 & Hp1) | Hz].
    2: { exfalso. destruct Ei as [-> | (C2 & _)];
           [lia | apply consumed_lookahead in C2; lia]. }
    destruct Ei as [-> | (C2 & _)].
    - exists p1. split; [exact C1 |].
      destruct Hp1 as [-> | ->]; split; auto.
      intros H. apply consumed_lookahead in C1. lia.
    - exists (p1 ++ [36]). split; [eapply consumed_trans; eauto |].
      destruct Hp1 as [-> | ->]; simpl; split; auto.
      + intros H. apply consumed_lookahead in C2.
        apply consumed_nil_lookahead in C1. lia.
      + intros H. apply consumed_lookahead in C1. lia. }
  destruct Hpre as (pre & C & Hshape & Hstart).
  pose proof (consumed_trans _ _ _ _ _ C C3) as (Hi & Hs & He & _ & Hp & Hk).
  cbn [lexer_start input position token_start token_end] in Hi, Hs, He, Hp, Hk.
  exists pre, esc. repeat split; try assumption.
  - rewrite (token_text_unmarked _ (length (pre ++ esc))).
    + cbn [set_result_symbol input token_start]. rewrite Hs, Hi, Hk.
      rewrite <- (Nat.add_0_r (length (pre ++ esc))).
      rewrite firstn_app_2. simpl. apply app_nil_r.
    + exact He.
    + cbn [set_result_symbol token_start position]. now rewrite Hs, Hp.
  - cbn [set_result_symbol position]. rewrite Hp, length_app. lia.
Qed.

(** ** The content loop of an indented string *)

Lemma scan_indented_string_content_loop_spec (fuel : nat) :
  forall (lx : TSLexer) (h : bool) (q : Z),
    (remaining lx < fuel)%nat ->
    token_end lx = Some (position lx) ->
    exists lx',
      scan_indented_string_content_loop fuel lx h q =
      (h || (0 <? indented_marked q (skipn (position lx) (input lx)))%nat,
       lx') /\
      input lx' = input lx /\
      token_start lx' = token_start lx /\
      result_symbol lx' = result_symbol lx /\
      token_end lx' =
      Some (position lx +
            indented_marked q (skipn (position lx) (input lx)))%nat.
Proof.
  induction fuel as [| fuel IH]; intros lx h q Hfuel Hmark; [lia |].
  simpl.
  destruct (lookahead lx =? 0) eqn:H0.
  { apply Z.eqb_eq in H0. rewrite lookahead_hd in H0.
    destruct (skipn (position lx) (input lx)) as [| c r]; simpl in *.
    - rewrite orb_false_r, Nat.add_0_r. exists lx. auto.
    - subst c. simpl. rewrite orb_false_r, Nat.add_0_r. exists lx. auto. }
  assert (N0 : lookahead lx <> 0) by (now apply Z.eqb_neq).
  pose proof (skipn_advance lx N0) as Hrest.
  pose proof (advance_position lx N0) as Hpos.
  pose proof (remaining_advance lx N0) as Hrem.
  assert (Hnext : lookahead (advance lx) =
                  hd 0 (skipn (position (advance lx)) (input lx)))
    by (rewrite lookahead_hd, advance_input; reflexivity).
  assert (Hcont : forall q',
            exists lx',
              scan_indented_string_content_loop fuel (mark_end (advance lx))
                true q' =
              (true, lx') /\
              input lx' = input lx /\
              token_start lx' = token_start lx /\
              result_symbol lx' = result_symbol lx /\
              token_end lx' =
              Some (position lx +
                    S (indented_marked q'
                         (skipn (position (advance lx)) (input lx))))%nat).
  { intros q'.
    destruct (IH (mark_end (advance lx)) true q')
      as (lx' & E & Hi & Hs & Hr & He).
    - unfold remaining in *. simpl. lia.
    - reflexivity.
    - exists lx'. cbn [mark_end position input token_start result_symbol]
        in *.
      rewrite advance_input in *. rewrite advance_token_start in Hs.
      rewrite advance_result_symbol in Hr.
      repeat split; try assumption.
      rewrite He, Hpos. f_equal. lia. }
  assert (Hstop : exists lx',
             (h, advance lx) = (h || false, lx') /\
             input lx' = input lx /\
             token_start lx' = token_start lx /\
             result_symbol lx' = result_symbol lx /\
             token_end lx' = Some (position lx + 0)%nat).
  { exists (advance lx).
    rewrite orb_false_r, Nat.add_0_r, advance_input, advance_token_start,
      advance_token_end, advance_result_symbol. auto. }
  rewrite Hrest. cbn [indented_marked]. rewrite H0.
  destruct (lookahead lx =? 39) eqn:H39.
  - destruct (q + 1 =? 2) eqn:Hq.
    + exact Hstop.
    + change (0 <? S ?n)%nat with true. rewrite orb_true_r. apply Hcont.
  - destruct (lookahead lx =? 36) eqn:H36; cbn [andb].
    + rewrite <- Hnext.
      destruct (lookahead (advance lx) =? 123) eqn:H123.
      * exact Hstop.
      * change (0 <? S ?n)%nat with true. rewrite orb_true_r. apply Hcont.
    + change (0 <? S ?n)%nat with true. rewrite orb_true_r. apply Hcont.
Qed.

Lemma scan_indented_string_content_spec (lx : TSLexer) :
  exists lx',
    scan_indented_string_content lx =
    ((0 <? indented_marked 0 (skipn (position lx) (input lx)))%nat, lx') /\
    input lx' = input lx /\
    token_start lx' = token_start lx /\
    result_symbol lx' = result_symbol lx /\
    token_end lx' =
    Some (position lx +
          indented_marked 0 (skipn (position lx) (input lx)))%nat.
Proof.
  unfold scan_indented_string_content.
  destruct (scan_indented_string_content_loop_spec (S (remaining lx))
              (mark_end lx) false 0) as (lx' & E & H);
    [unfold remaining; simpl; lia | reflexivity |].
  exists lx'. split; [exact E | exact H].
Qed.

Lemma body_ok_tail (c : Z) (body : list Z) :
  body_ok (c :: body) -> body_ok body.
Proof.
  intros (H0 & Hq & Hi). simpl in *.
  apply orb_false_elim in Hq. apply orb_false_elim in Hi.
  repeat split; tauto.
Qed.

Lemma closes_cons (q : Z) (c : Z) (body : list Z) :
  closes q (c :: body) = closes (if c =? 39 then 1 else 0) body.
Proof.
  destruct body as [| d body]; simpl; [| reflexivity].
  now destruct (c =? 39).
Qed.

(** On a body followed by the closing pair the loop marks the whole body,
    and one character more unless the closing pair follows a quote,
    whatever comes after the pair. *)
Lemma indented_marked_body (body tail : list Z) :
  forall q,
    body_ok body ->
    q = 0 \/ (q = 1 /\ hd 0 body <> 39) ->
    indented_marked q (body ++ 39 :: 39 :: tail) =
    (length body + if closes q body then 0 else 1)%nat.
Proof.
  induction body as [| c body IH]; intros q Hok Hq.
  - destruct Hq as [-> | [-> _]]; reflexivity.
  - pose proof (body_ok_tail _ _ Hok) as Hok'.
    destruct Hok as (H0 & Hdq & Hio).
    assert (Hc0 : (c =? 0) = false)
      by (apply Z.eqb_neq; intros ->; apply H0; now left).
    simpl in Hdq, Hio.
    apply orb_false_elim in Hdq. destruct Hdq as [Hdq _].
    apply orb_false_elim in Hio. destruct Hio as [Hio _].
    rewrite closes_cons.
    cbn [app indented_marked length]. rewrite Hc0.
    destruct (c =? 39) eqn:Hc39.
    + assert (q = 0).
      { destruct Hq as [-> | [_ Hh]]; [reflexivity |].
        simpl in Hh. apply Z.eqb_eq in Hc39. contradiction. }
      subst q. cbn [Z.add Z.eqb Pos.eqb].
      simpl in Hdq. rewrite IH; [lia | exact Hok' |].
      right. split; [reflexivity |]. now apply Z.eqb_neq.
    + assert (Hnext : (c =? 36) && (hd 0 (body ++ 39 :: 39 :: tail) =? 123)
                      = false).
      { destruct (c =? 36); [| reflexivity]. simpl in *.
        destruct body; [reflexivity | exact Hio]. }
      rewrite Hnext. rewrite IH; [lia | exact Hok' | now left].
Qed.

(** ** C1: an indented string from its opening to its closing pair *)

Lemma advance_over (lx : TSLexer) (c : Z) (r : list Z) :
  skipn (position lx) (input lx) = c :: r ->
  c <> 0 ->
  lookahead lx = c /\
  position (advance lx) = S (position lx) /\
  skipn (position (advance lx)) (input (advance lx)) = r.
Proof.
  intros Hk Hc.
  assert (Hl : lookahead lx = c) by (rewrite lookahead_hd, Hk; reflexivity).
  assert (N0 : lookahead lx <> 0) by congruence.
  split; [exact Hl |]. split; [now apply advance_position |].
  pose proof (skipn_advance lx N0) as H. rewrite Hk in H.
  rewrite advance_input. now inversion H.
Qed.

Lemma indented_string_end_skip (valid : valid_symbols) (s : Scanner)
    (lx : TSLexer) :
  lookahead lx <> 39 -> indented_string_end valid s lx = Continue s lx.
Proof.
  intros H. unfold indented_string_end. apply Z.eqb_neq in H.
  now rewrite H, andb_false_r.
Qed.

Lemma indented_string_end_single (valid : valid_symbols) (s : Scanner)
    (lx : TSLexer) :
  lookahead lx = 39 -> lookahead (advance lx) <> 39 ->
  indented_string_end valid s lx =
  Continue s (if valid INDENTED_STRING_END then advance lx else lx).
Proof.
  intros H1 H2. unfold indented_string_end. apply Z.eqb_neq in H2.
  rewrite H1, H2. now destruct (valid INDENTED_STRING_END).
Qed.

Lemma interpolation_start_skip (valid : valid_symbols) (s : Scanner)
    (lx : TSLexer) :
  lookahead lx <> 36 -> interpolation_start valid s lx = Continue s lx.
Proof.
  intros H. unfold interpolation_start. apply Z.eqb_neq in H.
  now rewrite H, andb_false_r.
Qed.

Lemma interpolation_start_bare (valid : valid_symbols) (s : Scanner)
    (lx : TSLexer) :
  lookahead lx = 36 -> lookahead (advance lx) <> 123 ->
  interpolation_start valid s lx =
  Continue s (if valid INTERPOLATION_START then advance lx else lx).
Proof.
  intros H1 H2. unfold interpolation_start. apply Z.eqb_neq in H2.
  rewrite H1, H2. now destruct (valid INTERPOLATION_START).
Qed.

(** Inside an indented string, at a character that starts no comment, a
    call runs straight into the indented-string block. *)
Lemma scan_body_in_indented_string (valid : valid_symbols) (s : Scanner)
    (lx : TSLexer) :
  in_string s = false -> in_indented_string s = true ->
  lookahead lx <> 35 -> lookahead lx <> 47 ->
  scan_body valid s lx =
  ((indented_string_end valid ;; interpolation_start valid ;;
    indented_string_content valid) ;; interpolation_end valid) s lx.
Proof.
  intros His Hii H35 H47.
  unfold scan_body, skip_whitespace, handle_comment, handle_string_entry,
    inside_string, inside_indented_string, seq.
  assert (Hc : scan_comment lx = (false, lx))
    by (now apply scan_comment_none).
  destruct (valid COMMENT) eqn:Hvc;
    repeat (progress (cbn [andb negb]; rewrite ?His, ?Hii, ?Hvc, ?Hc));
    reflexivity.
Qed.

(** The content rule on a body followed by the closing pair. *)
Lemma indented_string_content_on_body (s : Scanner) (lx : TSLexer)
    (body tail : list Z) :
  skipn (position lx) (input lx) = body ++ 39 :: 39 :: tail ->
  body_ok body ->
  exists lx',
    indented_string_content all_valid s lx = Return true s lx' /\
    result_symbol lx' = INDENTED_STRING_CONTENT /\
    input lx' = input lx /\
    token_start lx' = token_start lx /\
    token_end lx' =
    Some (position lx + length body +
          (if closes 0 body then 0 else 1))%nat.
Proof.
  intros Hk Hok.
  destruct (scan_indented_string_content_spec lx)
    as (lx' & E & Hi & Hs & Hr & He).
  rewrite Hk, indented_marked_body in E, He by (auto; now left).
  assert (Hpos : (0 <? length body + (if closes 0 body then 0 else 1))%nat
                 = true).
  { apply Nat.ltb_lt. destruct body; simpl; lia. }
  rewrite Hpos in E.
  exists (set_result_symbol lx' INDENTED_STRING_CONTENT).
  unfold indented_string_content. cbn [all_valid]. rewrite E.
  cbn [set_result_symbol result_symbol input token_start token_end].
  repeat split; try assumption.
  rewrite He. f_equal. lia.
Qed.

Ltac lia_if :=
  repeat match goal with
         | |- context [if ?c then _ else _] => destruct c
         end;
  lia.

(** The second call of C1: the content token of a body that starts
    neither a comment nor, alone, a closing pair. *)
Lemma indented_content_scan (s : Scanner) (lx : TSLexer)
    (body tail : list Z) :
  in_string s = false -> in_indented_string s = true ->
  skipn (position lx) (input lx) = body ++ 39 :: 39 :: tail ->
  body_ok body ->
  body <> [] -> body <> [39] ->
  hd 0 body <> 35 -> hd 0 body <> 47 ->
  exists lx',
    scan s lx all_valid = (true, s, lx') /\
    result_symbol lx' = INDENTED_STRING_CONTENT /\
    input lx' = input lx /\
    token_start lx' = token_start lx /\
    token_end lx' =
    Some (position lx + length body +
          (if (last body 0 =? 39)%Z then 0 else 1))%nat.
Proof.
  intros His Hii Hk Hok Hne Hnq H35 H47.
  destruct body as [| c0 b0]; [contradiction |]. clear Hne.
  simpl in H35, H47.
  pose proof (body_ok_tail _ _ Hok) as Hok0.
  assert (Hc0 : c0 <> 0) by (intros ->; apply Hok; now left).
  destruct (advance_over lx c0 (b0 ++ 39 :: 39 :: tail) Hk Hc0) as (L0 & P1 & K1).
  unfold tree_sitter_nix_external_scanner_scan.
  rewrite scan_body_in_indented_string by congruence.
  unfold seq.
  destruct (Z.eq_dec c0 39) as [-> | N39].
  - (* the body starts with a quote, which the end rule reads and leaves *)
    destruct b0 as [| c1 b1]; [contradiction |].
    pose proof (body_ok_tail _ _ Hok0) as Hok1.
    assert (Hc1 : c1 <> 0) by (intros ->; apply Hok0; now left).
    assert (Hc1q : c1 <> 39).
    { destruct Hok as (_ & Hdq & _). simpl in Hdq.
      apply orb_false_elim in Hdq. destruct Hdq as [Hdq _].
      now apply Z.eqb_neq. }
    destruct (advance_over (advance lx) c1 (b1 ++ 39 :: 39 :: tail) K1 Hc1)
      as (L1 & P2 & K2).
    rewrite indented_string_end_single by congruence. cbn [all_valid].
    destruct (Z.eq_dec c1 36) as [-> | N36].
    + assert (L2 : lookahead (advance (advance lx)) <> 123).
      { rewrite lookahead_hd, K2.
        destruct Hok0 as (_ & _ & Hio). simpl in Hio.
        apply orb_false_elim in Hio. destruct Hio as [Hio _].
        destruct b1; simpl in *; [discriminate | now apply Z.eqb_neq]. }
      rewrite interpolation_start_bare by assumption. cbn [all_valid].
      destruct (indented_string_content_on_body s _ b1 tail K2 Hok1)
        as (lx' & E & Hr & Hi & Hs & He).
      rewrite E. exists lx'.
      rewrite !advance_input in Hi. rewrite !advance_token_start in Hs.
      repeat split; try assumption.
      rewrite He, P2, P1. f_equal.
      destruct b1; simpl; lia_if.
    + rewrite interpolation_start_skip by congruence.
      destruct (indented_string_content_on_body s _ (c1 :: b1) tail K1 Hok0)
        as (lx' & E & Hr & Hi & Hs & He).
      rewrite E. exists lx'.
      rewrite !advance_input in Hi. rewrite !advance_token_start in Hs.
      repeat split; try assumption.
      rewrite He, P1. f_equal.
      change (last (39 :: c1 :: b1) 0) with (last (c1 :: b1) 0).
      unfold closes. cbn [length]. lia_if.
  - rewrite indented_string_end_skip by congruence.
    destruct (Z.eq_dec c0 36) as [-> | N36].
    + assert (L1 : lookahead (advance lx) <> 123).
      { rewrite lookahead_hd, K1.
        destruct Hok as (_ & _ & Hio). simpl in Hio.
        apply orb_false_elim in Hio. destruct Hio as [Hio _].
        destruct b0; simpl in *; [discriminate | now apply Z.eqb_neq]. }
      rewrite interpolation_start_bare by assumption. cbn [all_valid].
      destruct (indented_string_content_on_body s _ b0 tail K1 Hok0)
        as (lx' & E & Hr & Hi & Hs & He).
      rewrite E. exists lx'.
      rewrite !advance_input in Hi. rewrite !advance_token_start in Hs.
      repeat split; try assumption.
      rewrite He, P1. f_equal.
      destruct b0; simpl; lia_if.
    + rewrite interpolation_start_skip by congruence.
      destruct (indented_string_content_on_body s _ (c0 :: b0) tail Hk Hok)
        as (lx' & E & Hr & Hi & Hs & He).
      rewrite E. exists lx'.
      repeat split; try assumption.
Qed.

Lemma indented_string_start_scan (s : Scanner) (lx : TSLexer) :
  in_string s = false -> in_indented_string s = false ->
  lookahead lx = 39 -> lookahead (advance lx) = 39 ->
  scan s lx all_valid =
  (true, set_in_indented_string s true,
   set_result_symbol (advance (advance lx)) INDENTED_STRING_START).
Proof.
  intros His Hii H1 H2.
  unfold tree_sitter_nix_external_scanner_scan, scan_body, skip_whitespace,
    handle_comment, handle_string_entry, string_start, indented_string_start,
    seq.
  assert (Hw : skip_whitespace_loop (S (remaining lx)) lx = lx)
    by (apply skip_whitespace_loop_stop; rewrite H1; reflexivity).
  assert (Hc : scan_comment lx = (false, lx))
    by (apply scan_comment_none; lia).
  repeat (progress (cbn [andb negb all_valid Z.eqb Pos.eqb];
                    rewrite ?His, ?Hii, ?Hw, ?Hc, ?H1, ?H2)).
  reflexivity.
Qed.

Lemma indented_string_end_scan (s : Scanner) (lx : TSLexer) :
  in_string s = false -> in_indented_string s = true ->
  lookahead lx = 39 -> lookahead (advance lx) = 39 ->
  scan s lx all_valid =
  (true, set_in_indented_string s false,
   set_result_symbol (advance (advance lx)) INDENTED_STRING_END).
Proof.
  intros His Hii H1 H2.
  unfold tree_sitter_nix_external_scanner_scan.
  rewrite scan_body_in_indented_string by (assumption || lia).
  unfold seq, indented_string_end.
  cbn [all_valid andb]. now rewrite H1, H2.
Qed.

Lemma skipn_length_app (a b : list Z) : skipn (length a) (a ++ b) = b.
Proof. induction a as [| x a IH]; simpl; auto. Qed.

(** By design the comment rule is tried first, inside a string too: with
    every kind admissible a body that starts with a hash sign is handed
    back as a comment that runs over the closing pair. *)
Lemma indented_string_counterexample :
  body_ok (chars "#a") /\ chars "#a" <> [] /\
  chars "''#a''" = [39; 39] ++ chars "#a" ++ [39; 39] /\
  scan tree_sitter_nix_external_scanner_create
       (lexer_start (chars "''#a''") 0) all_valid =
  (true, mkScanner false true 0 0 0,
   mkLexer (chars "''#a''") 2 0 None INDENTED_STRING_START) /\
  scan (mkScanner false true 0 0 0) (lexer_start (chars "''#a''") 2)
       all_valid =
  (true, mkScanner false true 0 0 0,
   mkLexer (chars "''#a''") 6 2 None COMMENT) /\
  token_text (mkLexer (chars "''#a''") 6 2 None COMMENT) = chars "#a''".
Proof.
  repeat split; try reflexivity; try discriminate.
  simpl. intros [H | [H | []]]; discriminate.
Qed.

(** C1.  On the indented string [''a''], scanned from the zero state with
    every kind admissible, the code hands back indented-string-start for
    the opening pair and then a content token [a'], the body and the first
    quote of the closing pair: the content loop marks the end of the token
    after the first quote of a pair (line 78) and only then, at the second
    quote, returns where its comment says to back up.  The third call
    stands at the single quote that is left and produces no token, so no
    indented-string-end is handed back and the scanner stays inside the
    indented string.  The claim says: content [a], then
    indented-string-end. *)
Theorem indented_string_closing_quote_slip :
  scan_tokens 3 tree_sitter_nix_external_scanner_create (chars "''a''") 0
    all_valid =
  ([(INDENTED_STRING_START, chars "''");
    (INDENTED_STRING_CONTENT, chars "a'")],
   mkScanner false true 0 0 0, 4%nat).
Proof. vm_compute. reflexivity. Qed.

(** Where the closing pair is found.  Take a body that is not empty, has
    no NUL, no two quotes in a row and no dollar sign followed by an
    opening brace, does not start with a hash sign or a slash and is not a
    single quote, and put it between two pairs of quotes, with nothing
    after the closing pair.  From the zero state, with every
    kind admissible, the first call hands back indented-string-start for
    the opening pair; the second call, started where that token ends,
    hands back one indented-string-content token that starts right after
    the opening pair and holds the whole body, lone quotes included.  When
    the body ends with a quote, that token is exactly the body, and a third
    call hands back indented-string-end for exactly the closing pair, at
    the end of the input, and the state is zero again. *)
Theorem indented_string_tokens (body : list Z) :
  body_ok body ->
  body <> [] -> body <> [39] ->
  hd 0 body <> 35 -> hd 0 body <> 47 ->
  let inp := [39; 39] ++ body ++ [39; 39] in
  exists s1 lx1 s2 lx2,
    scan tree_sitter_nix_external_scanner_create (lexer_start inp 0)
         all_valid = (true, s1, lx1) /\
    result_symbol lx1 = INDENTED_STRING_START /\
    token_start lx1 = 0%nat /\
    token_end_position lx1 = 2%nat /\
    token_text lx1 = [39; 39] /\
    scan s1 (lexer_start inp (token_end_position lx1)) all_valid =
    (true, s2, lx2) /\
    result_symbol lx2 = INDENTED_STRING_CONTENT /\
    token_start lx2 = 2%nat /\
    (exists extra, token_text lx2 = body ++ extra) /\
    (last body 0 = 39 ->
     token_text lx2 = body /\
     exists s3 lx3,
       scan s2 (lexer_start inp (token_end_position lx2)) all_valid =
       (true, s3, lx3) /\
       result_symbol lx3 = INDENTED_STRING_END /\
       token_start lx3 = (2 + length body)%nat /\
       token_text lx3 = [39; 39] /\
       token_end_position lx3 = length inp /\
       s3 = tree_sitter_nix_external_scanner_create).
Proof.
  intros Hok Hne Hnq H35 H47 inp.
  set (s1 := mkScanner false true 0 0 0).
  set (lx1 := mkLexer inp 2 0 None INDENTED_STRING_START).
  assert (E1 : scan tree_sitter_nix_external_scanner_create
                    (lexer_start inp 0) all_valid = (true, s1, lx1))
    by (rewrite indented_string_start_scan; reflexivity).
  destruct (indented_content_scan s1 (lexer_start inp 2) body [])
    as (lx2 & E2 & Hr2 & Hi2 & Hs2 & He2); try assumption; try reflexivity.
  cbn [lexer_start input token_start position] in Hi2, Hs2, He2.
  exists s1, lx1, s1, lx2.
  assert (Htext : token_text lx2 =
                  body ++ firstn (if last body 0 =? 39 then 0 else 1)
                            [39; 39]).
  { rewrite (token_text_marked _ _ He2), Hs2, Hi2.
    change (skipn 2 inp) with (body ++ [39; 39]).
    replace (2 + length body + (if (last body 0 =? 39)%Z then 0 else 1) - 2)%nat
      with (length body + (if (last body 0 =? 39)%Z then 0 else 1))%nat
      by lia.
    apply firstn_app_2. }
  repeat split; try assumption; try reflexivity.
  - eexists. exact Htext.
  - rewrite Htext. apply Z.eqb_eq in H. rewrite H. apply app_nil_r.
  - apply Z.eqb_eq in H.
    assert (Hend : token_end_position lx2 = (2 + length body)%nat).
    { unfold token_end_position. rewrite He2, H. lia. }
    rewrite Hend.
    set (lx := lexer_start inp (2 + length body)).
    assert (K0 : skipn (position lx) (input lx) = [39; 39]).
    { subst lx inp. cbn [lexer_start position input].
      change (2 + length body)%nat with (S (S (length body))).
      cbn [app skipn]. apply skipn_length_app. }
    destruct (advance_over lx 39 [39] K0) as (L0 & P1 & K1); [lia |].
    destruct (advance_over (advance lx) 39 [] K1) as (L1 & P2 & K2); [lia |].
    exists tree_sitter_nix_external_scanner_create,
      (set_result_symbol (advance (advance lx)) INDENTED_STRING_END).
    assert (Hp : position (advance (advance lx)) = (2 + length body + 2)%nat)
      by (rewrite P2, P1; subst lx; simpl; lia).
    assert (Hts : token_start (advance (advance lx)) = (2 + length body)%nat)
      by (rewrite !advance_token_start; reflexivity).
    assert (Hte : token_end (advance (advance lx)) = None)
      by (rewrite !advance_token_end; reflexivity).
    repeat split.
    + rewrite indented_string_end_scan by (reflexivity || assumption).
      reflexivity.
    + exact Hts.
    + rewrite (token_text_unmarked _ 2).
      * cbn [set_result_symbol token_start input].
        rewrite Hts, !advance_input.
        change (skipn (2 + length body) (input lx))
          with (skipn (position lx) (input lx)).
        now rewrite K0.
      * exact Hte.
      * cbn [set_result_symbol token_start position]. rewrite Hts, Hp. lia.
    + unfold token_end_position. cbn [set_result_symbol token_end position].
      rewrite Hte, Hp. subst inp. rewrite !length_app. simpl. lia.
Qed.

Lemma indented_string_tokens_witness :
  exists s1 lx1 s2 lx2,
    scan tree_sitter_nix_external_scanner_create
         (lexer_start ([39; 39] ++ chars "it's $1 '" ++ [39; 39]) 0)
         all_valid = (true, s1, lx1) /\
    result_symbol lx1 = INDENTED_STRING_START /\
    token_start lx1 = 0%nat /\
    token_end_position lx1 = 2%nat /\
    token_text lx1 = [39; 39] /\
    scan s1 (lexer_start ([39; 39] ++ chars "it's $1 '" ++ [39; 39])
               (token_end_position lx1)) all_valid =
    (true, s2, lx2) /\
    result_symbol lx2 = INDENTED_STRING_CONTENT /\
    token_start lx2 = 2%nat /\
    (exists extra, token_text lx2 = chars "it's $1 '" ++ extra) /\
    (last (chars "it's $1 '") 0 = 39 ->
     token_text lx2 = chars "it's $1 '" /\
     exists s3 lx3,
       scan s2 (lexer_start ([39; 39] ++ chars "it's $1 '" ++ [39; 39])
                  (token_end_position lx2)) all_valid =
       (true, s3, lx3) /\
       result_symbol lx3 = INDENTED_STRING_END /\
       token_start lx3 = (2 + length (chars "it's $1 '"))%nat /\
       token_text lx3 = [39; 39] /\
       token_end_position lx3 =
       length ([39; 39] ++ chars "it's $1 '" ++ [39; 39]) /\
       s3 = tree_sitter_nix_external_scanner_create).
Proof.
  apply (indented_string_tokens (chars "it's $1 '")).
  - repeat split; try reflexivity.
    simpl. intuition discriminate.
  - discriminate.
  - discriminate.
  - discriminate.
  - discriminate.
Defined.

Lemma escape_sequence_token_shape_witness :
  exists pre esc,
    token_text (mkLexer ([47; 36] ++ chars "\x4f") 6 0 None ESCAPE_SEQUENCE)
    = pre ++ esc /\
    position (mkLexer ([47; 36] ++ chars "\x4f") 6 0 None ESCAPE_SEQUENCE)
    = (0 + length pre + length esc)%nat /\
    (pre = [] \/ pre = [47] \/ pre = [36] \/ pre = [47; 36]) /\
    escape_form esc /\
    (lookahead (lexer_start ([47; 36] ++ chars "\x4f") 0) = 92 -> pre = []).
Proof.
  apply (escape_sequence_token_shape (mkScanner true false 0 0 0)
           ([47; 36] ++ chars "\x4f") 0 all_valid
           (mkScanner true false 0 0 0)).
  - reflexivity.
  - reflexivity.
Defined.

(** ** The scenarios of the specification *)

(** A plain string with two escapes and a dollar sign that opens no
    interpolation: start, content, escape, content, escape, content, end. *)
Example plain_string_scenario :
  scan_tokens 10 tree_sitter_nix_external_scanner_create
    ([34] ++ chars "he said \" ++ [34] ++ chars "hi\" ++ [34] ++
     chars " then $5 not-interp" ++ [34]) 0 all_valid =
  ([ (STRING_START, [34]);
     (STRING_CONTENT, chars "he said ");
     (ESCAPE_SEQUENCE, [92; 34]);
     (STRING_CONTENT, chars "hi");
     (ESCAPE_SEQUENCE, [92; 34]);
     (STRING_CONTENT, chars " then $5 not-interp");
     (STRING_END, [34]) ],
   tree_sitter_nix_external_scanner_create, 35%nat).
Proof. vm_compute. reflexivity. Qed.

(** A line comment ends before the newline; a block comment with a block
    comment inside ends at the outer closer. *)
Example comment_scenarios :
  scan_tokens 1 tree_sitter_nix_external_scanner_create
    (chars "# comment to end of line" ++ [10] ++ chars "rest") 0 all_valid =
  ([(COMMENT, chars "# comment to end of line")],
   tree_sitter_nix_external_scanner_create, 24%nat) /\
  scan_tokens 1 tree_sitter_nix_external_scanner_create
    (chars "/* a /* nested */ b */ rest") 0 all_valid =
  ([(COMMENT, chars "/* a /* nested */ b */")],
   tree_sitter_nix_external_scanner_create, 22%nat).
Proof. split; vm_compute; reflexivity. Qed.

(** ** The two content loops, summed up *)

(** [scan_string_content] marks the end of the token after a run of unread
    characters that holds no NUL, double quote or backslash and no dollar
    sign followed by an opening brace, and that cannot be made longer; it
    returns true exactly when the run is not empty. *)
Theorem scan_string_content_takes_longest_run (lx : TSLexer) :
  exists lx' run,
    scan_string_content lx = (nonempty run, lx') /\
    input lx' = input lx /\
    token_start lx' = token_start lx /\
    token_end lx' = Some (position lx + length run)%nat /\
    skipn (position lx) (input lx) =
    run ++ skipn (length run) (skipn (position lx) (input lx)) /\
    (forall c, In c run -> c <> 0 /\ c <> 34 /\ c <> 92) /\
    has_interp_open run = false /\
    at_content_stop (skipn (length run) (skipn (position lx) (input lx))) =
    true.
Proof.
  destruct (scan_string_content_spec lx) as (lx' & E & Hi & Hs & _ & He).
  exists lx', (content_run (skipn (position lx) (input lx))).
  repeat split; try assumption.
  - apply content_run_prefix.
  - now apply content_run_chars in H.
  - now apply content_run_chars in H.
  - now apply content_run_chars in H.
  - apply content_run_no_interp_open.
  - apply content_run_maximal.
Qed.

(** [scan_indented_string_content] marks the end of the token
    [indented_marked] characters on, the first quote of a pair included,
    and returns true exactly when that is at least one character. *)
Theorem scan_indented_string_content_marks (lx : TSLexer) :
  exists lx',
    scan_indented_string_content lx =
    ((0 <? indented_marked 0 (skipn (position lx) (input lx)))%nat, lx') /\
    input lx' = input lx /\
    token_start lx' = token_start lx /\
    token_end lx' =
    Some (position lx +
          indented_marked 0 (skipn (position lx) (input lx)))%nat /\
    indented_marked 0 (chars "a''") = 2%nat /\
    indented_marked 0 (chars "a'b''") = 4%nat /\
    indented_marked 0 (chars "a''b") = 2%nat.
Proof.
  destruct (scan_indented_string_content_spec lx)
    as (lx' & E & Hi & Hs & _ & He).
  exists lx'. repeat split; assumption || reflexivity.
Qed.

(** * The rest of the scanner *)

(** ** Whitespace *)

Lemma skip_whitespace_loop_spec (fuel : nat) :
  forall lx : TSLexer,
    (remaining lx < fuel)%nat ->
    token_start lx = position lx ->
    skip_whitespace_loop fuel lx =
    mkLexer (input lx)
            (position lx +
             count_whitespace (skipn (position lx) (input lx)))
            (position lx +
             count_whitespace (skipn (position lx) (input lx)))
            (token_end lx) (result_symbol lx).
Proof.
  induction fuel as [| fuel IH]; intros lx Hfuel Hts; [lia |].
  simpl. rewrite lookahead_hd.
  destruct (skipn (position lx) (input lx)) as [| c r] eqn:Hk.
  - simpl. clear Hk IH Hfuel. destruct lx; simpl in *; subst.
    f_equal; lia.
  - simpl. destruct (is_whitespace c) eqn:Hw.
    + assert (Hc : c <> 0) by (intros ->; discriminate).
      assert (Hl : lookahead lx = c) by (rewrite lookahead_hd, Hk; auto).
      assert (N0 : lookahead lx <> 0) by congruence.
      pose proof (lookahead_in_range lx N0) as R.
      pose proof (remaining_skip lx N0) as Hrem.
      assert (Hs : skip lx =
                   mkLexer (input lx) (S (position lx)) (S (position lx))
                           (token_end lx) (result_symbol lx)).
      { unfold skip, lexer_advance. apply Nat.ltb_lt in R. now rewrite R. }
      rewrite IH; [| lia | rewrite Hs; reflexivity].
      rewrite Hs. cbn [input position token_end result_symbol].
      pose proof (skipn_nth_cons (input lx) (position lx) R) as E.
      rewrite Hk in E.
      assert (Hr : r = skipn (S (position lx)) (input lx)) by congruence.
      rewrite <- Hr. f_equal; lia.
    + clear Hk IH Hfuel. destruct lx; simpl in *; subst. f_equal; lia.
Qed.

(** Outside both string modes a call first skips the whitespace in front
    of it, and then goes on exactly as a call started behind the
    whitespace: the skipped characters are no part of any token and change
    nothing else. *)
Theorem whitespace_skipped_outside_strings (s : Scanner) (inp : list Z)
    (pos : nat) (valid : valid_symbols) :
  in_string s = false -> in_indented_string s = false ->
  scan s (lexer_start inp pos) valid =
  scan s (lexer_start inp (pos + count_whitespace (skipn pos inp))) valid.
Proof.
  intros His Hii.
  set (lx := lexer_start inp pos).
  set (lx2 := lexer_start inp (pos + count_whitespace (skipn pos inp))).
  assert (H1 : skip_whitespace_loop (S (remaining lx)) lx = lx2).
  { rewrite skip_whitespace_loop_spec by (simpl; lia). reflexivity. }
  assert (H2 : skip_whitespace_loop (S (remaining lx2)) lx2 = lx2).
  { apply skip_whitespace_loop_stop. rewrite <- H1.
    apply skip_whitespace_loop_exit. lia. }
  unfold tree_sitter_nix_external_scanner_scan, scan_body.
  unfold seq, skip_whitespace.
  rewrite His, Hii. cbn [negb andb]. now rewrite H1, H2.
Qed.

Lemma whitespace_skipped_outside_strings_witness :
  scan tree_sitter_nix_external_scanner_create
       (lexer_start (chars "   # note") 0) all_valid =
  scan tree_sitter_nix_external_scanner_create
       (lexer_start (chars "   # note")
          (0 + count_whitespace (skipn 0 (chars "   # note")))) all_valid.
Proof.
  apply (whitespace_skipped_outside_strings
           tree_sitter_nix_external_scanner_create (chars "   # note") 0
           all_valid); reflexivity.
Defined.

(** ** The state after a call *)

(** What a produced token does to the state, by its kind: the two start
    kinds set their mode flag and the two end kinds clear it,
    interpolation-start adds 1 to [interpolation_depth] and sets
    [brace_depth] to 1, interpolation-end subtracts 1 from
    [interpolation_depth] and leaves [brace_depth] at 0, and content,
    escape-sequence and comment tokens leave every field as it was.  The
    counters are [int]s and [interpolation_depth] is below [INT_MAX],
    where the increment overflows. *)
Theorem state_after_token (s : Scanner) (lx : TSLexer)
    (valid : valid_symbols) (s' : Scanner) (lx' : TSLexer) :
  int_range (interpolation_depth s) ->
  interpolation_depth s < INT_MAX ->
  int_range (brace_depth s) ->
  scan s lx valid = (true, s', lx') ->
  s' =
  match result_symbol lx' with
  | STRING_START => set_in_string s true
  | STRING_END => set_in_string s false
  | INDENTED_STRING_START => set_in_indented_string s true
  | INDENTED_STRING_END => set_in_indented_string s false
  | INTERPOLATION_START =>
      set_brace_depth
        (set_interpolation_depth s (interpolation_depth s + 1)) 1
  | INTERPOLATION_END =>
      set_brace_depth
        (set_interpolation_depth s (interpolation_depth s - 1)) 0
  | STRING_CONTENT | INDENTED_STRING_CONTENT | ESCAPE_SEQUENCE | COMMENT => s
  end.
Proof.
  intros Hri Hmax Hrb H. apply scan_effect in H.
  inversion H; subst; try reflexivity.
  - unfold set_brace_depth, set_interpolation_depth.
    cbn [in_string in_indented_string interpolation_depth paren_depth].
    rewrite int_wrap_id by int_bounds. reflexivity.
  - match goal with
    | Hz : int_wrap (brace_depth s - 1) = 0 |- _ =>
        unfold set_brace_depth, set_interpolation_depth;
        cbn [in_string in_indented_string interpolation_depth paren_depth
             brace_depth];
        rewrite Hz, int_wrap_id by int_bounds; reflexivity
    end.
Qed.

Lemma state_after_token_witness :
  mkScanner true false 1 0 1 =
  match result_symbol (mkLexer (chars "a${b}") 3 1 None INTERPOLATION_START)
  with
  | STRING_START => set_in_string (mkScanner true false 0 0 0) true
  | STRING_END => set_in_string (mkScanner true false 0 0 0) false
  | INDENTED_STRING_START =>
      set_in_indented_string (mkScanner true false 0 0 0) true
  | INDENTED_STRING_END =>
      set_in_indented_string (mkScanner true false 0 0 0) false
  | INTERPOLATION_START =>
      set_brace_depth
        (set_interpolation_depth (mkScanner true false 0 0 0)
           (interpolation_depth (mkScanner true false 0 0 0) + 1)) 1
  | INTERPOLATION_END =>
      set_brace_depth
        (set_interpolation_depth (mkScanner true false 0 0 0)
           (interpolation_depth (mkScanner true false 0 0 0) - 1)) 0
  | STRING_CONTENT | INDENTED_STRING_CONTENT | ESCAPE_SEQUENCE | COMMENT =>
      mkScanner true false 0 0 0
  end.
Proof.
  apply (state_after_token (mkScanner true false 0 0 0)
           (lexer_start (chars "a${b}") 1) all_valid
           (mkScanner true false 1 0 1)
           (mkLexer (chars "a${b}") 3 1 None INTERPOLATION_START)).
  - unfold int_range, INT_MIN, INT_MAX; simpl; lia.
  - unfold INT_MAX; simpl; lia.
  - unfold int_range, INT_MIN, INT_MAX; simpl; lia.
  - reflexivity.
Defined.

(** No call touches [paren_depth]: the field is written by deserialize
    alone, so in every state reached from the zero state by scan calls it
    is 0. *)
Theorem reachable_paren_depth_zero (s : Scanner) :
  reachable s -> paren_depth s = 0.
Proof.
  induction 1 as [| s lx valid r s' lx' Hreach IH Hscan]; [reflexivity |].
  apply scan_effect in Hscan.
  inversion Hscan; subst; simpl; exact IH.
Qed.

Lemma reachable_paren_depth_zero_witness :
  paren_depth (scan_run tree_sitter_nix_external_scanner_create
                 nested_interpolation_calls) = 0.
Proof.
  apply (reachable_paren_depth_zero
           (scan_run tree_sitter_nix_external_scanner_create
              nested_interpolation_calls)).
  apply reachable_scan_run, reachable_create.
Defined.

(** ** Serialization, the other way round *)

Lemma to_N_byte_of_int (x : Z) :
  Z.of_N (Byte.to_N (byte_of_int x)) = x mod 256.
Proof.
  assert (Hr : 0 <= x mod 256 < 256) by (apply Z.mod_pos_bound; lia).
  unfold byte_of_int.
  destruct (Byte.of_N (Z.to_N (x mod 256))) as [b |] eqn:E.
  - apply Byte.to_of_N in E. rewrite E. apply Z2N.id. lia.
  - exfalso. apply Byte.of_N_None_iff in E. lia.
Qed.

Lemma int_of_byte_of_int (char_signed : bool) (x : Z) :
  char_range char_signed (int_of_byte char_signed (byte_of_int x)) /\
  (int_of_byte char_signed (byte_of_int x)) mod 256 = x mod 256.
Proof.
  assert (Hr : 0 <= x mod 256 < 256) by (apply Z.mod_pos_bound; lia).
  unfold int_of_byte. cbv zeta. rewrite to_N_byte_of_int.
  unfold char_range.
  destruct char_signed; simpl.
  - destruct (128 <=? x mod 256) eqn:E.
    + apply Z.leb_le in E. split; [lia |].
      replace (x mod 256 - 256) with (x mod 256 + (-1) * 256) by lia.
      rewrite Z.mod_add by lia. apply Z.mod_mod. lia.
    + apply Z.leb_gt in E. split; [lia |]. apply Z.mod_mod. lia.
  - split; [lia |]. apply Z.mod_mod. lia.
Qed.

Lemma char_range_unique (char_signed : bool) (x y : Z) :
  char_range char_signed x -> char_range char_signed y ->
  x mod 256 = y mod 256 -> x = y.
Proof.
  unfold char_range. intros Hx Hy H.
  destruct char_signed.
  - assert (Ex : (x + 128) mod 256 = x + 128) by (apply Z.mod_small; lia).
    assert (Ey : (y + 128) mod 256 = y + 128) by (apply Z.mod_small; lia).
    assert (E : (x + 128) mod 256 = (y + 128) mod 256).
    { rewrite (Z.add_mod x), (Z.add_mod y) by lia. now rewrite H. }
    lia.
  - rewrite !Z.mod_small in H by lia. exact H.
Qed.

Lemma bool_of_byte_of_bool (b : bool) : bool_of_byte (byte_of_bool b) = b.
Proof. now destruct b. Qed.

(** Serializing a state and deserializing the five bytes gives both flags
    back as they were; each counter comes back as the one value in the
    range of [char] that agrees with it modulo 256, whatever the state
    deserialize was given held before.  A depth of 256 comes back as 0. *)
Theorem deserialize_serialize_truncates (char_signed : bool)
    (s0 s : Scanner) :
  let s' := deserialize char_signed s0 (serialize s) in
  in_string s' = in_string s /\
  in_indented_string s' = in_indented_string s /\
  (char_range char_signed (interpolation_depth s') /\
   interpolation_depth s' mod 256 = interpolation_depth s mod 256) /\
  (char_range char_signed (paren_depth s') /\
   paren_depth s' mod 256 = paren_depth s mod 256) /\
  (char_range char_signed (brace_depth s') /\
   brace_depth s' mod 256 = brace_depth s mod 256).
Proof.
  unfold tree_sitter_nix_external_scanner_deserialize,
    tree_sitter_nix_external_scanner_serialize.
  cbn [length Nat.leb nth in_string in_indented_string interpolation_depth
       paren_depth brace_depth].
  rewrite !bool_of_byte_of_bool.
  repeat split; apply int_of_byte_of_int.
Qed.

(** A state whose three counters lie in the range of [char] survives
    serialize followed by deserialize unchanged. *)
Theorem deserialize_serialize_roundtrip (char_signed : bool)
    (s0 s : Scanner) :
  char_range char_signed (interpolation_depth s) ->
  char_range char_signed (paren_depth s) ->
  char_range char_signed (brace_depth s) ->
  deserialize char_signed s0 (serialize s) = s.
Proof.
  intros Hi Hp Hb.
  pose proof (int_of_byte_of_int char_signed (interpolation_depth s))
    as [Ri Mi].
  pose proof (int_of_byte_of_int char_signed (paren_depth s)) as [Rp Mp].
  pose proof (int_of_byte_of_int char_signed (brace_depth s)) as [Rb Mb].
  unfold tree_sitter_nix_external_scanner_deserialize,
    tree_sitter_nix_external_scanner_serialize.
  cbn [length Nat.leb nth].
  rewrite !bool_of_byte_of_bool.
  rewrite (char_range_unique char_signed _ _ Ri Hi Mi),
    (char_range_unique char_signed _ _ Rp Hp Mp),
    (char_range_unique char_signed _ _ Rb Hb Mb).
  now destruct s.
Qed.

Lemma deserialize_serialize_roundtrip_witness :
  deserialize true (mkScanner false false 9 9 9)
    (serialize (mkScanner true false 3 0 (-1))) =
  mkScanner true false 3 0 (-1).
Proof.
  apply (deserialize_serialize_roundtrip true (mkScanner false false 9 9 9)
           (mkScanner true false 3 0 (-1)));
    unfold char_range; simpl; lia.
Defined.

(** ** The end of the input *)

Lemma seq_continue (a b : stage) (s : Scanner) (lx : TSLexer)
    (s1 : Scanner) (lx1 : TSLexer) :
  a s lx = Continue s1 lx1 -> (a ;; b) s lx = b s1 lx1.
Proof. intros H. unfold seq. now rewrite H. Qed.

Lemma skip_whitespace_continue (s : Scanner) (lx : TSLexer) :
  is_whitespace (lookahead lx) = false ->
  skip_whitespace s lx = Continue s lx.
Proof.
  intros H. unfold skip_whitespace.
  rewrite skip_whitespace_loop_stop by exact H.
  now destruct (negb (in_string s) && negb (in_indented_string s)).
Qed.

Lemma handle_comment_continue_same (valid : valid_symbols) (s : Scanner)
    (lx : TSLexer) :
  scan_comment lx = (false, lx) -> handle_comment valid s lx = Continue s lx.
Proof.
  intros H. unfold handle_comment. rewrite H.
  now destruct (valid COMMENT).
Qed.

Lemma scan_string_content_at_end (lx : TSLexer) :
  lookahead lx = 0 -> scan_string_content lx = (false, mark_end lx).
Proof.
  intros H. unfold scan_string_content. simpl.
  change (lookahead (mark_end lx)) with (lookahead lx). now rewrite H.
Qed.

Lemma scan_indented_string_content_at_end (lx : TSLexer) :
  lookahead lx = 0 -> scan_indented_string_content lx = (false, mark_end lx).
Proof.
  intros H. unfold scan_indented_string_content. simpl.
  change (lookahead (mark_end lx)) with (lookahead lx). now rewrite H.
Qed.

(** The rules after the comment rule, at the end of the input: none of
    them applies. *)
Lemma no_rule_at_end (valid : valid_symbols) (s : Scanner) (lx : TSLexer) :
  lookahead lx = 0 ->
  exists lx',
    (handle_string_entry valid ;; inside_string valid ;;
     inside_indented_string valid ;; interpolation_end valid) s lx =
    Return false s lx' /\
    lookahead lx' = 0 /\ position lx' = position lx /\
    input lx' = input lx.
Proof.
  intros H0.
  assert (He : scan_escape_sequence lx = (false, lx))
    by (apply scan_escape_sequence_none; lia).
  pose proof (scan_string_content_at_end lx H0) as Hc.
  pose proof (scan_indented_string_content_at_end lx H0) as Hi.
  pose proof (scan_indented_string_content_at_end (mark_end lx) H0) as Hi'.
  unfold handle_string_entry, inside_string, inside_indented_string,
    string_start, indented_string_start, string_end, indented_string_end,
    interpolation_start, escape_sequence, string_content,
    indented_string_content, interpolation_end, seq.
  change (lookahead (mark_end lx)) with (lookahead lx) in *.
  destruct (in_string s) eqn:His; destruct (in_indented_string s) eqn:Hii;
    destruct (valid ESCAPE_SEQUENCE) eqn:V1;
    destruct (valid STRING_CONTENT) eqn:V2;
    destruct (valid INDENTED_STRING_CONTENT) eqn:V3;
    repeat (progress
              (cbn [andb negb Z.eqb];
               change (lookahead (mark_end lx)) with (lookahead lx);
               change (lookahead (mark_end (mark_end lx)))
                 with (lookahead lx);
               rewrite ?His, ?Hii, ?V1, ?V2, ?V3, ?He, ?Hc, ?Hi, ?Hi', ?H0,
                 ?andb_false_r));
    destruct ((0 <? interpolation_depth s) && valid INTERPOLATION_END);
    eexists; (split; [reflexivity | repeat split; assumption]).
Qed.

(** At the end of the input, and at a NUL character, which the lexer shows
    in the same way, a call produces no token and leaves the state as it
    was, whatever the state and the admissible kinds. *)
Theorem scan_at_end_of_input (s : Scanner) (lx : TSLexer)
    (valid : valid_symbols) :
  lookahead lx = 0 ->
  exists lx',
    scan s lx valid = (false, s, lx') /\
    position lx' = position lx /\ input lx' = input lx.
Proof.
  intros H0.
  destruct (no_rule_at_end valid s lx H0) as (lx' & E & _ & Hp & Hi).
  exists lx'. split; [| now split].
  unfold tree_sitter_nix_external_scanner_scan, scan_body.
  rewrite (seq_continue _ _ s lx s lx)
    by (apply skip_whitespace_continue; rewrite H0; reflexivity).
  rewrite (seq_continue _ _ s lx s lx)
    by (apply handle_comment_continue_same, scan_comment_none; lia).
  now rewrite E.
Qed.

Lemma scan_at_end_of_input_witness :
  exists lx',
    scan (mkScanner true false 1 0 1) (lexer_start (chars "abc") 3)
         all_valid = (false, mkScanner true false 1 0 1, lx') /\
    position lx' = position (lexer_start (chars "abc") 3) /\
    input lx' = input (lexer_start (chars "abc") 3).
Proof.
  apply (scan_at_end_of_input (mkScanner true false 1 0 1)
           (lexer_start (chars "abc") 3) all_valid).
  reflexivity.
Defined.

(** ** Comments *)

(** The text and the end of a token whose characters were consumed one by
    one from the start of the call. *)
Lemma token_of_consumed (inp : list Z) (pos : nat) (lx1 : TSLexer)
    (pre : list Z) (k : TokenType) :
  consumed (lexer_start inp pos) lx1 pre ->
  token_start (set_result_symbol lx1 k) = pos /\
  token_text (set_result_symbol lx1 k) = pre /\
  position (set_result_symbol lx1 k) = (pos + length pre)%nat /\
  token_end_position (set_result_symbol lx1 k) = (pos + length pre)%nat.
Proof.
  intros (Hi & Hs & He & _ & Hp & Hk).
  cbn [lexer_start input position token_start token_end] in *.
  assert (Ht : token_text (set_result_symbol lx1 k) = pre).
  { rewrite (token_text_unmarked _ (length pre)).
    - cbn [set_result_symbol input token_start]. rewrite Hs, Hi, Hk.
      rewrite <- (Nat.add_0_r (length pre)).
      rewrite firstn_app_2. simpl. apply app_nil_r.
    - exact He.
    - cbn [set_result_symbol token_start position]. now rewrite Hs, Hp. }
  unfold token_end_position.
  cbn [set_result_symbol token_start position token_end].
  rewrite He. auto.
Qed.

Lemma line_comment_loop_consumed (fuel : nat) :
  forall (lx : TSLexer) (r : list Z),
    (remaining lx < fuel)%nat ->
    skipn (position lx) (input lx) = r ->
    consumed lx (line_comment_loop fuel lx) (firstn (line_length r) r).
Proof.
  induction fuel as [| fuel IH]; intros lx r Hfuel Hk; [lia |].
  simpl. rewrite lookahead_hd, Hk.
  destruct r as [| c r']; simpl; [apply consumed_refl |].
  destruct (c =? 0) eqn:E0; simpl; [apply consumed_refl |].
  destruct (c =? 10) eqn:E10; simpl; [apply consumed_refl |].
  apply Z.eqb_neq in E0.
  destruct (advance_over lx c r' Hk E0) as (Hl & Hp & Hk').
  assert (N0 : lookahead lx <> 0) by congruence.
  pose proof (remaining_advance lx N0) as Hrem.
  apply (consumed_trans lx (advance lx) _ [c] _).
  - rewrite <- Hl. now apply consumed_advance.
  - apply IH; [lia | exact Hk'].
Qed.

Lemma line_length_chars (r : list Z) (c : Z) :
  In c (firstn (line_length r) r) -> c <> 0 /\ c <> 10.
Proof.
  induction r as [| a r IH]; simpl; [intros [] |].
  destruct (a =? 0) eqn:E0; simpl; [intros [] |].
  destruct (a =? 10) eqn:E10; simpl; [intros [] |].
  apply Z.eqb_neq in E0, E10.
  intros [<- | H]; auto.
Qed.

Lemma line_length_stop (r : list Z) :
  hd 0 (skipn (line_length r) r) = 0 \/ hd 0 (skipn (line_length r) r) = 10.
Proof.
  induction r as [| a r IH]; simpl; [now left |].
  destruct (a =? 0) eqn:E0; simpl; [left; now apply Z.eqb_eq |].
  destruct (a =? 10) eqn:E10; simpl; [right; now apply Z.eqb_eq |].
  exact IH.
Qed.

(** With comment admissible, a call at a hash sign produces a comment
    token in every state, inside a string as well, and leaves the state as
    it was.  The token is the hash sign and everything up to the next
    newline (or NUL, or the end of the input); the newline is no part of
    it. *)
Theorem line_comment_token (s : Scanner) (inp : list Z) (pos : nat)
    (valid : valid_symbols) (r : list Z) :
  valid COMMENT = true ->
  skipn pos inp = 35 :: r ->
  exists lx',
    scan s (lexer_start inp pos) valid = (true, s, lx') /\
    result_symbol lx' = COMMENT /\
    token_start lx' = pos /\
    token_text lx' = 35 :: firstn (line_length r) r /\
    token_end_position lx' = (pos + 1 + line_length r)%nat /\
    (forall c, In c (firstn (line_length r) r) -> c <> 0 /\ c <> 10) /\
    (hd 0 (skipn (line_length r) r) = 0 \/
     hd 0 (skipn (line_length r) r) = 10).
Proof.
  intros Hv Hk.
  set (lx := lexer_start inp pos).
  destruct (advance_over lx 35 r Hk) as (Hl & Hp & Hk'); [lia |].
  assert (N0 : lookahead lx <> 0) by lia.
  set (lx1 := line_comment_loop (S (remaining (advance lx))) (advance lx)).
  assert (C : consumed lx lx1 (35 :: firstn (line_length r) r)).
  { apply (consumed_trans lx (advance lx) _ [35] _).
    - rewrite <- Hl. now apply consumed_advance.
    - apply line_comment_loop_consumed; [lia | exact Hk']. }
  exists (set_result_symbol lx1 COMMENT).
  destruct (token_of_consumed inp pos lx1 _ COMMENT C)
    as (Hts & Htx & _ & Hte).
  repeat split; try assumption.
  - unfold tree_sitter_nix_external_scanner_scan, scan_body.
    rewrite (seq_continue _ _ s lx s lx)
      by (apply skip_whitespace_continue; rewrite Hl; reflexivity).
    unfold seq, handle_comment, scan_comment.
    rewrite Hv, Hl. reflexivity.
  - rewrite Hte. simpl.
    assert (length (firstn (line_length r) r) = line_length r).
    { clear. induction r as [| a r IH]; simpl; [reflexivity |].
      destruct ((a =? 0) || (a =? 10)); simpl; [reflexivity | now rewrite IH]. }
    lia.
  - now apply line_length_chars in H.
  - now apply line_length_chars in H.
  - apply line_length_stop.
Qed.

Lemma line_comment_token_witness :
  exists lx',
    scan (mkScanner true false 0 0 0)
         (lexer_start (chars "ab# c d" ++ [10] ++ chars "e") 2) all_valid =
    (true, mkScanner true false 0 0 0, lx') /\
    result_symbol lx' = COMMENT /\
    token_start lx' = 2%nat /\
    token_text lx' =
    35 :: firstn (line_length (chars " c d" ++ [10] ++ chars "e"))
            (chars " c d" ++ [10] ++ chars "e") /\
    token_end_position lx' =
    (2 + 1 + line_length (chars " c d" ++ [10%Z] ++ chars "e"))%nat /\
    (forall c,
        In c (firstn (line_length (chars " c d" ++ [10] ++ chars "e"))
                (chars " c d" ++ [10] ++ chars "e")) ->
        c <> 0 /\ c <> 10) /\
    (hd 0 (skipn (line_length (chars " c d" ++ [10] ++ chars "e"))
             (chars " c d" ++ [10] ++ chars "e")) = 0 \/
     hd 0 (skipn (line_length (chars " c d" ++ [10] ++ chars "e"))
             (chars " c d" ++ [10] ++ chars "e")) = 10).
Proof.
  apply (line_comment_token (mkScanner true false 0 0 0)
           (chars "ab# c d" ++ [10] ++ chars "e") 2 all_valid
           (chars " c d" ++ [10] ++ chars "e")); reflexivity.
Defined.

Lemma step_over (lx : TSLexer) (c : Z) (r : list Z) :
  skipn (position lx) (input lx) = c :: r ->
  c <> 0 ->
  lookahead lx = c /\
  consumed lx (advance lx) [c] /\
  skipn (position (advance lx)) (input (advance lx)) = r /\
  S (remaining (advance lx)) = remaining lx.
Proof.
  intros Hk Hc.
  destruct (advance_over lx c r Hk Hc) as (Hl & _ & Hk').
  assert (N0 : lookahead lx <> 0) by congruence.
  split; [exact Hl |].
  split; [rewrite <- Hl; now apply consumed_advance |].
  split; [exact Hk' | now apply remaining_advance].
Qed.

(** The loop of [scan_comment] passes over the inside of a closed block
    comment and is then, at the same depth, in front of the star that
    follows. *)
Lemma block_comment_loop_body (body : list Z) :
  comment_body body ->
  forall (fuel : nat) (lx : TSLexer) (d : Z) (t : list Z),
    0 < d ->
    (remaining lx < fuel)%nat ->
    skipn (position lx) (input lx) = body ++ 42 :: t ->
    exists lx' fuel',
      consumed lx lx' body /\
      (remaining lx' < fuel')%nat /\
      skipn (position lx') (input lx') = 42 :: t /\
      block_comment_loop fuel lx d = block_comment_loop fuel' lx' d.
Proof.
  induction 1 as [| c body N0 N47 N42 Hb IH | c body N42 Hb IH
                  | c body N47 Hb IH | | inner body Hi IHi Hb IHb];
    intros fuel lx d t Hd Hfuel Hk.
  - exists lx, fuel. repeat split; try assumption; apply consumed_refl.
  - destruct (step_over lx c _ Hk N0) as (Hl & C & Hk1 & Hr).
    destruct fuel as [| f]; [lia |].
    destruct (IH f (advance lx) d t Hd) as (lx' & f' & C' & R & K & E);
      [lia | exact Hk1 |].
    exists lx', f'.
    split; [exact (consumed_trans _ _ _ [c] body C C') |].
    split; [exact R |]. split; [exact K |].
    rewrite <- E. cbn [block_comment_loop].
    rewrite Hl.
    apply Z.ltb_lt in Hd. apply Z.eqb_neq in N0, N47, N42.
    now rewrite Hd, N0, N47, N42.
  - destruct (step_over lx 47 _ Hk) as (Hl & C & Hk1 & Hr); [lia |].
    destruct fuel as [| f]; [lia |].
    destruct (IH f (advance lx) d t Hd) as (lx' & f' & C' & R & K & E);
      [lia | exact Hk1 |].
    exists lx', f'.
    split; [exact (consumed_trans _ _ _ [47] (c :: body) C C') |].
    split; [exact R |]. split; [exact K |].
    rewrite <- E. cbn [block_comment_loop].
    rewrite Hl.
    assert (Hl1 : lookahead (advance lx) = c)
      by (rewrite lookahead_hd, Hk1; reflexivity).
    rewrite Hl1.
    apply Z.ltb_lt in Hd. apply Z.eqb_neq in N42.
    now rewrite Hd, N42.
  - destruct (step_over lx 42 _ Hk) as (Hl & C & Hk1 & Hr); [lia |].
    destruct fuel as [| f]; [lia |].
    destruct (IH f (advance lx) d t Hd) as (lx' & f' & C' & R & K & E);
      [lia | exact Hk1 |].
    exists lx', f'.
    split; [exact (consumed_trans _ _ _ [42] (c :: body) C C') |].
    split; [exact R |]. split; [exact K |].
    rewrite <- E. cbn [block_comment_loop].
    rewrite Hl.
    assert (Hl1 : lookahead (advance lx) = c)
      by (rewrite lookahead_hd, Hk1; reflexivity).
    rewrite Hl1.
    apply Z.ltb_lt in Hd. apply Z.eqb_neq in N47.
    now rewrite Hd, N47.
  - destruct (step_over lx 42 _ Hk) as (Hl & C & Hk1 & Hr); [lia |].
    destruct fuel as [| f]; [lia |].
    exists (advance lx), f.
    split; [exact C |]. split; [lia |]. split; [exact Hk1 |].
    cbn [block_comment_loop].
    rewrite Hl.
    assert (Hl1 : lookahead (advance lx) = 42)
      by (rewrite lookahead_hd, Hk1; reflexivity).
    rewrite Hl1.
    apply Z.ltb_lt in Hd.
    now rewrite Hd.
  - assert (Hk0 : skipn (position lx) (input lx) =
                  47 :: 42 :: inner ++ 42 :: 47 :: body ++ 42 :: t).
    { rewrite Hk. simpl. rewrite <- !app_assoc. reflexivity. }
    destruct (step_over lx 47 _ Hk0) as (Hl & C & Hk1 & Hr); [lia |].
    destruct (step_over (advance lx) 42 _ Hk1) as (Hl1 & C1 & Hk2 & Hr1);
      [lia |].
    destruct fuel as [| f]; [lia |].
    destruct (IHi f (advance (advance lx)) (d + 1) (47 :: body ++ 42 :: t))
      as (lx3 & f3 & C3 & R3 & K3 & E3); [lia | lia | exact Hk2 |].
    destruct (step_over lx3 42 _ K3) as (Hl3 & C4 & Hk4 & Hr4); [lia |].
    destruct (step_over (advance lx3) 47 _ Hk4) as (Hl4 & C5 & Hk5 & Hr5);
      [lia |].
    destruct f3 as [| f4]; [lia |].
    destruct (IHb f4 (advance (advance lx3)) d t Hd)
      as (lx' & f' & C' & R & K & E); [lia | exact Hk5 |].
    exists lx', f'.
    split.
    { pose proof (consumed_trans _ _ _ _ _ C C1) as D1.
      pose proof (consumed_trans _ _ _ _ _ D1 C3) as D2.
      pose proof (consumed_trans _ _ _ _ _ D2 C4) as D3.
      pose proof (consumed_trans _ _ _ _ _ D3 C5) as D4.
      pose proof (consumed_trans _ _ _ _ _ D4 C') as D5.
      simpl in D5. simpl. rewrite <- !app_assoc in D5. exact D5. }
    split; [exact R |]. split; [exact K |].
    rewrite <- E.
    cbn [block_comment_loop].
    rewrite Hl, Hl1.
    apply Z.ltb_lt in Hd.
    rewrite Hd. cbn [andb negb Z.eqb Pos.eqb].
    rewrite E3.
    cbn [block_comment_loop].
    rewrite Hl3, Hl4.
    assert (Hd1 : (0 <? d + 1) = true) by (apply Z.ltb_lt; apply Z.ltb_lt in Hd; lia).
    rewrite Hd1. cbn [andb negb Z.eqb Pos.eqb].
    replace (d + 1 - 1) with d by lia.
    reflexivity.
Qed.

(** With comment admissible, a call at the opener of a closed block
    comment, in every state, produces one comment token that reaches
    through the closer that matches the opener: block comments inside it
    are passed over whole.  The state stays as it was. *)
Theorem block_comment_token (s : Scanner) (inp : list Z) (pos : nat)
    (valid : valid_symbols) (body tail : list Z) :
  valid COMMENT = true ->
  skipn pos inp = [47; 42] ++ body ++ [42; 47] ++ tail ->
  comment_body body ->
  exists lx',
    scan s (lexer_start inp pos) valid = (true, s, lx') /\
    result_symbol lx' = COMMENT /\
    token_start lx' = pos /\
    token_text lx' = [47; 42] ++ body ++ [42; 47] /\
    token_end_position lx' = (pos + 4 + length body)%nat.
Proof.
  intros Hv Hk Hb.
  set (lx := lexer_start inp pos).
  destruct (step_over lx 47 _ Hk) as (Hl & C & Hk1 & Hr); [lia |].
  destruct (step_over (advance lx) 42 _ Hk1) as (Hl1 & C1 & Hk2 & Hr1);
    [lia |].
  set (lx2 := advance (advance lx)) in *.
  destruct (block_comment_loop_body body Hb (S (remaining lx2)) lx2 1
              (47 :: tail))
    as (lx3 & f3 & C3 & R3 & K3 & E3); [lia | lia | exact Hk2 |].
  destruct (step_over lx3 42 _ K3) as (Hl3 & C4 & Hk4 & Hr4); [lia |].
  destruct (step_over (advance lx3) 47 _ Hk4) as (Hl4 & C5 & Hk5 & Hr5);
    [lia |].
  destruct f3 as [| f4]; [lia |].
  set (lx5 := advance (advance lx3)) in *.
  assert (E : block_comment_loop (S (remaining lx2)) lx2 1 = (0, lx5)).
  { rewrite E3. cbn [block_comment_loop].
    rewrite Hl3, Hl4. cbn [andb negb Z.eqb Pos.eqb Z.ltb Z.compare].
    fold lx5. destruct f4; reflexivity. }
  assert (D : consumed lx lx5 ([47; 42] ++ body ++ [42; 47])).
  { pose proof (consumed_trans _ _ _ _ _ C C1) as D1.
    pose proof (consumed_trans _ _ _ _ _ D1 C3) as D2.
    pose proof (consumed_trans _ _ _ _ _ D2 C4) as D3.
    pose proof (consumed_trans _ _ _ _ _ D3 C5) as D4.
    simpl in D4. simpl. rewrite <- !app_assoc in D4. exact D4. }
  exists (set_result_symbol lx5 COMMENT).
  destruct (token_of_consumed inp pos lx5 _ COMMENT D)
    as (Hts & Htx & _ & Hte).
  split; [| split; [reflexivity | split; [exact Hts | split; [exact Htx |]]]].
  - unfold tree_sitter_nix_external_scanner_scan, scan_body.
    rewrite (seq_continue _ _ s lx s lx)
      by (apply skip_whitespace_continue; rewrite Hl; reflexivity).
    unfold seq, handle_comment, scan_comment.
    rewrite Hv, Hl, Hl1. cbn [Z.eqb Pos.eqb].
    fold lx2. rewrite E. reflexivity.
  - rewrite Hte. rewrite !length_app. simpl. lia.
Qed.

Lemma block_comment_token_witness :
  exists lx',
    scan (mkScanner false true 1 0 1)
         (lexer_start (chars "x/* a /* b **/ / c **/ y") 1) all_valid =
    (true, mkScanner false true 1 0 1, lx') /\
    result_symbol lx' = COMMENT /\
    token_start lx' = 1%nat /\
    token_text lx' = [47; 42] ++ chars " a /* b **/ / c *" ++ [42; 47] /\
    token_end_position lx' =
    (1 + 4 + length (chars " a /* b **/ / c *"))%nat.
Proof.
  apply (block_comment_token (mkScanner false true 1 0 1)
           (chars "x/* a /* b **/ / c **/ y") 1 all_valid
           (chars " a /* b **/ / c *") (chars " y")).
  - reflexivity.
  - reflexivity.
  - vm_compute.
    apply comment_body_char; [lia | lia | lia |].
    apply comment_body_char; [lia | lia | lia |].
    apply comment_body_char; [lia | lia | lia |].
    apply (comment_body_nested (chars " b *") (chars " / c *")).
    + vm_compute.
      apply comment_body_char; [lia | lia | lia |].
      apply comment_body_char; [lia | lia | lia |].
      apply comment_body_char; [lia | lia | lia |].
      apply comment_body_last_star.
    + vm_compute.
      apply comment_body_char; [lia | lia | lia |].
      apply comment_body_slash; [lia |].
      apply comment_body_char; [lia | lia | lia |].
      apply comment_body_char; [lia | lia | lia |].
      apply comment_body_char; [lia | lia | lia |].
      apply comment_body_last_star.
Defined.

(** A call at the opener of a block comment, with comment admissible,
    never changes the state and never produces a token of another kind:
    either the comment is closed and the call produces a comment token, or
    the call produces no token and has consumed the input to its end. *)
Theorem block_comment_opener (s : Scanner) (inp : list Z) (pos : nat)
    (valid : valid_symbols) (r : list Z) :
  valid COMMENT = true ->
  skipn pos inp = 47 :: 42 :: r ->
  exists produced lx',
    scan s (lexer_start inp pos) valid = (produced, s, lx') /\
    (produced = true /\ result_symbol lx' = COMMENT \/
     produced = false /\ lookahead lx' = 0).
Proof.
  intros Hv Hk.
  set (lx := lexer_start inp pos).
  destruct (step_over lx 47 _ Hk) as (Hl & C & Hk1 & Hr); [lia |].
  destruct (step_over (advance lx) 42 _ Hk1) as (Hl1 & C1 & Hk2 & Hr1);
    [lia |].
  set (lx2 := advance (advance lx)) in *.
  destruct (block_comment_loop (S (remaining lx2)) lx2 1)
    as [depth lx3] eqn:E.
  pose proof E as E'.
  apply block_comment_loop_exit in E'; [| lia | lia].
  assert (Hc : scan_comment lx = (depth =? 0, lx3)).
  { unfold scan_comment. rewrite Hl, Hl1. cbn [Z.eqb Pos.eqb].
    fold lx2. now rewrite E. }
  unfold tree_sitter_nix_external_scanner_scan, scan_body.
  rewrite (seq_continue _ _ s lx s lx)
    by (apply skip_whitespace_continue; rewrite Hl; reflexivity).
  destruct (depth =? 0) eqn:Hd.
  - exists true, (set_result_symbol lx3 COMMENT).
    unfold seq, handle_comment. rewrite Hv, Hc. split; [reflexivity |].
    left. split; reflexivity.
  - apply Z.eqb_neq in Hd.
    destruct E' as [E' | E']; [contradiction |].
    destruct (no_rule_at_end valid s lx3 E') as (lx' & Hn & H0 & _).
    exists false, lx'.
    rewrite (seq_continue _ _ s lx s lx3)
      by (unfold handle_comment; now rewrite Hv, Hc).
    rewrite Hn. split; [reflexivity |]. right. split; [reflexivity | exact H0].
Qed.

Lemma block_comment_opener_witness :
  exists produced lx',
    scan (mkScanner true false 0 0 0)
         (lexer_start (chars "/* a /* b */ c") 0) all_valid =
    (produced, mkScanner true false 0 0 0, lx') /\
    (produced = true /\ result_symbol lx' = COMMENT \/
     produced = false /\ lookahead lx' = 0).
Proof.
  apply (block_comment_opener (mkScanner true false 0 0 0)
           (chars "/* a /* b */ c") 0 all_valid (chars " a /* b */ c"));
    reflexivity.
Defined.

(** ** A plain string from quote to quote *)

(** Inside a plain string, at a character that starts no comment, a call
    runs straight into the string block. *)
Lemma scan_body_in_string (valid : valid_symbols) (s : Scanner)
    (lx : TSLexer) :
  in_string s = true ->
  lookahead lx <> 35 -> lookahead lx <> 47 ->
  scan_body valid s lx =
  ((string_end valid ;; interpolation_start valid ;;
    escape_sequence valid ;; string_content valid) ;;
   inside_indented_string valid ;; interpolation_end valid) s lx.
Proof.
  intros His H35 H47.
  unfold scan_body, skip_whitespace, handle_comment, handle_string_entry,
    inside_string, seq.
  assert (Hc : scan_comment lx = (false, lx))
    by (now apply scan_comment_none).
  destruct (valid COMMENT) eqn:Hvc;
    repeat (progress (cbn [andb negb]; rewrite ?His, ?Hvc, ?Hc));
    reflexivity.
Qed.

Lemma plain_body_cons (c : Z) (b : list Z) :
  plain_body (c :: b) = true ->
  c <> 0 /\ c <> 34 /\ c <> 92 /\ (c = 36 -> hd 0 b <> 123) /\
  plain_body b = true.
Proof.
  unfold plain_body. cbn [forallb has_interp_open].
  intros H. apply andb_prop in H. destruct H as [H1 H2].
  apply andb_prop in H1. destruct H1 as [Hc Hf].
  apply negb_true_iff in Hc, H2.
  apply orb_false_elim in Hc. destruct Hc as [Hc H92].
  apply orb_false_elim in Hc. destruct Hc as [H0 H34].
  apply orb_false_elim in H2. destruct H2 as [Hd Hio].
  apply Z.eqb_neq in H0, H34, H92.
  repeat split; try assumption.
  - intros ->. cbn [Z.eqb Pos.eqb andb] in Hd. now apply Z.eqb_neq.
  - now rewrite Hf, Hio.
Qed.

Lemma content_run_at_stop (stop : list Z) :
  at_content_stop stop = true -> content_run stop = [].
Proof.
  destruct stop as [| c r]; [reflexivity |].
  cbn [at_content_stop content_run]. intros H.
  destruct ((c =? 0) || (c =? 34) || (c =? 92)); [reflexivity |].
  cbn [orb] in H. now rewrite H.
Qed.

Lemma content_run_plain_body (body stop : list Z) :
  plain_body body = true ->
  at_content_stop stop = true -> hd 0 stop <> 123 ->
  content_run (body ++ stop) = body.
Proof.
  intros H Hstop H123. revert H.
  induction body as [| c b IH]; intros H;
    [now apply content_run_at_stop |].
  destruct (plain_body_cons c b H) as (H0 & H34 & H92 & Hd & Hb).
  cbn [app content_run].
  apply Z.eqb_neq in H0, H34, H92. rewrite H0, H34, H92.
  cbn [orb].
  assert (E : (c =? 36) && (hd 0 (b ++ stop) =? 123) = false).
  { destruct (c =? 36) eqn:E36; [| reflexivity].
    apply Z.eqb_eq in E36. specialize (Hd E36).
    destruct b; simpl; now apply Z.eqb_neq. }
  rewrite E. now rewrite IH.
Qed.

(** The content rule on a body followed by something that ends string
    content. *)
Lemma string_content_on_body (valid : valid_symbols) (s : Scanner)
    (lx : TSLexer) (body stop : list Z) :
  valid STRING_CONTENT = true ->
  skipn (position lx) (input lx) = body ++ stop ->
  at_content_stop stop = true -> hd 0 stop <> 123 ->
  plain_body body = true -> body <> [] ->
  exists lx',
    string_content valid s lx = Return true s lx' /\
    result_symbol lx' = STRING_CONTENT /\
    input lx' = input lx /\
    token_start lx' = token_start lx /\
    token_end lx' = Some (position lx + length body)%nat.
Proof.
  intros Hv Hk Hstop H123 Hb Hne.
  destruct (scan_string_content_spec lx) as (lx' & E & Hi & Hs & Hr & He).
  rewrite Hk, content_run_plain_body in E, He by assumption.
  assert (Hn : nonempty body = true)
    by (destruct body; [contradiction | reflexivity]).
  rewrite Hn in E.
  exists (set_result_symbol lx' STRING_CONTENT).
  unfold string_content. rewrite Hv, E.
  cbn [set_result_symbol result_symbol input token_start token_end].
  repeat split; assumption.
Qed.

(** The content token of a call inside a plain string. *)
Lemma string_content_scan (valid : valid_symbols) (s : Scanner)
    (lx : TSLexer) (body stop : list Z) :
  in_string s = true ->
  valid STRING_CONTENT = true ->
  skipn (position lx) (input lx) = body ++ stop ->
  at_content_stop stop = true -> hd 0 stop <> 123 ->
  plain_body body = true ->
  body <> [] -> body <> [36] ->
  hd 0 body <> 35 -> hd 0 body <> 47 ->
  exists lx',
    scan s lx valid = (true, s, lx') /\
    result_symbol lx' = STRING_CONTENT /\
    input lx' = input lx /\
    token_start lx' = token_start lx /\
    token_end lx' = Some (position lx + length body)%nat.
Proof.
  intros His Hv Hk Hstop H123 Hb Hne Hnd H35 H47.
  destruct body as [| c0 b0]; [contradiction |]. clear Hne.
  simpl in H35, H47.
  destruct (plain_body_cons c0 b0 Hb) as (H0 & H34 & H92 & Hd & Hb0).
  destruct (advance_over lx c0 (b0 ++ stop) Hk H0) as (L0 & P1 & K1).
  unfold tree_sitter_nix_external_scanner_scan.
  rewrite scan_body_in_string by congruence.
  unfold seq at 1 2.
  assert (Hse : string_end valid s lx = Continue s lx).
  { unfold string_end. rewrite L0. apply Z.eqb_neq in H34.
    now rewrite H34, andb_false_r. }
  rewrite Hse.
  destruct (Z.eq_dec c0 36) as [-> | N36].
  - destruct b0 as [| c1 b1]; [contradiction |].
    destruct (plain_body_cons c1 b1 Hb0) as (H0' & H34' & H92' & _ & _).
    assert (L1 : lookahead (advance lx) = c1)
      by (rewrite lookahead_hd, K1; reflexivity).
    assert (N123 : lookahead (advance lx) <> 123)
      by (rewrite L1; now apply Hd).
    unfold seq at 1.
    rewrite interpolation_start_bare by assumption.
    destruct (valid INTERPOLATION_START).
    + unfold seq at 1. unfold escape_sequence.
      rewrite scan_escape_sequence_none by congruence.
      destruct (string_content_on_body valid s (advance lx) (c1 :: b1) stop
                  Hv K1 Hstop H123 Hb0) as (lx' & E & Hr & Hi & Hs & He);
        [discriminate |].
      destruct (valid ESCAPE_SEQUENCE); rewrite E; exists lx';
        rewrite advance_input in Hi; rewrite advance_token_start in Hs;
        (repeat split; try assumption);
        rewrite He, P1; f_equal; simpl; lia.
    + unfold seq at 1. unfold escape_sequence.
      rewrite scan_escape_sequence_none by congruence.
      destruct (string_content_on_body valid s lx (36 :: c1 :: b1) stop
                  Hv Hk Hstop H123 Hb) as (lx' & E & Hr & Hi & Hs & He);
        [discriminate |].
      destruct (valid ESCAPE_SEQUENCE); rewrite E; exists lx';
        repeat split; assumption.
  - unfold seq at 1.
    rewrite interpolation_start_skip by congruence.
    unfold seq at 1. unfold escape_sequence.
    rewrite scan_escape_sequence_none by congruence.
    destruct (string_content_on_body valid s lx (c0 :: b0) stop
                Hv Hk Hstop H123 Hb) as (lx' & E & Hr & Hi & Hs & He);
      [discriminate |].
    destruct (valid ESCAPE_SEQUENCE); rewrite E; exists lx';
      repeat split; assumption.
Qed.

(** A plain string whose body holds no escape and no interpolation is
    handed back, by three calls that each start where the token before
    ended, as string-start, one string-content token that is the whole
    body, and string-end; afterwards the state is the one before the
    string.  The body must not start with a hash sign or a slash (the
    comment rule would take them) and must not be a single dollar sign. *)
Theorem plain_string_tokens (s : Scanner) (inp : list Z) (pos : nat)
    (valid : valid_symbols) (body tail : list Z) :
  in_string s = false -> in_indented_string s = false ->
  valid STRING_START = true ->
  valid STRING_CONTENT = true ->
  valid STRING_END = true ->
  skipn pos inp = 34 :: body ++ 34 :: tail ->
  plain_body body = true ->
  body <> [] -> body <> [36] ->
  hd 0 body <> 35 -> hd 0 body <> 47 ->
  scan_tokens 3 s inp pos valid =
  ([(STRING_START, [34]); (STRING_CONTENT, body); (STRING_END, [34])],
   s, (pos + length body + 2)%nat).
Proof.
  intros His Hii Hvs Hvc Hve Hk Hb Hne Hnd H35 H47.
  set (lx := lexer_start inp pos).
  destruct (step_over lx 34 _ Hk) as (L0 & C0 & K1 & _); [lia |].
  (* the opening quote *)
  assert (E1 : scan s lx valid =
               (true, set_in_string s true,
                set_result_symbol (advance lx) STRING_START)).
  { unfold tree_sitter_nix_external_scanner_scan, scan_body.
    rewrite (seq_continue _ _ s lx s lx)
      by (apply skip_whitespace_continue; rewrite L0; reflexivity).
    rewrite (seq_continue _ _ s lx s lx)
      by (apply handle_comment_continue_same; apply scan_comment_none;
          rewrite L0; lia).
    unfold handle_string_entry, string_start, seq.
    rewrite His, Hii, Hvs, L0. reflexivity. }
  destruct (token_of_consumed inp pos (advance lx) [34] STRING_START C0)
    as (_ & T1 & _ & P1).
  (* the body *)
  set (s1 := set_in_string s true).
  set (lx1 := lexer_start inp (pos + 1)).
  assert (K1' : skipn (position lx1) (input lx1) = body ++ 34 :: tail).
  { destruct C0 as (Hi0 & _ & _ & _ & Hp0 & _).
    rewrite Hi0, Hp0 in K1. exact K1. }
  destruct (string_content_scan valid s1 lx1 body (34 :: tail))
    as (lx2 & E2 & R2 & I2 & S2 & T2); try assumption;
    [reflexivity | reflexivity | simpl; lia |].
  cbn [lx1 lexer_start input position token_start] in I2, S2, T2, K1'.
  assert (P2 : token_end_position lx2 = (pos + 1 + length body)%nat)
    by (unfold token_end_position; now rewrite T2).
  assert (X2 : token_text lx2 = body).
  { rewrite (token_text_marked lx2 _ T2), S2, I2, K1'.
    replace (pos + 1 + length body - (pos + 1))%nat
      with (length body + 0)%nat by lia.
    rewrite firstn_app_2. simpl. apply app_nil_r. }
  (* the closing quote *)
  set (lx3 := lexer_start inp (pos + 1 + length body)).
  assert (K3 : skipn (position lx3) (input lx3) = 34 :: tail).
  { cbn [lx3 lexer_start input position].
    replace (pos + 1 + length body)%nat
      with (length body + (pos + 1))%nat by lia.
    rewrite <- skipn_skipn, K1'. apply skipn_length_app. }
  destruct (step_over lx3 34 _ K3) as (L3 & C3 & _ & _); [lia |].
  assert (E3 : scan s1 lx3 valid =
               (true, s, set_result_symbol (advance lx3) STRING_END)).
  { unfold tree_sitter_nix_external_scanner_scan.
    rewrite scan_body_in_string by (reflexivity || lia).
    unfold seq, string_end. rewrite Hve, L3.
    cbn [andb Z.eqb Pos.eqb]. f_equal. f_equal.
    destruct s; simpl in *; subst; reflexivity. }
  destruct (token_of_consumed inp (pos + 1 + length body) (advance lx3) [34]
              STRING_END C3) as (_ & T3 & _ & P3).
  cbn [scan_tokens]. fold lx. rewrite E1.
  rewrite P1, T1. cbn [length].
  fold s1 lx1. rewrite E2.
  rewrite P2, X2, R2.
  fold lx3. rewrite E3.
  rewrite P3, T3. cbn [length result_symbol set_result_symbol].
  apply f_equal2; [reflexivity | simpl; lia].
Qed.

Lemma plain_string_tokens_witness :
  scan_tokens 3 tree_sitter_nix_external_scanner_create
    ([34] ++ chars "$5 a # b" ++ [34] ++ chars ";") 0 all_valid =
  ([(STRING_START, [34]); (STRING_CONTENT, chars "$5 a # b");
    (STRING_END, [34])],
   tree_sitter_nix_external_scanner_create,
   (0 + length (chars "$5 a # b") + 2)%nat).
Proof.
  apply (plain_string_tokens tree_sitter_nix_external_scanner_create
           ([34] ++ chars "$5 a # b" ++ [34] ++ chars ";") 0 all_valid
           (chars "$5 a # b") (chars ";"));
    try reflexivity; vm_compute; discriminate.
Defined.

(** Inside a plain string, content in front of an interpolation is handed
    back up to the dollar sign, and the call after it, started where the
    content token ended, produces interpolation-start for the dollar sign
    and the brace: the dollar sign that the content loop read while
    looking ahead is no part of the content token.  The interpolation
    depth is one more than before and the brace depth is 1.  The content
    is not empty, holds no NUL, double quote, backslash or dollar sign in
    front of a brace, does not start with a hash sign or a slash (the
    comment rule would take them) and is not a single dollar sign (the
    interpolation rule would take it and leave no content);
    [interpolation_depth] is an [int] below [INT_MAX]. *)
Theorem string_content_then_interpolation (s : Scanner) (inp : list Z)
    (pos : nat) (valid : valid_symbols) (body tail : list Z) :
  in_string s = true ->
  int_range (interpolation_depth s) ->
  interpolation_depth s < INT_MAX ->
  valid STRING_CONTENT = true ->
  valid INTERPOLATION_START = true ->
  skipn pos inp = body ++ 36 :: 123 :: tail ->
  plain_body body = true ->
  body <> [] -> body <> [36] ->
  hd 0 body <> 35 -> hd 0 body <> 47 ->
  scan_tokens 2 s inp pos valid =
  ([(STRING_CONTENT, body); (INTERPOLATION_START, [36; 123])],
   set_brace_depth (set_interpolation_depth s (interpolation_depth s + 1)) 1,
   (pos + length body + 2)%nat).
Proof.
  intros His Hri Hmax Hvc Hvi Hk Hb Hne Hnd H35 H47.
  set (lx := lexer_start inp pos).
  destruct (string_content_scan valid s lx body (36 :: 123 :: tail))
    as (lx1 & E1 & R1 & I1 & S1 & T1); try assumption;
    [reflexivity | simpl; lia |].
  cbn [lx lexer_start input position token_start] in I1, S1, T1.
  assert (P1 : token_end_position lx1 = (pos + length body)%nat)
    by (unfold token_end_position; now rewrite T1).
  assert (X1 : token_text lx1 = body).
  { rewrite (token_text_marked lx1 _ T1), S1, I1, Hk.
    replace (pos + length body - pos)%nat
      with (length body + 0)%nat by lia.
    rewrite firstn_app_2. simpl. apply app_nil_r. }
  set (lx2 := lexer_start inp (pos + length body)).
  assert (K2 : skipn (position lx2) (input lx2) = 36 :: 123 :: tail).
  { cbn [lx2 lexer_start input position].
    replace (pos + length body)%nat with (length body + pos)%nat by lia.
    rewrite <- skipn_skipn, Hk. apply skipn_length_app. }
  destruct (step_over lx2 36 _ K2) as (L2 & C2 & K3 & _); [lia |].
  destruct (step_over (advance lx2) 123 _ K3) as (L3 & C3 & _ & _); [lia |].
  pose proof (consumed_trans _ _ _ _ _ C2 C3) as C4.
  assert (E2 : scan s lx2 valid =
               (true,
                set_brace_depth
                  (set_interpolation_depth s (interpolation_depth s + 1)) 1,
                set_result_symbol (advance (advance lx2))
                  INTERPOLATION_START)).
  { rewrite (scan_at_interpolation_open s lx2 valid (or_introl His) Hvi
               L2 L3).
    rewrite int_wrap_id by int_bounds. reflexivity. }
  destruct (token_of_consumed inp (pos + length body)
              (advance (advance lx2)) _ INTERPOLATION_START C4)
    as (_ & T2 & _ & P2).
  cbn [scan_tokens]. fold lx. rewrite E1.
  rewrite P1, X1, R1. fold lx2. rewrite E2.
  rewrite P2, T2. cbn [app length result_symbol set_result_symbol].
  apply f_equal2; [reflexivity | lia].
Qed.

Lemma string_content_then_interpolation_witness :
  scan_tokens 2 (mkScanner true false 0 0 0)
    ([34] ++ chars "cost: $${x}") 1 all_valid =
  ([(STRING_CONTENT, chars "cost: $"); (INTERPOLATION_START, [36; 123])],
   set_brace_depth
     (set_interpolation_depth (mkScanner true false 0 0 0)
        (interpolation_depth (mkScanner true false 0 0 0) + 1)) 1,
   (1 + length (chars "cost: $") + 2)%nat).
Proof.
  apply (string_content_then_interpolation (mkScanner true false 0 0 0)
           ([34] ++ chars "cost: $${x}") 1 all_valid
           (chars "cost: $") (chars "x}"));
    try reflexivity;
    try (unfold int_range, INT_MIN, INT_MAX; simpl; lia);
    vm_compute; discriminate.
Defined.

Lemma scan_string_content_at_quote (lx : TSLexer) :
  lookahead lx = 34 -> scan_string_content lx = (false, mark_end lx).
Proof.
  intros H. unfold scan_string_content. simpl.
  change (lookahead (mark_end lx)) with (lookahead lx). now rewrite H.
Qed.

(** A dollar sign right in front of the closing quote of a plain string is
    lost when interpolation-start is admissible: the interpolation rule
    consumes it while looking for a brace and does not back up, the
    content rule then stands at the quote with nothing to take, and the
    call produces no token.  Without interpolation-start the same dollar
    sign is a content token. *)
Theorem dollar_before_closing_quote (s : Scanner) (inp : list Z)
    (pos : nat) (valid : valid_symbols) (tail : list Z) :
  in_string s = true -> in_indented_string s = false ->
  valid STRING_CONTENT = true ->
  skipn pos inp = 36 :: 34 :: tail ->
  exists lx',
    scan s (lexer_start inp pos) valid =
    (negb (valid INTERPOLATION_START), s, lx') /\
    if valid INTERPOLATION_START
    then position lx' = S pos /\ lookahead lx' = 34
    else result_symbol lx' = STRING_CONTENT /\
         token_start lx' = pos /\
         token_text lx' = [36].
Proof.
  intros His Hii Hvc Hk.
  set (lx := lexer_start inp pos).
  destruct (advance_over lx 36 _ Hk) as (L0 & P1 & K1); [lia |].
  assert (L1 : lookahead (advance lx) = 34)
    by (rewrite lookahead_hd, K1; reflexivity).
  assert (Hse : string_end valid s lx = Continue s lx).
  { unfold string_end. rewrite L0. cbn [Z.eqb Pos.eqb].
    now rewrite andb_false_r. }
  destruct (valid INTERPOLATION_START) eqn:Hvi; cbn [negb].
  - exists (mark_end (advance lx)).
    split; [| split; [exact P1 | exact L1]].
    unfold tree_sitter_nix_external_scanner_scan.
    rewrite scan_body_in_string by (assumption || lia).
    assert (A : (string_end valid ;; interpolation_start valid ;;
                 escape_sequence valid ;; string_content valid) s lx =
                Continue s (mark_end (advance lx))).
    { rewrite (seq_continue _ _ s lx s lx Hse).
      rewrite (seq_continue _ _ s lx s (advance lx))
        by (rewrite interpolation_start_bare by (assumption || lia);
            now rewrite Hvi).
      rewrite (seq_continue _ _ s (advance lx) s (advance lx))
        by (unfold escape_sequence;
            rewrite scan_escape_sequence_none by lia;
            now destruct (valid ESCAPE_SEQUENCE)).
      unfold string_content.
      now rewrite Hvc, scan_string_content_at_quote by exact L1. }
    rewrite (seq_continue _ _ s lx s (mark_end (advance lx)) A).
    rewrite (seq_continue _ _ s (mark_end (advance lx)) s
               (mark_end (advance lx)))
      by (unfold inside_indented_string; now rewrite Hii).
    unfold interpolation_end.
    change (lookahead (mark_end (advance lx))) with (lookahead (advance lx)).
    rewrite L1. cbn [Z.eqb Pos.eqb].
    now destruct ((0 <? interpolation_depth s) && valid INTERPOLATION_END).
  - destruct (string_content_on_body valid s lx [36] (34 :: tail))
      as (lx' & E & Hr & Hi & Hs & He);
      try assumption; try reflexivity; [simpl; lia | discriminate |].
    cbn [lx lexer_start input position token_start length] in Hi, Hs, He.
    exists lx'.
    split; [| split; [exact Hr | split; [exact Hs |]]].
    + unfold tree_sitter_nix_external_scanner_scan.
      rewrite scan_body_in_string by (assumption || lia).
      unfold seq at 1 2. rewrite Hse.
      unfold seq at 1.
      assert (Hist : interpolation_start valid s lx = Continue s lx)
        by (unfold interpolation_start; now rewrite Hvi).
      rewrite Hist.
      unfold seq at 1. unfold escape_sequence.
      rewrite scan_escape_sequence_none by lia.
      destruct (valid ESCAPE_SEQUENCE); now rewrite E.
    + rewrite (token_text_marked lx' _ He), Hs, Hi, Hk.
      replace (pos + 1 - pos)%nat with 1%nat by lia. reflexivity.
Qed.

Lemma dollar_before_closing_quote_witness :
  exists lx',
    scan (mkScanner true false 0 0 0)
         (lexer_start ([34] ++ chars "a$" ++ [34]) 2) all_valid =
    (negb (all_valid INTERPOLATION_START), mkScanner true false 0 0 0, lx') /\
    if all_valid INTERPOLATION_START
    then position lx' = 3%nat /\ lookahead lx' = 34
    else result_symbol lx' = STRING_CONTENT /\
         token_start lx' = 2%nat /\
         token_text lx' = [36].
Proof.
  apply (dollar_before_closing_quote (mkScanner true false 0 0 0)
           ([34] ++ chars "a$" ++ [34]) 2 all_valid []); reflexivity.
Defined.

(** ** The closing pair of an indented string *)

(** Once the end rule has let a lone quote pass, nothing in the call hands
    back indented-string-end. *)
Lemma after_end_rule_never_end (valid : valid_symbols) :
  never_returns INDENTED_STRING_END
    ((interpolation_start valid ;; indented_string_content valid) ;;
     interpolation_end valid).
Proof.
  repeat apply seq_never_returns;
    [unfold interpolation_start | unfold indented_string_content
     | unfold interpolation_end];
    never_returns_cases.
Qed.

(** An indented string whose body does not end with a quote loses the
    first quote of its closing pair to the content token: the content
    loop marks the token's end after that quote and stops, unmarked, at
    the second.  The call after it starts at the second quote, which alone
    closes nothing: whatever follows the pair (a further quote apart), the
    call does not produce indented-string-end and the scanner stays inside
    the indented string, and when the input ends at the pair the call
    produces no token and leaves the state as it was.  The body is not
    empty, holds no NUL, no two quotes in a row and no dollar sign in
    front of a brace, and does not start with a hash sign or a slash;
    every kind is admissible. *)
Theorem indented_content_takes_closer_quote (s : Scanner) (inp : list Z)
    (pos : nat) (body tail : list Z) :
  in_string s = false -> in_indented_string s = true ->
  skipn pos inp = body ++ 39 :: 39 :: tail ->
  body_ok body ->
  body <> [] ->
  hd 0 body <> 35 -> hd 0 body <> 47 ->
  last body 0 <> 39 ->
  hd 0 tail <> 39 ->
  exists lx',
    scan s (lexer_start inp pos) all_valid = (true, s, lx') /\
    result_symbol lx' = INDENTED_STRING_CONTENT /\
    token_start lx' = pos /\
    token_text lx' = body ++ [39] /\
    token_end_position lx' = (pos + length body + 1)%nat /\
    forall r s2 lx2,
      scan s (lexer_start inp (token_end_position lx')) all_valid =
      (r, s2, lx2) ->
      in_indented_string s2 = true /\
      (r = true -> result_symbol lx2 <> INDENTED_STRING_END) /\
      (tail = [] -> r = false /\ s2 = s).
Proof.
  intros His Hii Hk Hok Hne H35 H47 Hlast Htail.
  assert (Hnq : body <> [39]) by (intros ->; now apply Hlast).
  destruct (indented_content_scan s (lexer_start inp pos) body tail)
    as (lx' & E & Hr & Hi & Hs & He); try assumption.
  cbn [lexer_start input position token_start] in Hi, Hs, He.
  apply Z.eqb_neq in Hlast. rewrite Hlast in He.
  assert (Hp : token_end_position lx' = (pos + length body + 1)%nat)
    by (unfold token_end_position; now rewrite He).
  assert (Ht : token_text lx' = body ++ [39]).
  { rewrite (token_text_marked lx' _ He), Hs, Hi, Hk.
    replace (pos + length body + 1 - pos)%nat
      with (length (body ++ [39%Z]) + 0)%nat
      by (rewrite length_app; simpl; lia).
    change (39 :: 39 :: tail) with ([39] ++ 39 :: tail). rewrite app_assoc.
    rewrite firstn_app_2. simpl. apply app_nil_r. }
  set (lx2 := lexer_start inp (pos + length body + 1)).
  assert (K2 : skipn (position lx2) (input lx2) = 39 :: tail).
  { cbn [lx2 lexer_start input position].
    replace (pos + length body + 1)%nat
      with (length (body ++ [39%Z]) + pos)%nat
      by (rewrite length_app; simpl; lia).
    rewrite <- skipn_skipn, Hk.
    change (39 :: 39 :: tail) with ([39] ++ 39 :: tail). rewrite app_assoc.
    apply skipn_length_app. }
  destruct (step_over lx2 39 _ K2) as (L2 & _ & K3 & _); [lia |].
  assert (L3 : lookahead (advance lx2) = hd 0 tail)
    by (rewrite lookahead_hd, K3; reflexivity).
  assert (Hend : indented_string_end all_valid s lx2 =
                 Continue s (advance lx2))
    by (rewrite indented_string_end_single by (assumption || congruence);
        reflexivity).
  assert (Hbody : scan_body all_valid s lx2 =
                  ((interpolation_start all_valid ;;
                    indented_string_content all_valid) ;;
                   interpolation_end all_valid) s (advance lx2)).
  { rewrite scan_body_in_indented_string by (assumption || lia).
    unfold seq. rewrite Hend. reflexivity. }
  exists lx'.
  do 5 (split; [assumption |]).
  rewrite Hp. fold lx2.
  intros r s2 lx3 H.
  pose proof (scan_effect _ _ _ _ _ _ H) as Heff.
  unfold tree_sitter_nix_external_scanner_scan in H. rewrite Hbody in H.
  assert (Hkind : r = true -> result_symbol lx3 <> INDENTED_STRING_END).
  { intros ->.
    destruct (((interpolation_start all_valid ;;
                indented_string_content all_valid) ;;
               interpolation_end all_valid) s (advance lx2))
      as [r1 s1 lx1 | s1 lx1] eqn:ER; inversion H; subst.
    exact (after_end_rule_never_end all_valid _ _ _ _ ER). }
  split; [| split; [exact Hkind |]].
  - inversion Heff; subst;
      cbn [in_indented_string set_in_string set_in_indented_string
           set_interpolation_depth set_brace_depth];
      try assumption; try congruence.
    exfalso. now apply Hkind.
  - intros ->.
    assert (L0 : lookahead (advance lx2) = 0) by exact L3.
    unfold seq, interpolation_start, indented_string_content,
      interpolation_end in H.
    rewrite L0 in H. cbn [all_valid andb Z.eqb] in H.
    rewrite scan_indented_string_content_at_end in H by exact L0.
    change (lookahead (mark_end (advance lx2)))
      with (lookahead (advance lx2)) in H.
    rewrite L0 in H. cbn [Z.eqb] in H.
    destruct ((0 <? interpolation_depth s) && all_valid INTERPOLATION_END);
      inversion H; auto.
Qed.

Lemma indented_content_takes_closer_quote_witness :
  exists lx',
    scan (mkScanner false true 0 0 0)
         (lexer_start (chars "''a''; x = 1;") 2) all_valid =
    (true, mkScanner false true 0 0 0, lx') /\
    result_symbol lx' = INDENTED_STRING_CONTENT /\
    token_start lx' = 2%nat /\
    token_text lx' = chars "a" ++ [39] /\
    token_end_position lx' = (2 + length (chars "a") + 1)%nat /\
    forall r s2 lx2,
      scan (mkScanner false true 0 0 0)
           (lexer_start (chars "''a''; x = 1;") (token_end_position lx'))
           all_valid =
      (r, s2, lx2) ->
      in_indented_string s2 = true /\
      (r = true -> result_symbol lx2 <> INDENTED_STRING_END) /\
      (chars "; x = 1;" = [] ->
       r = false /\ s2 = mkScanner false true 0 0 0).
Proof.
  apply (indented_content_takes_closer_quote (mkScanner false true 0 0 0)
           (chars "''a''; x = 1;") 2 (chars "a") (chars "; x = 1;"));
    try reflexivity; try (vm_compute; discriminate).
  repeat split; try reflexivity.
  vm_compute. intuition discriminate.
Defined.

(** ** Every token is non-empty *)

Lemma moved_refl (lx : TSLexer) : moved lx lx.
Proof. unfold moved. repeat split; lia. Qed.

Lemma moved_trans (a b c : TSLexer) : moved a b -> moved b c -> moved a c.
Proof.
  intros (Hi & Hs & He & Hp & Hm) (Hi' & Hs' & He' & Hp' & Hm').
  unfold moved. rewrite Hi in *.
  repeat split; try congruence; lia.
Qed.

Lemma moved_advance (lx : TSLexer) : moved lx (advance lx).
Proof.
  unfold moved, advance, lexer_advance.
  destruct (position lx <? length (input lx))%nat eqn:E; simpl;
    repeat split; try lia.
  apply Nat.ltb_lt in E. lia.
Qed.

Lemma moved_advance_strict (lx lx1 : TSLexer) :
  lookahead lx <> 0 -> moved (advance lx) lx1 ->
  moved lx lx1 /\ (position lx < position lx1)%nat.
Proof.
  intros H0 M.
  split; [exact (moved_trans _ _ _ (moved_advance lx) M) |].
  destruct M as (_ & _ & _ & Hp & _).
  rewrite advance_position in Hp by exact H0. lia.
Qed.

Lemma line_comment_loop_moved (fuel : nat) :
  forall lx : TSLexer, moved lx (line_comment_loop fuel lx).
Proof.
  induction fuel as [| fuel IH]; intros lx; simpl; [apply moved_refl |].
  destruct (negb (lookahead lx =? 0) && negb (lookahead lx =? 10));
    [| apply moved_refl].
  exact (moved_trans _ _ _ (moved_advance lx) (IH _)).
Qed.

Lemma block_comment_loop_moved (fuel : nat) :
  forall (lx : TSLexer) (d : Z),
    moved lx (snd (block_comment_loop fuel lx d)).
Proof.
  induction fuel as [| fuel IH]; intros lx d; simpl; [apply moved_refl |].
  destruct ((0 <? d) && negb (lookahead lx =? 0)); [| apply moved_refl].
  destruct (lookahead lx =? 47).
  - destruct (lookahead (advance lx) =? 42).
    + exact (moved_trans _ _ _ (moved_advance lx)
               (moved_trans _ _ _ (moved_advance _) (IH _ _))).
    + exact (moved_trans _ _ _ (moved_advance lx) (IH _ _)).
  - destruct (lookahead lx =? 42).
    + destruct (lookahead (advance lx) =? 47).
      * exact (moved_trans _ _ _ (moved_advance lx)
                 (moved_trans _ _ _ (moved_advance _) (IH _ _))).
      * exact (moved_trans _ _ _ (moved_advance lx) (IH _ _)).
    + exact (moved_trans _ _ _ (moved_advance lx) (IH _ _)).
Qed.

Lemma scan_comment_moved (lx : TSLexer) (found : bool) (lx1 : TSLexer) :
  scan_comment lx = (found, lx1) ->
  moved lx lx1 /\ (found = true -> (position lx < position lx1)%nat).
Proof.
  unfold scan_comment.
  destruct (lookahead lx =? 35) eqn:H35.
  { intros H. inversion H; subst. apply Z.eqb_eq in H35.
    destruct (moved_advance_strict lx
                (line_comment_loop (S (remaining (advance lx))) (advance lx)))
      as [M P]; [lia | apply line_comment_loop_moved |].
    split; [exact M | intros _; exact P]. }
  destruct (lookahead lx =? 47) eqn:H47.
  2: { intros H. inversion H; subst.
       split; [apply moved_refl | discriminate]. }
  apply Z.eqb_eq in H47.
  destruct (lookahead (advance lx) =? 42) eqn:H42.
  2: { intros H. inversion H; subst.
       split; [apply moved_advance | discriminate]. }
  pose proof (block_comment_loop_moved
                (S (remaining (advance (advance lx))))
                (advance (advance lx)) 1) as M.
  destruct (block_comment_loop (S (remaining (advance (advance lx))))
              (advance (advance lx)) 1) as [depth lx3].
  intros H. inversion H; subst. cbn [snd] in M.
  destruct (moved_advance_strict lx lx1) as [M' P];
    [lia | exact (moved_trans _ _ _ (moved_advance _) M) |].
  split; [exact M' | intros _; exact P].
Qed.

Lemma scan_escape_sequence_moved (lx : TSLexer) (found : bool)
    (lx1 : TSLexer) :
  scan_escape_sequence lx = (found, lx1) ->
  moved lx lx1 /\ (found = true -> (position lx < position lx1)%nat).
Proof.
  unfold scan_escape_sequence.
  destruct (lookahead lx =? 92) eqn:H92; cbn [negb].
  2: { intros H. inversion H; subst.
       split; [apply moved_refl | discriminate]. }
  apply Z.eqb_eq in H92.
  assert (N0 : lookahead lx <> 0) by lia.
  assert (S1 : forall l, moved (advance lx) l ->
                         moved lx l /\ (position lx < position l)%nat)
    by (intros l; now apply moved_advance_strict).
  pose proof (moved_advance (advance lx)) as M1.
  pose proof (moved_advance (advance (advance lx))) as M2.
  pose proof (moved_advance (advance (advance (advance lx)))) as M3.
  destruct (is_simple_escape (lookahead (advance lx))).
  { intros H. inversion H; subst.
    destruct (S1 _ M1). auto. }
  destruct (lookahead (advance lx) =? 120).
  2: { intros H. inversion H; subst.
       destruct (S1 _ (moved_refl _)). split; [assumption | discriminate]. }
  destruct (is_hex_digit (lookahead (advance (advance lx)))).
  2: { intros H. inversion H; subst.
       destruct (S1 _ M1). split; [assumption | discriminate]. }
  destruct (is_hex_digit (lookahead (advance (advance (advance lx))))).
  - intros H. inversion H; subst.
    destruct (S1 _ (moved_trans _ _ _ M1 (moved_trans _ _ _ M2 M3))). auto.
  - intros H. inversion H; subst.
    destruct (S1 _ (moved_trans _ _ _ M1 M2)).
    split; [assumption | discriminate].
Qed.

Lemma fresh_moved (inp : list Z) (pos : nat) (lx lx1 : TSLexer) :
  fresh_inv inp pos lx -> moved lx lx1 -> fresh_inv inp pos lx1.
Proof.
  intros (Hi & Hs & Hp & He) (Hi' & Hs' & He' & Hp' & _).
  unfold fresh_inv. rewrite Hi', Hs', He'. repeat split; try assumption; lia.
Qed.

Lemma fresh_call_inv (inp : list Z) (pos : nat) (lx : TSLexer) :
  fresh_inv inp pos lx -> call_inv inp pos lx.
Proof. intros (Hi & Hs & Hp & He). unfold call_inv. auto. Qed.

(** A token made of the characters advanced over is a good one. *)
Lemma token_good_unmarked (inp : list Z) (pos : nat) (lx lx1 : TSLexer)
    (k : TokenType) :
  fresh_inv inp pos lx -> moved lx lx1 ->
  (position lx < position lx1)%nat ->
  token_good inp pos (set_result_symbol lx1 k).
Proof.
  intros (Hi & Hs & Hp & He) (Hi' & Hs' & He' & Hp' & Hm) Hlt.
  unfold token_good, token_end_position.
  cbn [set_result_symbol input token_start token_end position].
  rewrite Hi', Hs', He', He, Hi. rewrite Hi in Hm.
  repeat split; try assumption; lia.
Qed.

Lemma token_good_advance (inp : list Z) (pos : nat) (lx : TSLexer)
    (k : TokenType) :
  fresh_inv inp pos lx -> lookahead lx <> 0 ->
  token_good inp pos (set_result_symbol (advance lx) k).
Proof.
  intros F N0.
  destruct (moved_advance_strict lx (advance lx) N0 (moved_refl _)).
  now apply (token_good_unmarked inp pos lx).
Qed.

Lemma token_good_advance2 (inp : list Z) (pos : nat) (lx : TSLexer)
    (k : TokenType) :
  fresh_inv inp pos lx -> lookahead lx <> 0 ->
  token_good inp pos (set_result_symbol (advance (advance lx)) k).
Proof.
  intros F N0.
  destruct (moved_advance_strict lx (advance (advance lx)) N0
              (moved_advance _)).
  now apply (token_good_unmarked inp pos lx).
Qed.

Lemma seq_keeps (inp : list Z) (pos : nat) (P Q R : TSLexer -> Prop)
    (a b : stage) :
  stage_keeps inp pos P Q a -> stage_keeps inp pos Q R b ->
  stage_keeps inp pos P R (a ;; b).
Proof.
  intros Ha Hb s lx HP. unfold seq.
  specialize (Ha s lx HP).
  destruct (a s lx) as [r s1 lx1 | s1 lx1]; [exact Ha |].
  exact (Hb s1 lx1 Ha).
Qed.

Lemma skip_whitespace_loop_fresh (inp : list Z) (pos : nat) (fuel : nat) :
  forall lx : TSLexer,
    fresh_inv inp pos lx -> fresh_inv inp pos (skip_whitespace_loop fuel lx).
Proof.
  induction fuel as [| fuel IH]; intros lx F; simpl; [exact F |].
  destruct (is_whitespace (lookahead lx)); [| exact F].
  apply IH. destruct F as (Hi & Hs & Hp & He).
  unfold fresh_inv, skip, lexer_advance.
  destruct (position lx <? length (input lx))%nat; simpl;
    repeat split; try assumption; lia.
Qed.

Lemma skip_whitespace_keeps (inp : list Z) (pos : nat) :
  stage_keeps inp pos (fresh_inv inp pos) (fresh_inv inp pos)
    skip_whitespace.
Proof.
  intros s lx F. unfold skip_whitespace.
  destruct (negb (in_string s) && negb (in_indented_string s));
    [now apply skip_whitespace_loop_fresh | exact F].
Qed.

Lemma handle_comment_keeps (inp : list Z) (pos : nat)
    (valid : valid_symbols) :
  stage_keeps inp pos (fresh_inv inp pos) (fresh_inv inp pos)
    (handle_comment valid).
Proof.
  intros s lx F. unfold handle_comment.
  destruct (valid COMMENT); [| exact F].
  destruct (scan_comment lx) as [found lx1] eqn:E.
  destruct (scan_comment_moved lx found lx1 E) as [M P].
  destruct found.
  - apply (token_good_unmarked inp pos lx); auto.
  - now apply (fresh_moved inp pos lx).
Qed.

Lemma handle_string_entry_keeps (inp : list Z) (pos : nat)
    (valid : valid_symbols) :
  stage_keeps inp pos (fresh_inv inp pos) (fresh_inv inp pos)
    (handle_string_entry valid).
Proof.
  intros s lx F. unfold handle_string_entry.
  destruct (negb (in_string s) && negb (in_indented_string s)); [| exact F].
  unfold string_start, indented_string_start, seq.
  destruct (valid STRING_START && (lookahead lx =? 34)) eqn:E1.
  { apply andb_prop in E1. destruct E1 as [_ E1]. apply Z.eqb_eq in E1.
    apply token_good_advance; [exact F | lia]. }
  destruct (valid INDENTED_STRING_START && (lookahead lx =? 39)) eqn:E2;
    [| exact F].
  apply andb_prop in E2. destruct E2 as [_ E2]. apply Z.eqb_eq in E2.
  destruct (lookahead (advance lx) =? 39).
  - apply token_good_advance2; [exact F | lia].
  - exact (fresh_moved inp pos lx _ F (moved_advance lx)).
Qed.

Lemma string_end_keeps (inp : list Z) (pos : nat) (valid : valid_symbols) :
  stage_keeps inp pos (fresh_inv inp pos) (fresh_inv inp pos)
    (string_end valid).
Proof.
  intros s lx F. unfold string_end.
  destruct (valid STRING_END && (lookahead lx =? 34)) eqn:E1; [| exact F].
  apply andb_prop in E1. destruct E1 as [_ E1]. apply Z.eqb_eq in E1.
  apply token_good_advance; [exact F | lia].
Qed.

Lemma interpolation_start_keeps_fresh (inp : list Z) (pos : nat)
    (valid : valid_symbols) :
  stage_keeps inp pos (fresh_inv inp pos) (fresh_inv inp pos)
    (interpolation_start valid).
Proof.
  intros s lx F. unfold interpolation_start.
  destruct (valid INTERPOLATION_START && (lookahead lx =? 36)) eqn:E1;
    [| exact F].
  apply andb_prop in E1. destruct E1 as [_ E1]. apply Z.eqb_eq in E1.
  destruct (lookahead (advance lx) =? 123).
  - apply token_good_advance2; [exact F | lia].
  - exact (fresh_moved inp pos lx _ F (moved_advance lx)).
Qed.

Lemma escape_sequence_keeps (inp : list Z) (pos : nat)
    (valid : valid_symbols) :
  stage_keeps inp pos (fresh_inv inp pos) (fresh_inv inp pos)
    (escape_sequence valid).
Proof.
  intros s lx F. unfold escape_sequence.
  destruct (valid ESCAPE_SEQUENCE); [| exact F].
  destruct (scan_escape_sequence lx) as [found lx1] eqn:E.
  destruct (scan_escape_sequence_moved lx found lx1 E) as [M P].
  destruct found.
  - apply (token_good_unmarked inp pos lx); auto.
  - now apply (fresh_moved inp pos lx).
Qed.

Lemma content_run_length (cs : list Z) :
  (length (content_run cs) <= length cs)%nat.
Proof.
  rewrite (content_run_prefix cs) at 2. rewrite length_app. lia.
Qed.

Lemma indented_marked_le (cs : list Z) :
  forall q : Z, (indented_marked q cs <= length cs)%nat.
Proof.
  induction cs as [| c cs IH]; intros q; simpl; [lia |].
  destruct (c =? 0); [lia |].
  destruct (c =? 39).
  - destruct (q + 1 =? 2); [lia |]. specialize (IH (q + 1)). lia.
  - destruct ((c =? 36) && (hd 0 cs =? 123)); [lia |].
    specialize (IH 0). lia.
Qed.

(** A token whose end was marked [n] characters after the position the
    content rule started at. *)
Lemma token_good_marked (inp : list Z) (pos : nat) (lx lx' : TSLexer)
    (n : nat) (k : TokenType) :
  call_inv inp pos lx ->
  input lx' = input lx -> token_start lx' = token_start lx ->
  token_end lx' = Some (position lx + n)%nat ->
  (0 < n)%nat ->
  (n <= length (skipn (position lx) (input lx)))%nat ->
  token_good inp pos (set_result_symbol lx' k).
Proof.
  intros (Hi & Hs & Hp & _) Hi' Hs' He Hn Hle.
  unfold token_good, token_end_position.
  cbn [set_result_symbol input token_start token_end].
  rewrite He, Hs', Hi', Hi.
  rewrite length_skipn, Hi in Hle.
  repeat split; try assumption; lia.
Qed.

Lemma scan_string_content_fail (lx lx' : TSLexer) :
  scan_string_content lx = (false, lx') ->
  (position lx <= position lx')%nat /\ stale lx'.
Proof.
  unfold scan_string_content. cbn [scan_string_content_loop].
  change (lookahead (mark_end lx)) with (lookahead lx).
  unfold stale.
  destruct (lookahead lx =? 0) eqn:H0.
  { intros H. inversion H; subst. apply Z.eqb_eq in H0.
    split; [simpl; lia | now left]. }
  destruct (lookahead lx =? 34) eqn:H34.
  { intros H. inversion H; subst. apply Z.eqb_eq in H34.
    split; [simpl; lia | right; now left]. }
  destruct (lookahead lx =? 92) eqn:H92.
  { intros H. inversion H; subst. apply Z.eqb_eq in H92.
    split; [simpl; lia | right; right; now left]. }
  apply Z.eqb_neq in H0.
  assert (N0 : lookahead (mark_end lx) <> 0) by exact H0.
  pose proof (remaining_advance (mark_end lx) N0) as Hrem.
  pose proof (advance_position (mark_end lx) N0) as Hpos.
  change (remaining (mark_end lx)) with (remaining lx) in Hrem.
  change (position (mark_end lx)) with (position lx) in Hpos.
  destruct (scan_string_content_loop_spec (remaining lx)
              (mark_end (advance (mark_end lx))) true)
    as (lx2 & E & _);
    [change (remaining (mark_end (advance (mark_end lx))))
       with (remaining (advance (mark_end lx))); lia
    | reflexivity |].
  cbn [orb] in E.
  destruct (lookahead lx =? 36).
  - destruct (lookahead (advance (mark_end lx)) =? 123) eqn:H123.
    + intros H. inversion H; subst. apply Z.eqb_eq in H123.
      split; [lia | right; right; now right].
    + rewrite E. discriminate.
  - rewrite E. discriminate.
Qed.

Lemma scan_indented_string_content_fail (lx lx' : TSLexer) :
  scan_indented_string_content lx = (false, lx') ->
  (position lx <= position lx')%nat /\ stale lx'.
Proof.
  unfold scan_indented_string_content.
  cbn [scan_indented_string_content_loop].
  change (lookahead (mark_end lx)) with (lookahead lx).
  unfold stale.
  destruct (lookahead lx =? 0) eqn:H0.
  { intros H. inversion H; subst. apply Z.eqb_eq in H0.
    split; [simpl; lia | now left]. }
  apply Z.eqb_neq in H0.
  assert (N0 : lookahead (mark_end lx) <> 0) by exact H0.
  pose proof (remaining_advance (mark_end lx) N0) as Hrem.
  pose proof (advance_position (mark_end lx) N0) as Hpos.
  change (remaining (mark_end lx)) with (remaining lx) in Hrem.
  change (position (mark_end lx)) with (position lx) in Hpos.
  assert (T : forall q,
             fst (scan_indented_string_content_loop (remaining lx)
                    (mark_end (advance (mark_end lx))) true q) = true).
  { intros q.
    destruct (scan_indented_string_content_loop_spec (remaining lx)
                (mark_end (advance (mark_end lx))) true q)
      as (lx2 & E & _);
      [change (remaining (mark_end (advance (mark_end lx))))
         with (remaining (advance (mark_end lx))); lia
      | reflexivity |].
    now rewrite E. }
  destruct (lookahead lx =? 39).
  { cbn [Z.add Z.eqb Pos.eqb Pos.add].
    intros H. specialize (T 1). cbn [Z.add] in *.
    rewrite H in T. discriminate. }
  destruct (lookahead lx =? 36).
  - destruct (lookahead (advance (mark_end lx)) =? 123) eqn:H123.
    + intros H. inversion H; subst. apply Z.eqb_eq in H123.
      split; [lia | right; right; now right].
    + intros H. specialize (T 0). rewrite H in T. discriminate.
  - intros H. specialize (T 0). rewrite H in T. discriminate.
Qed.

Lemma string_content_keeps (inp : list Z) (pos : nat)
    (valid : valid_symbols) :
  stage_keeps inp pos (fresh_inv inp pos) (call_inv inp pos)
    (string_content valid).
Proof.
  intros s lx F. apply fresh_call_inv in F. unfold string_content.
  destruct (valid STRING_CONTENT); [| exact F].
  destruct (scan_string_content_spec lx) as (lx' & E & Hi & Hs & _ & He).
  rewrite E.
  destruct (nonempty (content_run (skipn (position lx) (input lx))))
    eqn:Hn.
  - apply (token_good_marked inp pos lx lx' _ _ F Hi Hs He).
    + destruct (content_run (skipn (position lx) (input lx)));
        [discriminate | simpl; lia].
    + apply content_run_length.
  - destruct (scan_string_content_fail lx lx' E) as [Hp St].
    destruct F as (Hi0 & Hs0 & Hp0 & _).
    unfold call_inv. rewrite Hi, Hs.
    repeat split; try assumption; [lia | now right].
Qed.

Lemma indented_string_content_keeps (inp : list Z) (pos : nat)
    (valid : valid_symbols) :
  stage_keeps inp pos (call_inv inp pos) (call_inv inp pos)
    (indented_string_content valid).
Proof.
  intros s lx F. unfold indented_string_content.
  destruct (valid INDENTED_STRING_CONTENT); [| exact F].
  destruct (scan_indented_string_content_spec lx)
    as (lx' & E & Hi & Hs & _ & He).
  rewrite E.
  destruct (0 <? indented_marked 0 (skipn (position lx) (input lx)))%nat
    eqn:Hn.
  - apply (token_good_marked inp pos lx lx' _ _ F Hi Hs He).
    + now apply Nat.ltb_lt.
    + apply indented_marked_le.
  - destruct (scan_indented_string_content_fail lx lx' E) as [Hp St].
    destruct F as (Hi0 & Hs0 & Hp0 & _).
    unfold call_inv. rewrite Hi, Hs.
    repeat split; try assumption; [lia | now right].
Qed.

(** At a character no content rule gives up at, no end is marked. *)
Lemma call_inv_fresh (inp : list Z) (pos : nat) (lx : TSLexer) :
  call_inv inp pos lx ->
  lookahead lx <> 0 -> lookahead lx <> 34 -> lookahead lx <> 92 ->
  lookahead lx <> 123 ->
  fresh_inv inp pos lx.
Proof.
  intros (Hi & Hs & Hp & [He | St]) N0 N34 N92 N123.
  - unfold fresh_inv. auto.
  - unfold stale in St. intuition.
Qed.

Lemma indented_string_end_keeps (inp : list Z) (pos : nat)
    (valid : valid_symbols) :
  stage_keeps inp pos (call_inv inp pos) (call_inv inp pos)
    (indented_string_end valid).
Proof.
  intros s lx F. unfold indented_string_end.
  destruct (valid INDENTED_STRING_END && (lookahead lx =? 39)) eqn:E1;
    [| exact F].
  apply andb_prop in E1. destruct E1 as [_ E1]. apply Z.eqb_eq in E1.
  apply call_inv_fresh in F; try lia.
  destruct (lookahead (advance lx) =? 39).
  - apply token_good_advance2; [exact F | lia].
  - apply fresh_call_inv.
    exact (fresh_moved inp pos lx _ F (moved_advance lx)).
Qed.

Lemma interpolation_start_keeps (inp : list Z) (pos : nat)
    (valid : valid_symbols) :
  stage_keeps inp pos (call_inv inp pos) (call_inv inp pos)
    (interpolation_start valid).
Proof.
  intros s lx F. unfold interpolation_start.
  destruct (valid INTERPOLATION_START && (lookahead lx =? 36)) eqn:E1;
    [| exact F].
  apply andb_prop in E1. destruct E1 as [_ E1]. apply Z.eqb_eq in E1.
  apply call_inv_fresh in F; try lia.
  destruct (lookahead (advance lx) =? 123).
  - apply token_good_advance2; [exact F | lia].
  - apply fresh_call_inv.
    exact (fresh_moved inp pos lx _ F (moved_advance lx)).
Qed.

Lemma interpolation_end_keeps (inp : list Z) (pos : nat)
    (valid : valid_symbols) :
  stage_keeps inp pos (call_inv inp pos) (call_inv inp pos)
    (interpolation_end valid).
Proof.
  intros s lx F. unfold interpolation_end.
  destruct ((0 <? interpolation_depth s) && valid INTERPOLATION_END);
    [| exact I].
  destruct (lookahead lx =? 123); [exact I |].
  destruct (lookahead lx =? 125) eqn:E1; [| exact I].
  apply Z.eqb_eq in E1.
  destruct (brace_depth (set_brace_depth s (int_wrap (brace_depth s - 1)))
            =? 0);
    [| exact I].
  apply call_inv_fresh in F; try lia.
  apply token_good_advance; [exact F | lia].
Qed.

Lemma inside_string_keeps (inp : list Z) (pos : nat)
    (valid : valid_symbols) :
  stage_keeps inp pos (fresh_inv inp pos) (call_inv inp pos)
    (inside_string valid).
Proof.
  intros s lx F. unfold inside_string.
  destruct (in_string s); [| now apply fresh_call_inv].
  revert s lx F.
  apply (seq_keeps inp pos _ (fresh_inv inp pos));
    [apply string_end_keeps |].
  apply (seq_keeps inp pos _ (fresh_inv inp pos));
    [apply interpolation_start_keeps_fresh |].
  apply (seq_keeps inp pos _ (fresh_inv inp pos));
    [apply escape_sequence_keeps | apply string_content_keeps].
Qed.

Lemma inside_indented_string_keeps (inp : list Z) (pos : nat)
    (valid : valid_symbols) :
  stage_keeps inp pos (call_inv inp pos) (call_inv inp pos)
    (inside_indented_string valid).
Proof.
  intros s lx F. unfold inside_indented_string.
  destruct (in_indented_string s); [| exact F].
  revert s lx F.
  apply (seq_keeps inp pos _ (call_inv inp pos));
    [apply indented_string_end_keeps |].
  apply (seq_keeps inp pos _ (call_inv inp pos));
    [apply interpolation_start_keeps | apply indented_string_content_keeps].
Qed.

Lemma scan_body_keeps (inp : list Z) (pos : nat) (valid : valid_symbols) :
  stage_keeps inp pos (fresh_inv inp pos) (call_inv inp pos)
    (scan_body valid).
Proof.
  unfold scan_body.
  apply (seq_keeps inp pos _ (fresh_inv inp pos));
    [apply skip_whitespace_keeps |].
  apply (seq_keeps inp pos _ (fresh_inv inp pos));
    [apply handle_comment_keeps |].
  apply (seq_keeps inp pos _ (fresh_inv inp pos));
    [apply handle_string_entry_keeps |].
  apply (seq_keeps inp pos _ (call_inv inp pos));
    [apply inside_string_keeps |].
  apply (seq_keeps inp pos _ (call_inv inp pos));
    [apply inside_indented_string_keeps | apply interpolation_end_keeps].
Qed.

(** Whatever the state and the admissible kinds, a call that produces a
    token produces a non-empty one: the token starts at or after the
    offset the call started at (after it only where whitespace was
    skipped), ends after its start, and lies within the input.  A parser
    that calls again where the token ended therefore always moves on. *)
Theorem token_is_nonempty (s : Scanner) (inp : list Z) (pos : nat)
    (valid : valid_symbols) (s' : Scanner) (lx' : TSLexer) :
  scan s (lexer_start inp pos) valid = (true, s', lx') ->
  input lx' = inp /\
  (pos <= token_start lx')%nat /\
  (token_start lx' < token_end_position lx')%nat /\
  (token_end_position lx' <= length inp)%nat /\
  token_text lx' <> [].
Proof.
  intros H.
  assert (F : fresh_inv inp pos (lexer_start inp pos))
    by (unfold fresh_inv; simpl; auto).
  pose proof (scan_body_keeps inp pos valid s _ F) as K.
  unfold tree_sitter_nix_external_scanner_scan in H.
  destruct (scan_body valid s (lexer_start inp pos)) as [r s1 lx1 | s1 lx1];
    inversion H; subst.
  destruct K as (Hi & Hs & Hlt & Hle).
  repeat split; try assumption.
  unfold token_text. rewrite Hi.
  destruct (skipn (token_start lx') inp) as [| c r] eqn:E.
  - apply (f_equal (@length Z)) in E. rewrite length_skipn in E.
    simpl in E. lia.
  - destruct (token_end_position lx' - token_start lx')%nat eqn:D; [lia |].
    discriminate.
Qed.

Lemma token_is_nonempty_witness :
  input (mkLexer (chars "  /* c */ x") 9 2 None COMMENT) =
  chars "  /* c */ x" /\
  (0 <= token_start (mkLexer (chars "  /* c */ x") 9 2 None COMMENT))%nat /\
  (token_start (mkLexer (chars "  /* c */ x") 9 2 None COMMENT) <
   token_end_position (mkLexer (chars "  /* c */ x") 9 2 None COMMENT))%nat /\
  (token_end_position (mkLexer (chars "  /* c */ x") 9 2 None COMMENT) <=
   length (chars "  /* c */ x"))%nat /\
  token_text (mkLexer (chars "  /* c */ x") 9 2 None COMMENT) <> [].
Proof.
  apply (token_is_nonempty tree_sitter_nix_external_scanner_create
           (chars "  /* c */ x") 0 all_valid
           tree_sitter_nix_external_scanner_create).
  reflexivity.
Defined.

(** ** Braces inside an interpolation *)

Lemma scan_run_app (a b : list (TSLexer * valid_symbols)) :
  forall s : Scanner, scan_run s (a ++ b) = scan_run (scan_run s a) b.
Proof.
  induction a as [| [lx valid] a IH]; intros s; simpl; [reflexivity |].
  destruct (scan s lx valid) as [[r s1] lx1]. apply IH.
Qed.

Lemma scan_run_produced_app (a b : list (TSLexer * valid_symbols)) :
  forall s : Scanner,
    scan_run_produced s (a ++ b) =
    scan_run_produced s a ++ scan_run_produced (scan_run s a) b.
Proof.
  induction a as [| [lx valid] a IH]; intros s; simpl; [reflexivity |].
  destruct (scan s lx valid) as [[r s1] lx1]. simpl. now rewrite IH.
Qed.

Lemma scan_at_open_brace (s : Scanner) (lx : TSLexer)
    (valid : valid_symbols) :
  0 < interpolation_depth s ->
  INT_MIN <= brace_depth s < INT_MAX ->
  brace_call s 123 (lx, valid) ->
  scan s lx valid =
  (false, set_brace_depth s (brace_depth s + 1), advance lx).
Proof.
  intros Hd Hb (Hc & Hv & Hsilent). cbn [fst snd] in *.
  destruct (scan_at_brace s lx valid Hd Hv Hsilent) as (Ho & _ & _).
  rewrite (Ho Hc), int_wrap_id by int_bounds. reflexivity.
Qed.

Lemma scan_at_close_brace (s : Scanner) (lx : TSLexer)
    (valid : valid_symbols) :
  0 < interpolation_depth s ->
  INT_MIN < brace_depth s <= INT_MAX ->
  brace_depth s - 1 <> 0 ->
  brace_call s 125 (lx, valid) ->
  scan s lx valid =
  (false, set_brace_depth s (brace_depth s - 1), advance lx).
Proof.
  intros Hd Hb Hz (Hc & Hv & Hsilent). cbn [fst snd] in *.
  destruct (scan_at_brace s lx valid Hd Hv Hsilent) as (_ & _ & Hcl).
  assert (Hw : int_wrap (brace_depth s - 1) = brace_depth s - 1)
    by (apply int_wrap_id; int_bounds).
  rewrite (Hcl Hc) by (rewrite Hw; exact Hz).
  now rewrite Hw.
Qed.

Lemma open_braces_run (opens : list (TSLexer * valid_symbols)) :
  forall s : Scanner,
    0 < interpolation_depth s ->
    INT_MIN <= brace_depth s ->
    brace_depth s + Z.of_nat (length opens) <= INT_MAX ->
    Forall (brace_call s 123) opens ->
    scan_run s opens =
    set_brace_depth s (brace_depth s + Z.of_nat (length opens)) /\
    scan_run_produced s opens = repeat false (length opens).
Proof.
  induction opens as [| [lx valid] opens IH]; intros s Hd Hmin Hmax Hall.
  - simpl. rewrite Z.add_0_r. split; [now destruct s | reflexivity].
  - inversion Hall as [| c l Hc Hl]; subst.
    cbn [length] in Hmax.
    cbn [scan_run scan_run_produced].
    rewrite (scan_at_open_brace s lx valid Hd) by (lia || exact Hc).
    destruct (IH (set_brace_depth s (brace_depth s + 1)) Hd) as [R P];
      [cbn [set_brace_depth brace_depth]; lia
      | cbn [set_brace_depth brace_depth]; lia
      | exact Hl |].
    rewrite R, P. split; [| reflexivity].
    unfold set_brace_depth. cbn [in_string in_indented_string
      interpolation_depth paren_depth brace_depth length].
    f_equal. lia.
Qed.

Lemma close_braces_run (closes : list (TSLexer * valid_symbols)) :
  forall s : Scanner,
    0 < interpolation_depth s ->
    Z.of_nat (length closes) < brace_depth s ->
    brace_depth s <= INT_MAX ->
    Forall (brace_call s 125) closes ->
    scan_run s closes =
    set_brace_depth s (brace_depth s - Z.of_nat (length closes)) /\
    scan_run_produced s closes = repeat false (length closes).
Proof.
  induction closes as [| [lx valid] closes IH]; intros s Hd Hb Hmax Hall.
  - simpl. rewrite Z.sub_0_r. split; [now destruct s | reflexivity].
  - inversion Hall as [| c l Hc Hl]; subst.
    cbn [length] in Hb.
    cbn [scan_run scan_run_produced].
    rewrite (scan_at_close_brace s lx valid Hd)
      by (unfold INT_MIN; lia || exact Hc).
    destruct (IH (set_brace_depth s (brace_depth s - 1)) Hd) as [R P];
      [cbn [set_brace_depth brace_depth]; lia
      | cbn [set_brace_depth brace_depth]; lia
      | exact Hl |].
    rewrite R, P. split; [| reflexivity].
    unfold set_brace_depth. cbn [in_string in_indented_string
      interpolation_depth paren_depth brace_depth length].
    f_equal. lia.
Qed.

(** Inside an interpolation whose brace depth is positive, braces that
    are balanced are passed over without a token and leave the state as it
    was: calls at [n] opening braces and then at [n] closing braces, each
    with interpolation-end admissible and the content kind of the string
    around not admissible, produce nothing, and after them every field of
    the state has the value it had before.  The brace depth with [n] added
    does not pass [INT_MAX], so that no increment overflows. *)
Theorem balanced_braces_are_transparent (s : Scanner)
    (opens closes : list (TSLexer * valid_symbols)) :
  0 < interpolation_depth s ->
  0 < brace_depth s ->
  brace_depth s + Z.of_nat (length opens) <= INT_MAX ->
  length opens = length closes ->
  Forall (brace_call s 123) opens ->
  Forall (brace_call s 125) closes ->
  scan_run s (opens ++ closes) = s /\
  scan_run_produced s (opens ++ closes) =
  repeat false (length opens + length closes).
Proof.
  intros Hd Hb Hmax Hlen Ho Hc.
  destruct (open_braces_run opens s Hd) as [R1 P1];
    [unfold INT_MIN; lia | exact Hmax | exact Ho |].
  destruct (close_braces_run closes
              (set_brace_depth s (brace_depth s + Z.of_nat (length opens))))
    as [R2 P2];
    [exact Hd
    | cbn [set_brace_depth brace_depth]; lia
    | cbn [set_brace_depth brace_depth]; lia
    | exact Hc |].
  rewrite scan_run_app, scan_run_produced_app, R1, R2, P1, P2.
  split.
  - unfold set_brace_depth. cbn [in_string in_indented_string
      interpolation_depth paren_depth brace_depth].
    destruct s; simpl. f_equal. lia.
  - now rewrite repeat_app.
Qed.

Lemma balanced_braces_are_transparent_witness :
  scan_run (mkScanner true false 1 0 1)
    ([(lexer_start (chars "{{}}") 0, only [INTERPOLATION_END]);
      (lexer_start (chars "{{}}") 1, only [INTERPOLATION_END])] ++
     [(lexer_start (chars "{{}}") 2, only [INTERPOLATION_END]);
      (lexer_start (chars "{{}}") 3, only [INTERPOLATION_END])]) =
  mkScanner true false 1 0 1 /\
  scan_run_produced (mkScanner true false 1 0 1)
    ([(lexer_start (chars "{{}}") 0, only [INTERPOLATION_END]);
      (lexer_start (chars "{{}}") 1, only [INTERPOLATION_END])] ++
     [(lexer_start (chars "{{}}") 2, only [INTERPOLATION_END]);
      (lexer_start (chars "{{}}") 3, only [INTERPOLATION_END])]) =
  repeat false
    (length [(lexer_start (chars "{{}}") 0, only [INTERPOLATION_END]);
             (lexer_start (chars "{{}}") 1, only [INTERPOLATION_END])] +
     length [(lexer_start (chars "{{}}") 2, only [INTERPOLATION_END]);
             (lexer_start (chars "{{}}") 3, only [INTERPOLATION_END])]).
Proof.
  apply (balanced_braces_are_transparent (mkScanner true false 1 0 1)).
  - simpl. lia.
  - simpl. lia.
  - unfold INT_MAX. simpl. lia.
  - reflexivity.
  - repeat constructor.
  - repeat constructor.
Defined.

Lemma scan_at_last_close_brace (s : Scanner) (lx : TSLexer)
    (valid : valid_symbols) :
  0 < interpolation_depth s ->
  interpolation_depth s <= INT_MAX ->
  brace_depth s = 1 ->
  brace_call s 125 (lx, valid) ->
  scan s lx valid =
  (true,
   set_interpolation_depth (set_brace_depth s 0) (interpolation_depth s - 1),
   set_result_symbol (advance lx) INTERPOLATION_END).
Proof.
  intros Hd Hmax Hz (Hc & Hv & Hsilent). cbn [fst snd] in *.
  destruct (scan_at_brace s lx valid Hd Hv Hsilent) as (_ & Hl & _).
  rewrite (Hl Hc) by (rewrite Hz; reflexivity).
  rewrite int_wrap_id by int_bounds. reflexivity.
Qed.

(** A whole interpolation, from the dollar sign and brace that open it,
    over balanced braces inside, to the brace that closes it: the opening
    call and the closing call each produce a token, the calls between
    produce none, and afterwards the mode flags, [interpolation_depth] and
    [paren_depth] are what they were before the interpolation.
    [brace_depth] is not restored: it is 0, whatever it was.  Before the
    interpolation [interpolation_depth] is at least 0 and below [INT_MAX],
    and there are fewer than [INT_MAX] opening braces inside, so that no
    counter overflows. *)
Theorem interpolation_round_trip (s : Scanner) (lx0 lx1 : TSLexer)
    (valid0 valid1 : valid_symbols)
    (opens closes : list (TSLexer * valid_symbols)) :
  in_string s = true \/ in_indented_string s = true ->
  0 <= interpolation_depth s ->
  interpolation_depth s < INT_MAX ->
  Z.of_nat (length opens) < INT_MAX ->
  valid0 INTERPOLATION_START = true ->
  lookahead lx0 = 36 -> lookahead (advance lx0) = 123 ->
  length opens = length closes ->
  Forall (brace_call s 123) opens ->
  Forall (brace_call s 125) closes ->
  brace_call s 125 (lx1, valid1) ->
  scan_run s ((lx0, valid0) :: opens ++ closes ++ [(lx1, valid1)]) =
  set_brace_depth s 0 /\
  scan_run_produced s ((lx0, valid0) :: opens ++ closes ++ [(lx1, valid1)]) =
  true :: repeat false (length opens + length closes) ++ [true].
Proof.
  intros Hmode Hd Hdmax Hnmax Hv0 H36 H123 Hlen Ho Hc Hlast.
  set (s1 := set_brace_depth
               (set_interpolation_depth s (interpolation_depth s + 1)) 1).
  assert (E0 : scan s lx0 valid0 =
               (true, s1,
                set_result_symbol (advance (advance lx0))
                  INTERPOLATION_START)).
  { rewrite (scan_at_interpolation_open s lx0 valid0 Hmode Hv0 H36 H123).
    rewrite int_wrap_id by int_bounds. reflexivity. }
  assert (Hd1 : 0 < interpolation_depth s1)
    by (cbn [s1 set_brace_depth set_interpolation_depth interpolation_depth];
        lia).
  destruct (open_braces_run opens s1 Hd1) as [R1 P1];
    [cbn [s1 set_brace_depth brace_depth]; unfold INT_MIN; lia
    | cbn [s1 set_brace_depth brace_depth]; lia
    | exact Ho |].
  set (s2 := set_brace_depth s1 (brace_depth s1 + Z.of_nat (length opens)))
    in *.
  destruct (close_braces_run closes s2) as [R2 P2];
    [exact Hd1
    | cbn [s2 s1 set_brace_depth set_interpolation_depth brace_depth]; lia
    | cbn [s2 s1 set_brace_depth set_interpolation_depth brace_depth]; lia
    | exact Hc |].
  set (s3 := set_brace_depth s2 (brace_depth s2 - Z.of_nat (length closes)))
    in *.
  assert (E3 : scan s3 lx1 valid1 =
               (true,
                set_interpolation_depth (set_brace_depth s3 0)
                  (interpolation_depth s3 - 1),
                set_result_symbol (advance lx1) INTERPOLATION_END)).
  { apply scan_at_last_close_brace; [exact Hd1 | | | exact Hlast].
    - cbn [s3 s2 s1 set_brace_depth set_interpolation_depth
           interpolation_depth]. lia.
    - cbn [s3 s2 s1 set_brace_depth set_interpolation_depth brace_depth].
      lia. }
  cbn [scan_run scan_run_produced].
  rewrite E0.
  rewrite !scan_run_app, !scan_run_produced_app, R1, R2, P1, P2.
  cbn [scan_run scan_run_produced]. rewrite E3.
  split.
  - subst s3 s2 s1. unfold set_brace_depth, set_interpolation_depth.
    cbn [in_string in_indented_string interpolation_depth paren_depth
         brace_depth].
    f_equal; lia.
  - rewrite repeat_app, <- app_assoc. reflexivity.
Qed.

Lemma interpolation_round_trip_witness :
  scan_run (mkScanner true false 0 0 5)
    ((lexer_start (chars "${{}}") 0, only [INTERPOLATION_START]) ::
     [(lexer_start (chars "${{}}") 2, only [INTERPOLATION_END])] ++
     [(lexer_start (chars "${{}}") 3, only [INTERPOLATION_END])] ++
     [(lexer_start (chars "${{}}") 4, only [INTERPOLATION_END])]) =
  set_brace_depth (mkScanner true false 0 0 5) 0 /\
  scan_run_produced (mkScanner true false 0 0 5)
    ((lexer_start (chars "${{}}") 0, only [INTERPOLATION_START]) ::
     [(lexer_start (chars "${{}}") 2, only [INTERPOLATION_END])] ++
     [(lexer_start (chars "${{}}") 3, only [INTERPOLATION_END])] ++
     [(lexer_start (chars "${{}}") 4, only [INTERPOLATION_END])]) =
  true ::
  repeat false
    (length [(lexer_start (chars "${{}}") 2, only [INTERPOLATION_END])] +
     length [(lexer_start (chars "${{}}") 3, only [INTERPOLATION_END])]) ++
  [true].
Proof.
  apply (interpolation_round_trip (mkScanner true false 0 0 5)).
  - left. reflexivity.
  - simpl. lia.
  - unfold INT_MAX. simpl. lia.
  - unfold INT_MAX. simpl. lia.
  - reflexivity.
  - reflexivity.
  - reflexivity.
  - reflexivity.
  - repeat constructor.
  - repeat constructor.
  - repeat constructor.
Defined.
